(** * ShapeShifter: the SVG path parser/serializer and the AutoAwesome fixer

    A shallow embedding of
    - [src/app/scripts/svg/pathparser.ts]  ([parseCommands], [commandsToString])
    - [src/app/scripts/algorithms/AutoAwesome.ts] ([autoFix], [autoFixSubPath],
      [autoConvert])
    - the helper class [MorphSubPathHelper] ([findHitSubPath], [onMouseDown],
      [checkForHovers])
    followed by the properties established about them.

    Layout: the JavaScript number interface and a decimal instance of it,
    the parser and serializer, the AutoAwesome engine over the interface of
    the path container it drives, the path container as the spec describes
    it, a small polygon instance of the interface, the helper class; then
    the lemmas and theorems. *)

From Stdlib Require Import ZArith QArith Qround String Ascii List Lia Bool.
From stdpp Require Import base list strings.

Open Scope string_scope.

(* ===================================================================== *)
(** * JavaScript numbers                                                  *)
(* ===================================================================== *)

Module JsNum.

(** The operations on JavaScript numbers that the two source files use.
    The parser and the serializer are written over this interface, so what
    is proved about their control flow holds for every implementation of
    numbers, IEEE doubles included. *)
Class JsNumber (num : Type) := {
  parseFloat : string -> num;          (* global parseFloat(str)              *)
  Number : string -> num;              (* Number(str)                         *)
  jsAdd : num -> num -> num;           (* a + b                               *)
  jsSub : num -> num -> num;           (* a - b                               *)
  toFixed : num -> nat -> string;      (* Number.prototype.toFixed(digits)    *)
  toString : num -> string             (* Number.prototype.toString()         *)
}.

(** ** Decimal numbers

    An instance used to run the code on concrete inputs.  A number is NaN,
    an infinity, or a decimal [m * 10^e] held exactly; the printing and
    reading functions follow ECMAScript (Number::toString,
    Number.prototype.toFixed, StrDecimalLiteral) on that decimal.

    JavaScript holds the double nearest to a decimal, so the instance agrees
    with the program only where that makes no difference, and the runs of
    this file stay there:
    - reading and printing: a decimal of at most 15 significant digits and
      the double read from it print as the same digits;
    - [dec_add] and [dec_sub] add the decimals exactly, where JavaScript
      rounds the sum of two doubles: the two agree when the operands and the
      sum are doubles themselves (integers below 2^53, binary fractions such
      as 10.5 or 2.5), and when one operand is zero.  They differ on
      -5 + 10.0004, which is 5.0004 here and 5.000400000000001 there;
    - [dec_toFixed] rounds the decimal, where JavaScript rounds the double:
      on decimals of at most 15 significant digits the two agree unless the
      decimal lies half-way between two outputs and the double does not
      (1.0005 is 1.001 here and 1.000 there, its double being below the
      half);
    - [dec_parseFloat] keeps every digit it reads, where JavaScript keeps
      the nearest double (9007199254740993 reads as 9007199254740992
      there). *)
Inductive dec : Type :=
| NaN
| Inf (neg : bool)
| Fin (m e : Z).

Fixpoint stripZeros (fuel : nat) (m e : Z) : Z * Z :=
  match fuel with
  | O => (m, e)
  | S f =>
      if (m =? 0)%Z then (0, 0)%Z
      else if (Z.rem m 10 =? 0)%Z then stripZeros f (Z.quot m 10) (e + 1)%Z
      else (m, e)
  end.

Fixpoint digitsOfPos (fuel : nat) (n : Z) (acc : string) : string :=
  match fuel with
  | O => acc
  | S f =>
      let acc' := String (ascii_of_N (Z.to_N (48 + Z.rem n 10))) acc in
      if (n <? 10)%Z then acc' else digitsOfPos f (Z.quot n 10) acc'
  end.

(** The decimal digits of a non-negative integer, "0" for zero. *)
Definition digitsOf (n : Z) : string :=
  digitsOfPos (S (Z.to_nat (Z.log2 n))) n "".

(** Largest finite double plus half an ulp: decimals from here on read as
    an infinity. *)
Definition overflowLimit : Z := (2 ^ 1024 - 2 ^ 970)%Z.

(** Normal form of [m * 10^e]: no trailing zero in [m], zero as [Fin 0 0],
    overflow to an infinity, underflow to zero. *)
Definition mkFin (m e : Z) : dec :=
  let '(m', e') := stripZeros (S (Z.to_nat (Z.log2 (Z.abs m)))) m e in
  let n := (Z.of_nat (String.length (digitsOf (Z.abs m'))) + e')%Z in
  if (m' =? 0)%Z then Fin 0 0
  else if (309 <? n)%Z then Inf (m' <? 0)%Z
  else if (n <? -323)%Z then Fin 0 0
  else if (0 <=? e')%Z
       then if (overflowLimit <=? Z.abs m' * 10 ^ e')%Z then Inf (m' <? 0)%Z else Fin m' e'
       else if (overflowLimit * 10 ^ (- e') <=? Z.abs m')%Z then Inf (m' <? 0)%Z else Fin m' e'.

Definition isDigit (c : ascii) : bool := ("0" <=? c)%char && (c <=? "9")%char.

Fixpoint takeDigits (s : string) : string * string :=
  match s with
  | String c s' =>
      if isDigit c then let '(d, r) := takeDigits s' in (String c d, r) else ("", s)
  | "" => ("", "")
  end.

Fixpoint digitsVal (acc : Z) (s : string) : Z :=
  match s with
  | String c s' => digitsVal (10 * acc + (Z.of_N (N_of_ascii c) - 48))%Z s'
  | "" => acc
  end.

(** ExponentPart: [e] or [E], an optional sign, at least one digit; when it
    is absent or malformed nothing is consumed. *)
Definition exponentPart (s : string) : Z * string :=
  match s with
  | String c r =>
      if (c =? "e")%char || (c =? "E")%char then
        let '(neg, r1) :=
          match r with
          | String "-" r' => (true, r')
          | String "+" r' => (false, r')
          | _ => (false, r)
          end in
        let '(d, r2) := takeDigits r1 in
        match d with
        | "" => (0%Z, s)
        | _ => ((if neg then - digitsVal 0 d else digitsVal 0 d)%Z, r2)
        end
      else (0%Z, s)
  | "" => (0%Z, s)
  end.

(** The longest prefix of [s] that is a StrDecimalLiteral, with its value and
    what follows it. *)
Definition strDecimalLiteral (s : string) : option (dec * string) :=
  let '(neg, s1) :=
    match s with
    | String "-" r => (true, r)
    | String "+" r => (false, r)
    | _ => (false, s)
    end in
  if String.eqb (substring 0 8 s1) "Infinity"
  then Some (Inf neg, substring 8 (String.length s1 - 8) s1)
  else
    let '(ip, s2) := takeDigits s1 in
    let '(dot, fp, s3) :=
      match s2 with
      | String "." r => let '(f, r') := takeDigits r in (true, f, r')
      | _ => (false, "", s2)
      end in
    match ip, fp with
    | "", "" => None
    | _, _ =>
        let '(ex, s4) := exponentPart s3 in
        let m := digitsVal 0 (ip ++ fp) in
        Some (mkFin (if neg then - m else m)%Z (ex - Z.of_nat (String.length fp))%Z, s4)
    end.

Definition dec_parseFloat (s : string) : dec :=
  match strDecimalLiteral s with
  | Some (v, _) => v
  | None => NaN
  end.

Definition dec_Number (s : string) : dec :=
  match s with
  | "" => Fin 0 0
  | _ => match strDecimalLiteral s with
         | Some (v, "") => v
         | _ => NaN
         end
  end.

Definition dec_neg (a : dec) : dec :=
  match a with
  | NaN => NaN
  | Inf s => Inf (negb s)
  | Fin m e => Fin (- m) e
  end.

(** [a + b] on decimals: the exact sum, not rounded to a double. *)
Definition dec_add (a b : dec) : dec :=
  match a, b with
  | NaN, _ | _, NaN => NaN
  | Inf s, Inf t => if Bool.eqb s t then Inf s else NaN
  | Inf s, Fin _ _ | Fin _ _, Inf s => Inf s
  | Fin m e, Fin m' e' =>
      let e0 := Z.min e e' in
      mkFin (m * 10 ^ (e - e0) + m' * 10 ^ (e' - e0))%Z e0
  end.

Definition dec_sub (a b : dec) : dec := dec_add a (dec_neg b).

Fixpoint zeros (n : nat) : string :=
  match n with
  | O => ""
  | S k => String "0" (zeros k)
  end.

Definition signedInt (n : Z) : string :=
  ((if (n <? 0)%Z then "-" else "+") ++ digitsOf (Z.abs n)).

(** Number::toString(x), radix 10. *)
Definition dec_toString (a : dec) : string :=
  match a with
  | NaN => "NaN"
  | Inf s => (if s then "-" else "") ++ "Infinity"
  | Fin m e =>
      if (m =? 0)%Z then "0"
      else
        let ds := digitsOf (Z.abs m) in
        let k := Z.of_nat (String.length ds) in
        let n := (k + e)%Z in
        (if (m <? 0)%Z then "-" else "") ++
        (if (k <=? n)%Z && (n <=? 21)%Z then ds ++ zeros (Z.to_nat (n - k))
         else if (0 <? n)%Z && (n <=? 21)%Z
              then substring 0 (Z.to_nat n) ds ++ "." ++
                   substring (Z.to_nat n) (Z.to_nat (k - n)) ds
         else if (-6 <? n)%Z && (n <=? 0)%Z then "0." ++ zeros (Z.to_nat (- n)) ++ ds
         else if (k =? 1)%Z then ds ++ "e" ++ signedInt (n - 1)
         else substring 0 1 ds ++ "." ++ substring 1 (Z.to_nat (k - 1)) ds ++
              "e" ++ signedInt (n - 1))
  end.

(** Number.prototype.toFixed(f), applied to the decimal: the digits of the
    integer nearest to [|x| * 10^f], the larger one when [x] is half-way. *)
Definition dec_toFixed (a : dec) (f : nat) : string :=
  match a with
  | NaN => "NaN"
  | Inf _ => dec_toString a
  | Fin m e =>
      let fz := Z.of_nat f in
      if (if (0 <=? e)%Z then (10 ^ 21 <=? Z.abs m * 10 ^ e)%Z
          else (10 ^ 21 * 10 ^ (- e) <=? Z.abs m)%Z)
      then dec_toString a
      else
        (* n: the integer nearest to |x| * 10^f, the larger one on a tie *)
        let n := if (0 <=? e + fz)%Z then (Z.abs m * 10 ^ (e + fz))%Z
                 else ((2 * Z.abs m + 10 ^ (- (e + fz))) / (2 * 10 ^ (- (e + fz))))%Z in
        let ds := digitsOf n in
        let ds' := zeros (S f - String.length ds) ++ ds in
        let k := String.length ds' in
        (if (m <? 0)%Z then "-" else "") ++
        match f with
        | O => ds'
        | _ => substring 0 (k - f) ds' ++ "." ++ substring (k - f) f ds'
        end
  end.

#[export] Instance dec_JsNumber : JsNumber dec := {|
  parseFloat := dec_parseFloat;
  Number := dec_Number;
  jsAdd := dec_add;
  jsSub := dec_sub;
  toFixed := dec_toFixed;
  toString := dec_toString
|}.

End JsNum.

Import JsNum.

(* ===================================================================== *)
(** * pathparser.ts                                                       *)
(* ===================================================================== *)

Module PathParser.

(** What a JavaScript [throw] or a failing property access leaves behind. *)
Inductive Exn : Type :=
| Error (msg : string)     (* throw new Error(msg)                         *)
| TypeError.               (* reading a property of undefined              *)

(** Outcome of a computation: a value, an exception, or a loop that used up
    its fuel (shown below never to happen for [parseCommands]). *)
Inductive Result (A : Type) : Type :=
| Ok (a : A)
| Throw (e : Exn)
| OutOfFuel.
Arguments Ok {A} a.
Arguments Throw {A} e.
Arguments OutOfFuel {A}.

(** const enum Token *)
Inductive Token : Type := AbsoluteCommand | RelativeCommand | Value | EOF.

Section Parser.
Context {num : Type} `{JsNumber num}.

Record Point : Type := mkPoint { x : num; y : num }.

(** Modelled from the spec: the command classes of [./drawcommand], which is
    not among the sources.  One constructor per class, taking what the
    parser passes to [new]; a start point is optional because the parser
    passes [currentPoint], which is undefined before the first move, and so
    is the end of a close, which is [lastMovePoint]. *)
Inductive DrawCommand : Type :=
| MoveCommand (start : option Point) (end_ : Point)
| LineCommand (start : option Point) (end_ : Point)
| QuadraticCurveCommand (start : option Point) (cp end_ : Point)
| BezierCurveCommand (start : option Point) (cp1 cp2 end_ : Point)
| EllipticalArcCommand (x0 y0 rx ry xAxisRotation largeArcFlag sweepFlag x1 y1 : num)
| ClosePathCommand (start : option Point) (end_ : option Point).

(** The closure variables of [parseCommands].  The cursor [index] is kept as
    the unread suffix [pathString.substring(index)]: [charAt(index)] is its
    first character and [index++] drops it. *)
Record PState : Type := mkPState {
  rest : string;
  currentPoint : option Point;
  currentToken : option Token;
  commands : list DrawCommand;
  currentControlPoint : option Point;
  lastMovePoint : option Point
}.

Definition initial (pathString : string) : PState :=
  {| rest := pathString; currentPoint := None; currentToken := None;
     commands := []; currentControlPoint := None; lastMovePoint := None |}.

(** State and exceptions threaded through the closures. *)
Definition Parser (A : Type) : Type := PState -> Result (A * PState).

Definition ret {A} (a : A) : Parser A := fun st => Ok (a, st).

Definition bind {A B} (m : Parser A) (k : A -> Parser B) : Parser B :=
  fun st =>
    match m st with
    | Ok (a, st') => k a st'
    | Throw e => Throw e
    | OutOfFuel => OutOfFuel
    end.

Definition throw {A} (e : Exn) : Parser A := fun _ => Throw e.
Definition outOfFuel {A} : Parser A := fun _ => OutOfFuel.
Definition gets {A} (f : PState -> A) : Parser A := fun st => Ok (f st, st).
Definition modify (f : PState -> PState) : Parser unit := fun st => Ok (tt, f st).

Notation "'let*' v := m 'in' k" := (bind m (fun v => k))
  (at level 10, v name, m at level 200, k at level 200).
Notation "m >> k" := (bind m (fun _ => k))
  (at level 100, k at level 200, right associativity).

Definition setRest (s : string) (st : PState) : PState :=
  {| rest := s; currentPoint := currentPoint st; currentToken := currentToken st;
     commands := commands st; currentControlPoint := currentControlPoint st;
     lastMovePoint := lastMovePoint st |}.
Definition setCurrentToken (t : Token) (st : PState) : PState :=
  {| rest := rest st; currentPoint := currentPoint st; currentToken := Some t;
     commands := commands st; currentControlPoint := currentControlPoint st;
     lastMovePoint := lastMovePoint st |}.
Definition setCurrentPoint (p : Point) (st : PState) : PState :=
  {| rest := rest st; currentPoint := Some p; currentToken := currentToken st;
     commands := commands st; currentControlPoint := currentControlPoint st;
     lastMovePoint := lastMovePoint st |}.
Definition setCurrentControlPoint (p : option Point) (st : PState) : PState :=
  {| rest := rest st; currentPoint := currentPoint st; currentToken := currentToken st;
     commands := commands st; currentControlPoint := p;
     lastMovePoint := lastMovePoint st |}.
Definition setLastMovePoint (p : Point) (st : PState) : PState :=
  {| rest := rest st; currentPoint := currentPoint st; currentToken := currentToken st;
     commands := commands st; currentControlPoint := currentControlPoint st;
     lastMovePoint := Some p |}.
(** commands.push(cmd) *)
Definition push (cmd : DrawCommand) (st : PState) : PState :=
  {| rest := rest st; currentPoint := currentPoint st; currentToken := currentToken st;
     commands := (commands st ++ [cmd])%list; currentControlPoint := currentControlPoint st;
     lastMovePoint := lastMovePoint st |}.

Definition isLower (c : ascii) : bool := ("a" <=? c)%char && (c <=? "z")%char.
Definition isUpper (c : ascii) : bool := ("A" <=? c)%char && (c <=? "Z")%char.
Definition isDigitChar (c : ascii) : bool := ("0" <=? c)%char && (c <=? "9")%char.
Definition isValueStart (c : ascii) : bool :=
  isDigitChar c || (c =? ".")%char || (c =? "-")%char.

(** The scan of [advanceToNextToken_]: the token at the cursor and the
    suffix it starts at. *)
Fixpoint nextToken (s : string) : Token * string :=
  match s with
  | String c s' =>
      if isLower c then (RelativeCommand, s)
      else if isUpper c then (AbsoluteCommand, s)
      else if isValueStart c then (Value, s)
      else nextToken s'                       (* skip unrecognized character *)
  | "" => (EOF, "")
  end.

Definition advanceToNextToken_ : Parser Token :=
  fun st =>
    let '(t, s) := nextToken (rest st) in
    Ok (t, setCurrentToken t (setRest s st)).

Definition consumeCommand_ : Parser ascii :=
  let* t := advanceToNextToken_ in
  match t with
  | RelativeCommand | AbsoluteCommand =>
      fun st =>
        match rest st with
        | String c s' => Ok (c, setRest s' st)
        | "" => Throw TypeError
        end
  | _ => throw (Error "Expected command")
  end.

(** The [while (tempIndex < pathString.length)] scan of [consumeValue_]:
    the characters of the value and the suffix after them. *)
Fixpoint scanValue (start seenDot : bool) (s : string) : string * string :=
  match s with
  | String c s' =>
      if negb (isDigitChar c) && (negb (c =? ".")%char || seenDot)
         && (negb (c =? "-")%char || negb start) && negb (c =? "e")%char
      then ("", s)                            (* end of value *)
      else
        let seenDot' := if (c =? ".")%char then true else seenDot in
        let start' := if (c =? "e")%char then true else false in
        let '(str, r) := scanValue start' seenDot' s' in
        (String c str, r)
  | "" => ("", "")
  end.

Definition consumeValue_ : Parser num :=
  let* t := advanceToNextToken_ in
  match t with
  | Value =>
      fun st =>
        let '(str, r) := scanValue true false (rest st) in
        match str with
        | "" => Throw (Error "Expected value")   (* tempIndex === index *)
        | _ => Ok (parseFloat str, setRest r st)
        end
  | _ => throw (Error "Expected value")
  end.

Definition consumePoint_ (relative : bool) : Parser Point :=
  let* x0 := consumeValue_ in
  let* y0 := consumeValue_ in
  if relative then
    let* cur := gets currentPoint in
    match cur with
    | Some p => ret (mkPoint (jsAdd x0 (x p)) (jsAdd y0 (y p)))
    | None => throw TypeError
    end
  else ret (mkPoint x0 y0).

(** [while (advanceToNextToken_() === Token.Value) { body }], with the
    loop's local variable (if any) passed from one round to the next. *)
Fixpoint whileValue {L : Type} (fuel : nat) (body : L -> Parser L) (l : L) : Parser unit :=
  match fuel with
  | O => outOfFuel
  | S f =>
      let* t := advanceToNextToken_ in
      match t with
      | Value => let* l' := body l in whileValue f body l'
      | _ => ret tt
      end
  end.

(** A loop over the values that follow a command letter: every round reads
    at least one character, so the length of what is unread bounds it. *)
Definition repeatOnValues {L : Type} (body : L -> Parser L) (l : L) : Parser unit :=
  fun st => whileValue (S (String.length (rest st))) body l st.

(** [if (!currentPoint) throw new Error(msg)] *)
Definition requireCurrentPoint (msg : string) : Parser Point :=
  let* cur := gets currentPoint in
  match cur with
  | Some p => ret p
  | None => throw (Error msg)
  end.

(** [currentPoint.x + (currentPoint.x - currentControlPoint.x)], and the
    same for y. *)
Definition reflect (cur ctl : Point) : Point :=
  mkPoint (jsAdd (x cur) (jsSub (x cur) (x ctl))) (jsAdd (y cur) (jsSub (y cur) (y ctl))).

(** ** The bodies of the per-command loops *)

Definition moveBody (relative : bool) (isFirstPoint : bool) : Parser bool :=
  let* nextPoint := consumePoint_ relative in
  let* cur := gets currentPoint in
  (if isFirstPoint
   then modify (push (MoveCommand cur nextPoint)) >>
        modify (setLastMovePoint nextPoint)
   else modify (push (LineCommand cur nextPoint))) >>
  modify (setCurrentControlPoint None) >>
  modify (setCurrentPoint nextPoint) >>
  ret false.

Definition bezierBody (relative : bool) (_ : unit) : Parser unit :=
  let* cp1 := consumePoint_ relative in
  let* cp2 := consumePoint_ relative in
  let* end_ := consumePoint_ relative in
  let* cur := gets currentPoint in
  modify (push (BezierCurveCommand cur cp1 cp2 end_)) >>
  modify (setCurrentControlPoint (Some cp2)) >>
  modify (setCurrentPoint end_).

Definition smoothBezierBody (relative : bool) (_ : unit) : Parser unit :=
  let* cp2 := consumePoint_ relative in
  let* end_ := consumePoint_ relative in
  let* cur := gets currentPoint in
  let* ctl := gets currentControlPoint in
  let* cp1 := match ctl with
         | Some c =>
             match cur with
             | Some p => ret (reflect p c)
             | None => throw TypeError
             end
         | None => ret cp2
         end in
  modify (push (BezierCurveCommand cur cp1 cp2 end_)) >>
  modify (setCurrentControlPoint (Some cp2)) >>
  modify (setCurrentPoint end_).

Definition quadraticBody (relative : bool) (_ : unit) : Parser unit :=
  let* cp := consumePoint_ relative in
  let* end_ := consumePoint_ relative in
  let* cur := gets currentPoint in
  modify (push (QuadraticCurveCommand cur cp end_)) >>
  modify (setCurrentControlPoint (Some cp)) >>
  modify (setCurrentPoint end_).

Definition smoothQuadraticBody (relative : bool) (_ : unit) : Parser unit :=
  let* end_ := consumePoint_ relative in
  let* cur := gets currentPoint in
  let* ctl := gets currentControlPoint in
  let* cp := match ctl with
        | Some c =>
            match cur with
            | Some p => ret (reflect p c)
            | None => throw TypeError
            end
        | None => ret end_
        end in
  modify (push (QuadraticCurveCommand cur cp end_)) >>
  modify (setCurrentControlPoint (Some cp)) >>
  modify (setCurrentPoint end_).

Definition lineBody (relative : bool) (_ : unit) : Parser unit :=
  let* end_ := consumePoint_ relative in
  let* cur := gets currentPoint in
  modify (push (LineCommand cur end_)) >>
  modify (setCurrentControlPoint None) >>
  modify (setCurrentPoint end_).

Definition horizontalBody (relative : bool) (_ : unit) : Parser unit :=
  let* x0 := consumeValue_ in
  let* cur := gets currentPoint in
  match cur with
  | None => throw TypeError
  | Some p =>
      let end_ := mkPoint (if relative then jsAdd x0 (x p) else x0) (y p) in
      modify (push (LineCommand cur end_)) >>
      modify (setCurrentControlPoint None) >>
      modify (setCurrentPoint end_)
  end.

Definition verticalBody (relative : bool) (_ : unit) : Parser unit :=
  let* cur := gets currentPoint in
  match cur with
  | None => throw TypeError
  | Some p =>
      let* y0 := consumeValue_ in
      let end_ := mkPoint (x p) (if relative then jsAdd y0 (y p) else y0) in
      modify (push (LineCommand cur end_)) >>
      modify (setCurrentControlPoint None) >>
      modify (setCurrentPoint end_)
  end.

Definition arcBody (relative : bool) (_ : unit) : Parser unit :=
  let* rx := consumeValue_ in
  let* ry := consumeValue_ in
  let* xAxisRotation := consumeValue_ in
  let* largeArcFlag := consumeValue_ in
  let* sweepFlag := consumeValue_ in
  let* tempPoint1 := consumePoint_ relative in
  let* cur := gets currentPoint in
  match cur with
  | None => throw TypeError
  | Some p =>
      modify (push (EllipticalArcCommand (x p) (y p) rx ry xAxisRotation
                      largeArcFlag sweepFlag (x tempPoint1) (y tempPoint1))) >>
      modify (setCurrentControlPoint None) >>
      modify (setCurrentPoint tempPoint1)
  end.

(** ** The [switch (commandChar)] *)

Definition isChar (c : ascii) (upper lower : ascii) : bool :=
  (c =? upper)%char || (c =? lower)%char.

Definition command (commandChar : ascii) (relative : bool) : Parser unit :=
  if isChar commandChar "M" "m" then
    let* cur := gets currentPoint in
    match relative, cur with
    | true, None => throw (Error "Current point must be set for a relative command")
    | _, _ => repeatOnValues (moveBody relative) true
    end
  else if isChar commandChar "C" "c" then
    requireCurrentPoint "Current point does not exist" >>
    repeatOnValues (bezierBody relative) tt
  else if isChar commandChar "S" "s" then
    requireCurrentPoint "Current point does not exist" >>
    repeatOnValues (smoothBezierBody relative) tt
  else if isChar commandChar "Q" "q" then
    requireCurrentPoint "Current point does not exist" >>
    repeatOnValues (quadraticBody relative) tt
  else if isChar commandChar "T" "t" then
    requireCurrentPoint "Current point does not exist" >>
    repeatOnValues (smoothQuadraticBody relative) tt
  else if isChar commandChar "L" "l" then
    requireCurrentPoint "Current point does not exist" >>
    repeatOnValues (lineBody relative) tt
  else if isChar commandChar "H" "h" then
    requireCurrentPoint "Current point does not exist" >>
    repeatOnValues (horizontalBody relative) tt
  else if isChar commandChar "V" "v" then
    requireCurrentPoint "Current point does not exist" >>
    repeatOnValues (verticalBody relative) tt
  else if isChar commandChar "A" "a" then
    requireCurrentPoint "Current point does not exist" >>
    repeatOnValues (arcBody relative) tt
  else if isChar commandChar "Z" "z" then
    requireCurrentPoint "Current point does not exist" >>
    let* cur := gets currentPoint in
    let* lmp := gets lastMovePoint in
    modify (push (ClosePathCommand cur lmp))
  else ret tt.                                (* no case matches *)

(** One round of [while (index < pathString.length)]. *)
Definition step : Parser unit :=
  let* commandChar := consumeCommand_ in
  let* tok := gets currentToken in
  let relative := match tok with Some RelativeCommand => true | _ => false end in
  command commandChar relative.

Fixpoint mainLoop (fuel : nat) : Parser unit :=
  match fuel with
  | O => outOfFuel
  | S f =>
      fun st =>
        match rest st with
        | "" => Ok (tt, st)
        | _ => (step >> mainLoop f) st
        end
  end.

(** [parseCommands(pathString)], called without the optional [matrices]
    (the transform pass belongs to [./drawcommand] and no property below
    involves it). *)
Definition parseCommands (pathString : string) : Result (list DrawCommand) :=
  match mainLoop (S (String.length pathString)) (initial pathString) with
  | Ok (_, st) => Ok (commands st)
  | Throw e => Throw e
  | OutOfFuel => OutOfFuel
  end.

(** ** commandsToString *)

(** Modelled from the spec: [cmd.svgChar] of [./drawcommand], the kind
    letter of a command (absolute, since the parser has resolved relative
    coordinates). *)
Definition svgChar (cmd : DrawCommand) : string :=
  match cmd with
  | MoveCommand _ _ => "M"
  | LineCommand _ _ => "L"
  | QuadraticCurveCommand _ _ _ => "Q"
  | BezierCurveCommand _ _ _ _ => "C"
  | EllipticalArcCommand _ _ _ _ _ _ _ _ _ => "A"
  | ClosePathCommand _ _ => "Z"
  end.

(** Modelled from the spec: [cmd.points] of [./drawcommand], the start
    point, the control points and the end point. *)
Definition points (cmd : DrawCommand) : list (option Point) :=
  match cmd with
  | MoveCommand s e => [s; Some e]
  | LineCommand s e => [s; Some e]
  | QuadraticCurveCommand s c e => [s; Some c; Some e]
  | BezierCurveCommand s c1 c2 e => [s; Some c1; Some c2; Some e]
  | EllipticalArcCommand x0 y0 _ _ _ _ _ x1 y1 => [Some (mkPoint x0 y0); Some (mkPoint x1 y1)]
  | ClosePathCommand s e => [s; e]
  end.

(** Modelled from the spec: [cmd.args] of [./drawcommand], for an arc the
    start pair followed by the seven arc parameters. *)
Definition args (cmd : DrawCommand) : list num :=
  match cmd with
  | EllipticalArcCommand x0 y0 rx ry rot large sweep x1 y1 =>
      [x0; y0; rx; ry; rot; large; sweep; x1; y1]
  | _ => []
  end.

Definition isEllipticalArcCommand (cmd : DrawCommand) : bool :=
  match cmd with
  | EllipticalArcCommand _ _ _ _ _ _ _ _ _ => true
  | _ => false
  end.

(** An element of the [tokens] array: a string, or (for an arc) the array
    of numbers that [splice] inserts as one element. *)
Inductive TokenElt : Type :=
| EltString (s : string)
| EltNumbers (l : list num).

(** Array.prototype.join(sep) on strings. *)
Fixpoint joinStrings (sep : string) (l : list string) : string :=
  match l with
  | [] => ""
  | [s] => s
  | s :: l' => s ++ sep ++ joinStrings sep l'
  end.

(** ToString of an element, as [join] applies it: an array of numbers
    prints as its elements joined by commas. *)
Definition eltToString (e : TokenElt) : string :=
  match e with
  | EltString s => s
  | EltNumbers l => joinStrings "," (map toString l)
  end.

(** [points.reduce((list, p) => list.concat(p.x, p.y), [])] *)
Fixpoint pointsToNumberListFunc (ps : list (option Point)) : Result (list num) :=
  match ps with
  | [] => Ok []
  | Some p :: ps' =>
      match pointsToNumberListFunc ps' with
      | Ok l => Ok (x p :: y p :: l)
      | r => r
      end
  | None :: _ => Throw TypeError
  end.

(** String.prototype.toUpperCase, on the letters a-z. *)
Fixpoint toUpperCase (s : string) : string :=
  match s with
  | String c s' =>
      String (if isLower c then ascii_of_N (N_of_ascii c - 32) else c) (toUpperCase s')
  | "" => ""
  end.

(** The tokens that one round of [commands.forEach] appends. *)
Definition commandTokens (cmd : DrawCommand) : Result (list TokenElt) :=
  if isEllipticalArcCommand cmd
  then Ok [EltString (svgChar cmd); EltNumbers (skipn 2 (args cmd))]
                                              (* skip first two arc args *)
  else
    let isClosePathCommand := String.eqb (toUpperCase (svgChar cmd)) "Z" in
    match pointsToNumberListFunc (if isClosePathCommand then [] else skipn 1 (points cmd)) with
    | Ok ns =>
        Ok (EltString (svgChar cmd)
              :: map (fun n => EltString (toString (Number (toFixed n 3)))) ns)
    | Throw e => Throw e
    | OutOfFuel => OutOfFuel
    end.

Fixpoint allTokens (cmds : list DrawCommand) : Result (list TokenElt) :=
  match cmds with
  | [] => Ok []
  | cmd :: cmds' =>
      match commandTokens cmd with
      | Ok ts =>
          match allTokens cmds' with
          | Ok ts' => Ok (ts ++ ts')%list
          | r => r
          end
      | r => r
      end
  end.

Definition commandsToString (cmds : list DrawCommand) : Result string :=
  match allTokens cmds with
  | Ok ts => Ok (joinStrings " " (map eltToString ts))
  | Throw e => Throw e
  | OutOfFuel => OutOfFuel
  end.

(** [parseCommands(commandsToString(parseCommands(s)))] *)
Definition roundTrip (s : string) : Result (list DrawCommand) :=
  match parseCommands s with
  | Ok cmds =>
      match commandsToString cmds with
      | Ok s' => parseCommands s'
      | Throw e => Throw e
      | OutOfFuel => OutOfFuel
      end
  | r => r
  end.

(** ** Vocabulary for the properties *)

(** Two states that differ only in the cursor and the current token. *)
Definition sameVars (st st' : PState) : Prop :=
  currentPoint st' = currentPoint st
  /\ commands st' = commands st
  /\ currentControlPoint st' = currentControlPoint st
  /\ lastMovePoint st' = lastMovePoint st.

(** [m] never runs out of fuel. *)
Definition noFuelOut {A} (m : Parser A) : Prop :=
  forall st, m st <> OutOfFuel.

(** [m] does not move the cursor back / moves it forward. *)
Definition restLe {A} (m : Parser A) : Prop :=
  forall st a st', m st = Ok (a, st') -> String.length (rest st') <= String.length (rest st).
Definition restLt {A} (m : Parser A) : Prop :=
  forall st a st', m st = Ok (a, st') -> String.length (rest st') < String.length (rest st).

(** Every loop body reads at least one value and never runs out of fuel. *)
Definition goodBody {L} (body : L -> Parser L) : Prop :=
  (forall l, noFuelOut (body l)) /\ (forall l, restLt (body l)).

(** The commands of a run of coordinate pairs after the first: a Line to
    each pair from the prior point. *)
Fixpoint lineRunCommands (cur : option Point) (pts : list Point) : list DrawCommand :=
  match pts with
  | [] => []
  | p :: pts' => LineCommand cur p :: lineRunCommands (Some p) pts'
  end.

(** The commands of a run of coordinate pairs after M: a Move to the first
    pair, then Lines. *)
Definition moveRunCommands (cur : option Point) (pts : list Point) : list DrawCommand :=
  match pts with
  | [] => []
  | p :: pts' => MoveCommand cur p :: lineRunCommands (Some p) pts'
  end.

(** *** Printed commands that read back

    The output of [commandsToString], and what [parseCommands] makes of it
    when every printed number is a token that the value scan reads whole. *)

(** [Number(n.toFixed(3)).toString()] *)
Definition round3 (n : num) : string := toString (Number (toFixed n 3)).

(** A character at which the scan of a value stops whatever its state. *)
Definition endsValue (c : ascii) : bool :=
  negb (isDigitChar c) && negb (c =? ".")%char && negb (c =? "-")%char
  && negb (c =? "e")%char.

Definition terminated (r : string) : bool :=
  match r with
  | String c _ => endsValue c
  | "" => true
  end.

(** A printed number that starts a value and that the scan takes whole. *)
Definition plainToken (t : string) : bool :=
  match t with
  | String c _ => isValueStart c && String.eqb (snd (scanValue true false t)) ""
  | "" => false
  end.

(** Tokens, each after a one-character separator, in front of [r]. *)
Definition glue (l : list (ascii * string)) (r : string) : string :=
  fold_right (fun ct acc => String (fst ct) (snd ct ++ acc)) r l.

(** The printed arguments of a command with the separator before each. *)
Definition argPairs (cmd : DrawCommand) : list (ascii * string) :=
  let sp := fun n : num => (" "%char, round3 n) in
  let cm := fun n : num => (","%char, toString n) in
  match cmd with
  | MoveCommand _ e | LineCommand _ e => [sp (x e); sp (y e)]
  | QuadraticCurveCommand _ c e => [sp (x c); sp (y c); sp (x e); sp (y e)]
  | BezierCurveCommand _ c1 c2 e =>
      [sp (x c1); sp (y c1); sp (x c2); sp (y c2); sp (x e); sp (y e)]
  | EllipticalArcCommand _ _ rx ry rot large sweep x1 y1 =>
      [(" "%char, toString rx); cm ry; cm rot; cm large; cm sweep; cm x1; cm y1]
  | ClosePathCommand _ _ => []
  end.

(** Strings, each after a space, in front of [r]. *)
Definition spaced (l : list string) (r : string) : string :=
  fold_right (fun t acc => String " " (t ++ acc)) r l.

(** The printed commands, each after a space. *)
Fixpoint printed (cmds : list DrawCommand) : string :=
  match cmds with
  | [] => ""
  | cmd :: cmds' => String " " (svgChar cmd ++ glue (argPairs cmd) (printed cmds'))
  end.

(** Every number of the command prints as a plain token. *)
Definition plainCommand (cmd : DrawCommand) : bool :=
  forallb (fun ct => plainToken (snd ct)) (argPairs cmd).

(** A point printed with [round3] and read back. *)
Definition reread (p : Point) : Point :=
  mkPoint (parseFloat (round3 (x p))) (parseFloat (round3 (y p))).

(** What the parser builds from one printed command, with current point
    [cur] and last move point [lmp]: the command, the new current point
    and the new last move point; [None] when a command other than a Move
    comes without a current point. *)
Definition replayOne (cur lmp : option Point) (cmd : DrawCommand)
  : option (DrawCommand * option Point * option Point) :=
  match cmd, cur with
  | MoveCommand _ e, _ =>
      Some (MoveCommand cur (reread e), Some (reread e), Some (reread e))
  | _, None => None
  | LineCommand _ e, Some _ =>
      Some (LineCommand cur (reread e), Some (reread e), lmp)
  | QuadraticCurveCommand _ c e, Some _ =>
      Some (QuadraticCurveCommand cur (reread c) (reread e), Some (reread e), lmp)
  | BezierCurveCommand _ c1 c2 e, Some _ =>
      Some (BezierCurveCommand cur (reread c1) (reread c2) (reread e),
            Some (reread e), lmp)
  | EllipticalArcCommand _ _ rx ry rot large sweep x1 y1, Some p =>
      let r := fun n => parseFloat (toString n) in
      Some (EllipticalArcCommand (x p) (y p) (r rx) (r ry) (r rot) (r large) (r sweep)
                                 (r x1) (r y1),
            Some (mkPoint (r x1) (r y1)), lmp)
  | ClosePathCommand _ _, Some _ => Some (ClosePathCommand cur lmp, cur, lmp)
  end.

(** The commands that the parser builds from the printed [cmds]. *)
Fixpoint replay (cur lmp : option Point) (cmds : list DrawCommand)
  : option (list DrawCommand) :=
  match cmds with
  | [] => Some []
  | cmd :: cmds' =>
      match replayOne cur lmp cmd with
      | Some (c, cur', lmp') => option_map (cons c) (replay cur' lmp' cmds')
      | None => None
      end
  end.

(** The kind letter as a character. *)
Definition letter (cmd : DrawCommand) : ascii :=
  match svgChar cmd with
  | String c _ => c
  | "" => " "%char
  end.

(** Separators and plain tokens throughout. *)
Definition isSep (c : ascii) : bool := (c =? " ")%char || (c =? ",")%char.

Definition sepsOk (l : list (ascii * string)) : bool :=
  forallb (fun ct => isSep (fst ct) && plainToken (snd ct)) l.

(** What a round leaves in the variables: one more command, a new current
    point, and a last move point. *)
Definition leaves (st : PState) (c : DrawCommand) (cur' lmp' : option Point)
    (st' : PState) : Prop :=
  commands st' = (commands st ++ [c])%list
  /\ currentPoint st' = cur' /\ lastMovePoint st' = lmp'.

(** Every round of the body appends one command and leaves a current
    point. *)
Definition pushesOne {L} (body : L -> Parser L) : Prop :=
  forall l st l' st',
    body l st = Ok (l', st') ->
    exists c, commands st' = (commands st ++ [c])%list /\ currentPoint st' <> None.

Definition isMoveCommand (cmd : DrawCommand) : bool :=
  match cmd with
  | MoveCommand _ _ => true
  | _ => false
  end.

(** The first command, if any, is a Move, and there is a current point
    exactly when there is a command. *)
Definition startsWithMove (st : PState) : Prop :=
  match commands st with
  | [] => currentPoint st = None
  | cmd :: _ => isMoveCommand cmd = true /\ currentPoint st <> None
  end.

(** A point whose coordinates are two values as read, nothing added. *)
Definition absolute (p : Point) : Prop :=
  exists a b, p = mkPoint (parseFloat a) (parseFloat b).

(** *** The values of a run

    What a loop over values finds in front of it. *)

(** The numbers that [consumeValue_] reads from [s], call after call, up to
    the first token that is not a value, and the string from that token
    on. *)
Fixpoint valuesFrom (fuel : nat) (s : string) : list num * string :=
  match fuel with
  | O => ([], s)
  | S f =>
      match nextToken s with
      | (Value, r) =>
          let '(str, r') := scanValue true false r in
          let '(vs, r'') := valuesFrom f r' in
          (parseFloat str :: vs, r'')
      | (_, r) => ([], r)
      end
  end.

(** Every value has a character, so the length of the string bounds the
    number of values. *)
Definition valuesOf (s : string) : list num * string :=
  valuesFrom (S (String.length s)) s.

(** Values taken two by two as coordinate pairs; nothing when the last
    value is left without its pair. *)
Fixpoint pairsOf (vs : list num) : option (list Point) :=
  match vs with
  | [] => Some []
  | [_] => None
  | x0 :: y0 :: vs' =>
      match pairsOf vs' with
      | Some pts => Some (mkPoint x0 y0 :: pts)
      | None => None
      end
  end.

(** The round of the loop after M or a further pair: the state that
    [moveBody] leaves when two values are in front of the cursor. *)
Definition afterPair (isFirst : bool) (st : PState) (r : string) (p : Point)
  : PState :=
  {| rest := r; currentPoint := Some p; currentToken := Some Value;
     commands := (commands st ++ [if isFirst then MoveCommand (currentPoint st) p
                                  else LineCommand (currentPoint st) p])%list;
     currentControlPoint := None;
     lastMovePoint := if isFirst then Some p else lastMovePoint st |}.

(** *** Linked commands

    How the commands of one parse hang together. *)

(** The start point that a command records. *)
Definition startOf (cmd : DrawCommand) : option Point :=
  match cmd with
  | MoveCommand s _ | LineCommand s _ | QuadraticCurveCommand s _ _
  | BezierCurveCommand s _ _ _ | ClosePathCommand s _ => s
  | EllipticalArcCommand x0 y0 _ _ _ _ _ _ _ => Some (mkPoint x0 y0)
  end.

(** The point at which the parser stands after a command: its end point,
    and for a Close the point at which it stood before. *)
Definition pointAfter (cmd : DrawCommand) : option Point :=
  match cmd with
  | MoveCommand _ e | LineCommand _ e | QuadraticCurveCommand _ _ e
  | BezierCurveCommand _ _ _ e => Some e
  | EllipticalArcCommand _ _ _ _ _ _ _ x1 y1 => Some (mkPoint x1 y1)
  | ClosePathCommand s _ => s
  end.

(** The target of the latest Move after a command. *)
Definition movePointAfter (lmp : option Point) (cmd : DrawCommand) : option Point :=
  match cmd with
  | MoveCommand _ e => Some e
  | _ => lmp
  end.

(** A Close ends at [lmp]. *)
Definition closesAt (lmp : option Point) (cmd : DrawCommand) : Prop :=
  match cmd with
  | ClosePathCommand _ e => e = lmp
  | _ => True
  end.

(** Commands that follow one another from the point [cur], the target of
    the latest Move being [lmp]: every command starts where the one before
    it left the parser, and a Close ends at the target of the latest
    Move. *)
Fixpoint linked (cur lmp : option Point) (cmds : list DrawCommand) : Prop :=
  match cmds with
  | [] => True
  | cmd :: cmds' =>
      startOf cmd = cur /\ closesAt lmp cmd
      /\ linked (pointAfter cmd) (movePointAfter lmp cmd) cmds'
  end.

(** Where the parser stands, and the target of its latest Move, after a
    list of commands. *)
Definition pointAfterAll (cur : option Point) (cmds : list DrawCommand) : option Point :=
  fold_left (fun _ cmd => pointAfter cmd) cmds cur.

Definition movePointAfterAll (lmp : option Point) (cmds : list DrawCommand) : option Point :=
  fold_left movePointAfter cmds lmp.

(** The variables of the parser agree with its commands. *)
Definition linkedState (st : PState) : Prop :=
  linked None None (commands st)
  /\ currentPoint st = pointAfterAll None (commands st)
  /\ lastMovePoint st = movePointAfterAll None (commands st).

(** One more command, linked to the variables before it. *)
Definition linksOne (st st' : PState) : Prop :=
  exists cmd,
    commands st' = (commands st ++ [cmd])%list
    /\ startOf cmd = currentPoint st
    /\ closesAt (lastMovePoint st) cmd
    /\ currentPoint st' = pointAfter cmd
    /\ lastMovePoint st' = movePointAfter (lastMovePoint st) cmd.

(** Every round of the body adds one linked command. *)
Definition linksEach {L} (body : L -> Parser L) : Prop :=
  forall l st l' st', body l st = Ok (l', st') -> linksOne st st'.

(** *** Characters *)

Fixpoint allChars (p : ascii -> bool) (s : string) : bool :=
  match s with
  | String c s' => p c && allChars p s'
  | "" => true
  end.

(** A character that [advanceToNextToken_] skips. *)
Definition isSkipped (c : ascii) : bool :=
  negb (isLower c) && negb (isUpper c) && negb (isValueStart c).

(** The letters that have a case in the [switch]; the letters of the cases
    that ask for a current point. *)
Definition isKnownLetter (c : ascii) : bool :=
  isChar c "M" "m" || isChar c "C" "c" || isChar c "S" "s" || isChar c "Q" "q"
  || isChar c "T" "t" || isChar c "L" "l" || isChar c "H" "h" || isChar c "V" "v"
  || isChar c "A" "a" || isChar c "Z" "z".

Definition needsCurrentPoint (c : ascii) : bool :=
  isChar c "C" "c" || isChar c "S" "s" || isChar c "Q" "q"
  || isChar c "T" "t" || isChar c "L" "l" || isChar c "H" "h" || isChar c "V" "v"
  || isChar c "A" "a" || isChar c "Z" "z".

(** *** Characters appended to the path string *)

(** The state [st] with [seps] appended to what is still to be read. *)
Definition extended (seps : string) (st : PState) : PState :=
  setRest (rest st ++ seps) st.

(** [m] does on the extended state what it does on the state itself: the
    same result or the same exception, leaving either the extended state
    or, when it has read up to the end of the string, the very same
    state. *)
Definition carries {A} (seps : string) (m : Parser A) : Prop :=
  forall st,
    match m st with
    | Ok (a, st') =>
        m (extended seps st) = Ok (a, extended seps st')
        \/ (rest st' = "" /\ m (extended seps st) = Ok (a, st'))
    | Throw e => m (extended seps st) = Throw e
    | OutOfFuel => True
    end.

(** A relative point: two values as read, each added to a coordinate of
    [cur]. *)
Definition offsetFrom (cur : Point) (p : Point) : Prop :=
  exists a b, p = mkPoint (jsAdd (parseFloat a) (x cur)) (jsAdd (parseFloat b) (y cur)).

End Parser.

(** A point with integer coordinates, on decimal numbers. *)
Definition decPoint (a b : Z) : @Point dec := mkPoint (mkFin a 0) (mkFin b 0).

End PathParser.

(* ===================================================================== *)
(** * AutoAwesome.ts                                                      *)
(* ===================================================================== *)

Module AutoAwesome.

Local Open Scope list_scope.

(** What [align] returns: for each side the list of alignment entries
    ([{ obj?: T }], a gap when [obj] is missing) and the total score. *)
Record Alignments (Command num : Type) : Type := mkAlignments {
  from : list (option Command);
  to : list (option Command);
  score : num
}.
Arguments mkAlignments {Command num}.
Arguments from {Command num}.
Arguments to {Command num}.
Arguments score {Command num}.

(** interface CmdInfo *)
Record CmdInfo : Type := mkCmdInfo {
  isGap : bool;
  isNextGap : bool;
  nextCmdIdx : nat
}.

(** An element of [splitOps]. *)
Record SplitOp (num : Type) : Type := mkSplitOp {
  opSubIdx : nat;
  opCmdIdx : nat;
  opTs : list num
}.
Arguments mkSplitOp {num}.
Arguments opSubIdx {num}.
Arguments opCmdIdx {num}.
Arguments opTs {num}.

(** Array.prototype.reduce without an initial value: the first element
    starts the accumulation, and an empty array is a TypeError. *)
Definition reduce {A : Type} (f : A -> A -> A) (l : list A) : option A :=
  match l with
  | [] => None
  | a :: l' => Some (fold_left f l' a)
  end.

(** _.clamp(number, lower, upper) *)
Definition clamp (number lower upper : Z) : Z :=
  let number := if (number <=? upper)%Z then number else upper in
  if (number >=? lower)%Z then number else lower.

(** The collaborators of AutoAwesome.ts: the path container of
    [app/model/paths], [MathUtil] and [./NeedlemanWunsch] are not among the
    sources, so the engine is written over their interface.  An edit of the
    mutator, [path.mutate().op(...).build()], is a function on paths, and a
    chain of edits applies them in call order. *)
Class Collaborators (Path SubPath Command Point num : Type) := {
  getSubPaths : Path -> list SubPath;             (* path.getSubPaths()         *)
  getCommands : SubPath -> list Command;          (* subPath.getCommands()      *)
  isClosed : SubPath -> bool;                     (* subPath.isClosed()         *)
  getSvgChar : Command -> string;                 (* cmd.getSvgChar()           *)
  canConvertTo : Command -> string -> bool;       (* cmd.canConvertTo(ch)       *)
  getEnd : Command -> Point;                      (* cmd.getEnd()               *)
  reverseSubPath : nat -> Path -> Path;
  shiftSubPathBack : nat -> nat -> Path -> Path;
  splitCommand : nat -> nat -> list num -> Path -> Path;
  convertCommand : nat -> nat -> string -> Path -> Path;
  sortPathOps : list (SplitOp num) -> list (SplitOp num);   (* PathUtil.sortPathOps *)
  MATCH : num;                                    (* constants of NeedlemanWunsch *)
  MISMATCH : num;
  distance : Point -> Point -> num;               (* MathUtil.distance          *)
  jsMax : num -> num -> num;                      (* Math.max                   *)
  jsDiv : num -> num -> num;                      (* a / b                      *)
  ofNat : nat -> num;                             (* a counter as a number      *)
  gt : num -> num -> bool;                        (* a > b                      *)
  align : list Command -> list Command -> (Command -> Command -> num)
          -> Alignments Command num
}.

Section Engine.

(** A computation that would stop on a TypeError (a subpath or command that
    does not exist) is [None]. *)
Context {Path SubPath Command Point num : Type}
        `{Collaborators Path SubPath Command Point num}.

Definition getSubPath (p : Path) (subIdx : nat) : option SubPath :=
  getSubPaths p !! subIdx.

Definition getCommand (p : Path) (subIdx cmdIdx : nat) : option Command :=
  sp ← getSubPath p subIdx; getCommands sp !! cmdIdx.

(** The callback of [_.flatMap] in [autoFixSubPath]: [p] itself and, when
    its subpath is closed, its shifts by 1 .. length - 2. *)
Definition shiftedPaths (subIdx : nat) (p : Path) : option (list Path) :=
  sp ← getSubPath p subIdx;
  Some (p :: (if isClosed sp
              then map (fun i => shiftSubPathBack subIdx i p)
                       (seq 1 (length (getCommands sp) - 2))
              else [])).

Definition fromPaths (subIdx : nat) (from : Path) : option (list Path) :=
  l1 ← shiftedPaths subIdx from;
  l2 ← shiftedPaths subIdx (reverseSubPath subIdx from);
  Some (l1 ++ l2).

Definition getScoreFn (a b : Command) : num :=
  let charA := getSvgChar a in
  let charB := getSvgChar b in
  if negb (String.eqb charA charB) && negb (canConvertTo a charB) && negb (canConvertTo b charA)
  then MISMATCH
  else jsDiv (ofNat 1) (jsMax MATCH (distance (getEnd a) (getEnd b))).

(** An element of [alignmentInfos]. *)
Definition AlignmentInfo : Type := Path * Alignments Command num.
Definition generatedFromPath (info : AlignmentInfo) : Path := fst info.
Definition alignment (info : AlignmentInfo) : Alignments Command num := snd info.

Definition alignmentInfos (subIdx : nat) (paths : list Path) (to : Path)
  : option (list AlignmentInfo) :=
  mapM (fun generatedFromPath =>
          fromSp ← getSubPath generatedFromPath subIdx;
          toSp ← getSubPath to subIdx;
          Some (generatedFromPath, align (getCommands fromSp) (getCommands toSp) getScoreFn))
       paths.

(** The callback of [alignmentInfos.reduce]. *)
Definition higherScore (prev curr : AlignmentInfo) : AlignmentInfo :=
  let prevScore := score (alignment prev) in
  let currScore := score (alignment curr) in
  if gt prevScore currScore then prev else curr.

(** Find the alignment with the highest score. *)
Definition bestAlignment (infos : list AlignmentInfo) : option AlignmentInfo :=
  reduce higherScore infos.

(** [processAlignmentsFn]; the counter [nextCmdIdx] of the closure is the
    first argument. *)
Fixpoint processAlignmentsFrom (nextCmdIdx : nat) (alignments : list (option Command))
  : list CmdInfo :=
  match alignments with
  | [] => []
  | a :: rest =>
      let isGap := negb (bool_decide (is_Some a)) in
      let isNextGap := match rest with
                       | [] => false
                       | b :: _ => negb (bool_decide (is_Some b))
                       end in
      let nextCmdIdx := if isGap then nextCmdIdx else S nextCmdIdx in
      mkCmdInfo isGap isNextGap nextCmdIdx :: processAlignmentsFrom nextCmdIdx rest
  end.

Definition processAlignmentsFn (alignments : list (option Command)) : list CmdInfo :=
  processAlignmentsFrom 0 alignments.

(** [createGapStreaksFn]; its two local arrays are the first arguments. *)
Fixpoint createGapStreaksFrom (gapStreaks : list (list CmdInfo))
    (currentGapStreak : list CmdInfo) (cmdInfos : list CmdInfo) : list (list CmdInfo) :=
  match cmdInfos with
  | [] => gapStreaks
  | cmdInfo :: rest =>
      if isGap cmdInfo then
        let currentGapStreak := currentGapStreak ++ [cmdInfo] in
        if negb (isNextGap cmdInfo)
        then createGapStreaksFrom (gapStreaks ++ [currentGapStreak]) [] rest
        else createGapStreaksFrom gapStreaks currentGapStreak rest
      else createGapStreaksFrom gapStreaks currentGapStreak rest
  end.

Definition createGapStreaksFn (cmdInfos : list CmdInfo) : list (list CmdInfo) :=
  createGapStreaksFrom [] [] cmdInfos.

(** The split of one gap group, as the loop of [applySplitsFn] builds it. *)
Definition splitOpOf (subIdx numPaths : nat) (gapGroup : list CmdInfo)
  : option (SplitOp num) :=
  lastInfo ← last gapGroup;
  let cmdIdx := clamp (Z.of_nat (nextCmdIdx lastInfo)) 1 (Z.of_nat numPaths - 1) in
  let ts := imap (fun gapIdx _ => jsDiv (ofNat (gapIdx + 1)) (ofNat (length gapGroup + 1)))
                 gapGroup in
  Some (mkSplitOp subIdx (Z.to_nat cmdIdx) ts).

(** [applySplitsFn]: the groups are visited from the last to the first. *)
Definition applySplitsFn (subIdx : nat) (path : Path) (gapGroups : list (list CmdInfo))
  : option Path :=
  sp ← getSubPath path subIdx;
  let numPaths := length (getCommands sp) in
  splitOps ← mapM (splitOpOf subIdx numPaths) (reverse gapGroups);
  Some (fold_left (fun mutator op => splitCommand subIdx (opCmdIdx op) (opTs op) mutator)
                  (sortPathOps splitOps) path).

(** The [forEach] of [autoConvert], from command index [cmdIdx] on; the two
    mutators are the accumulated paths. *)
Fixpoint autoConvertFrom (subIdx cmdIdx : nat) (fromCmds : list Command) (to : Path)
    (fromMutator toMutator : Path) : option (Path * Path) :=
  match fromCmds with
  | [] => Some (fromMutator, toMutator)
  | fromCmd :: rest =>
      toCmd ← getCommand to subIdx cmdIdx;
      if String.eqb (getSvgChar fromCmd) (getSvgChar toCmd)
      then autoConvertFrom subIdx (S cmdIdx) rest to fromMutator toMutator
      else if canConvertTo fromCmd (getSvgChar toCmd)
      then autoConvertFrom subIdx (S cmdIdx) rest to
             (convertCommand subIdx cmdIdx (getSvgChar toCmd) fromMutator) toMutator
      else if canConvertTo toCmd (getSvgChar fromCmd)
      then autoConvertFrom subIdx (S cmdIdx) rest to
             fromMutator (convertCommand subIdx cmdIdx (getSvgChar fromCmd) toMutator)
      else autoConvertFrom subIdx (S cmdIdx) rest to fromMutator toMutator
  end.

(** [autoConvert(subIdx, from, to)]; the result is the pair (from, to). *)
Definition autoConvert (subIdx : nat) (from to : Path) : option (Path * Path) :=
  fromSp ← getSubPath from subIdx;
  autoConvertFrom subIdx 0 (getCommands fromSp) to from to.

(** [autoFixSubPath] up to its last statement: the two paths after the gaps
    of the best alignment have been filled by splits. *)
Definition splitResults (subIdx : nat) (from to : Path) : option (Path * Path) :=
  paths ← fromPaths subIdx from;
  infos ← alignmentInfos subIdx paths to;
  alignmentInfo ← bestAlignment infos;
  let fromCmdInfos := processAlignmentsFn (AutoAwesome.from (alignment alignmentInfo)) in
  let toCmdInfos := processAlignmentsFn (AutoAwesome.to (alignment alignmentInfo)) in
  let fromGapGroups := createGapStreaksFn fromCmdInfos in
  let toGapGroups := createGapStreaksFn toCmdInfos in
  fromPathResult ← applySplitsFn subIdx (generatedFromPath alignmentInfo) fromGapGroups;
  toPathResult ← applySplitsFn subIdx to toGapGroups;
  Some (fromPathResult, toPathResult).

Definition autoFixSubPath (subIdx : nat) (from to : Path) : option (Path * Path) :=
  '(fromPathResult, toPathResult) ← splitResults subIdx from to;
  (* Finally, convert the commands before returning the result. *)
  autoConvert subIdx fromPathResult toPathResult.

(** One round of the loop of [autoFix]. *)
Definition autoFixStep (subIdx : nat) (fromPath toPath : Path) : option (Path * Path) :=
  fromSp ← getSubPath fromPath subIdx;
  toSp ← getSubPath toPath subIdx;
  let numFromCmds := length (getCommands fromSp) in
  let numToCmds := length (getCommands toSp) in
  if (numToCmds <=? numFromCmds)%nat
  then autoFixSubPath subIdx fromPath toPath
  else '(from, to) ← autoFixSubPath subIdx toPath fromPath; Some (to, from).

Fixpoint autoFixLoop (subIdxs : list nat) (fromPath toPath : Path) : option (Path * Path) :=
  match subIdxs with
  | [] => Some (fromPath, toPath)
  | subIdx :: rest =>
      '(fromPath, toPath) ← autoFixStep subIdx fromPath toPath;
      autoFixLoop rest fromPath toPath
  end.

(** [autoFix(fromPath, toPath)]; the result is the pair (from, to). *)
Definition autoFix (fromPath toPath : Path) : option (Path * Path) :=
  let numSubPaths := Nat.min (length (getSubPaths fromPath)) (length (getSubPaths toPath)) in
  autoFixLoop (seq 0 numSubPaths) fromPath toPath.

End Engine.

(** ** Vocabulary for the properties *)

Section Vocabulary.
Context {Path SubPath Command Point num : Type}
        `{Collaborators Path SubPath Command Point num}.

(** The commands, and the kind letters, of subpath [subIdx] of [p]. *)
Definition commandsAt (p : Path) (subIdx : nat) : option (list Command) :=
  getCommands <$> getSubPath p subIdx.

Definition kindsAt (p : Path) (subIdx : nat) : option (list string) :=
  map getSvgChar <$> commandsAt p subIdx.

(** Two commands of one kind, or one of which converts to the kind of the
    other. *)
Definition convertiblePair (a b : Command) : Prop :=
  getSvgChar a = getSvgChar b
  \/ canConvertTo a (getSvgChar b) = true
  \/ canConvertTo b (getSvgChar a) = true.

(** The kinds that the conversion pass leaves at a position that holds
    [a] in the from-subpath and [b] in the to-subpath: the branches of the
    callback of [autoConvert], the from-kind first.  Kinds that are equal
    stay; else [a] takes the kind of [b] if it can; else [b] takes the kind
    of [a] if it can; else both stay as they are. *)
Definition kindsAfterConvert (a b : Command) : string * string :=
  if String.eqb (getSvgChar a) (getSvgChar b) then (getSvgChar a, getSvgChar b)
  else if canConvertTo a (getSvgChar b) then (getSvgChar b, getSvgChar b)
  else if canConvertTo b (getSvgChar a) then (getSvgChar a, getSvgChar a)
  else (getSvgChar a, getSvgChar b).

(** [p'] has the subpaths of [p] everywhere but at [subIdx]. *)
Definition othersUnchanged (subIdx : nat) (p p' : Path) : Prop :=
  forall j, j <> subIdx -> getSubPaths p' !! j = getSubPaths p !! j.

(** [>] orders the scores of [infos] the way it orders numbers that are not
    NaN: it is transitive, and so is its negation. *)
Definition scoresOrdered (infos : list (@AlignmentInfo Path Command num)) : Prop :=
  (forall a b c, In a infos -> In b infos -> In c infos ->
     gt (score (alignment a)) (score (alignment b)) = true ->
     gt (score (alignment b)) (score (alignment c)) = true ->
     gt (score (alignment a)) (score (alignment c)) = true)
  /\ (forall a b c, In a infos -> In b infos -> In c infos ->
       gt (score (alignment a)) (score (alignment b)) = false ->
       gt (score (alignment b)) (score (alignment c)) = false ->
       gt (score (alignment a)) (score (alignment c)) = false).

(** An entry of an alignment that holds a command; the number of such
    entries and the number of gaps of one side of an alignment. *)
Definition isObj (a : option Command) : bool := bool_decide (is_Some a).

Definition numObjs (al : list (option Command)) : nat :=
  length (List.filter isObj al).

Definition numGaps (al : list (option Command)) : nat :=
  length (List.filter (fun a => negb (isObj a)) al).

(** The number of commands that a list of splits asks for. *)
Definition numSplits (ops : list (SplitOp num)) : nat :=
  list_sum (map (fun op => length (opTs op)) ops).

(** Every [isNextGap] says what [isGap] of the next entry says, and the
    last one is false. *)
Fixpoint flagsAgree (infos : list CmdInfo) : Prop :=
  match infos with
  | [] => True
  | info :: rest =>
      isNextGap info = match rest with
                       | [] => false
                       | next :: _ => isGap next
                       end
      /\ flagsAgree rest
  end.

(** The candidates that the claim on candidate generation lists: the
    original, its reversal and, when the subpath is closed, the shifts of
    the reversal. *)
Definition statedFromPaths (subIdx : nat) (from : Path) : option (list Path) :=
  sp ← getSubPath from subIdx;
  let reversed := reverseSubPath subIdx from in
  Some ([from; reversed]
        ++ (if isClosed sp
            then map (fun i => shiftSubPathBack subIdx i reversed)
                     (seq 1 (length (getCommands sp) - 2))
            else [])).

End Vocabulary.

End AutoAwesome.

(* ===================================================================== *)
(** * The path container                                                  *)
(* ===================================================================== *)

Module Container.

Local Open Scope list_scope.
Import AutoAwesome.

(** What the container below leaves open: what a subpath and a command
    are, what each edit does to the one subpath it is addressed to, the
    order of the splits, and the numbers, the distance and the aligner.
    None of it is among the sources; all of it is a parameter. *)
Record Parts (SubPath Command Point num : Type) := mkParts {
  commandsOf : SubPath -> list Command;
  closed : SubPath -> bool;
  svgCharOf : Command -> string;
  convertsTo : Command -> string -> bool;
  endOf : Command -> Point;
  reversed : SubPath -> SubPath;
  shiftedBack : nat -> SubPath -> SubPath;
  splitAt : nat -> list num -> SubPath -> SubPath;
  convertedAt : nat -> string -> SubPath -> SubPath;
  sorted : list (SplitOp num) -> list (SplitOp num);
  matchScore : num;
  mismatchScore : num;
  distanceOf : Point -> Point -> num;
  maxOf : num -> num -> num;
  quotient : num -> num -> num;
  numberOf : nat -> num;
  greater : num -> num -> bool;
  aligned : list Command -> list Command -> (Command -> Command -> num)
            -> Alignments Command num
}.

Arguments commandsOf {SubPath Command Point num}.
Arguments closed {SubPath Command Point num}.
Arguments svgCharOf {SubPath Command Point num}.
Arguments convertsTo {SubPath Command Point num}.
Arguments endOf {SubPath Command Point num}.
Arguments reversed {SubPath Command Point num}.
Arguments shiftedBack {SubPath Command Point num}.
Arguments splitAt {SubPath Command Point num}.
Arguments convertedAt {SubPath Command Point num}.
Arguments sorted {SubPath Command Point num}.
Arguments matchScore {SubPath Command Point num}.
Arguments mismatchScore {SubPath Command Point num}.
Arguments distanceOf {SubPath Command Point num}.
Arguments maxOf {SubPath Command Point num}.
Arguments quotient {SubPath Command Point num}.
Arguments numberOf {SubPath Command Point num}.
Arguments greater {SubPath Command Point num}.
Arguments aligned {SubPath Command Point num}.

(** Modelled from the spec: the Path container of [app/model/paths] and its
    mutator, which are not among the sources.  A path is the ordered
    sequence of its subpaths, and the mutator accumulates edits against an
    index into the original structure: an edit addressed to [subIdx] is
    applied to the subpath at that index, and the path built is the
    sequence with that subpath replaced.  An index that names no subpath
    leaves the path as it is. *)
Definition container {SubPath Command Point num : Type}
    (M : Parts SubPath Command Point num)
  : Collaborators (list SubPath) SubPath Command Point num := {|
  getSubPaths := fun p => p;
  getCommands := commandsOf M;
  isClosed := closed M;
  getSvgChar := svgCharOf M;
  canConvertTo := convertsTo M;
  getEnd := endOf M;
  reverseSubPath := fun subIdx => alter (reversed M) subIdx;
  shiftSubPathBack := fun subIdx i => alter (shiftedBack M i) subIdx;
  splitCommand := fun subIdx cmdIdx ts => alter (splitAt M cmdIdx ts) subIdx;
  convertCommand := fun subIdx cmdIdx ch => alter (convertedAt M cmdIdx ch) subIdx;
  sortPathOps := sorted M;
  MATCH := matchScore M;
  MISMATCH := mismatchScore M;
  distance := distanceOf M;
  jsMax := maxOf M;
  jsDiv := quotient M;
  ofNat := numberOf M;
  gt := greater M;
  align := aligned M
|}.

End Container.

(* ===================================================================== *)
(** * A polygon instance of the collaborators                             *)
(* ===================================================================== *)

(** The engine above is run on concrete paths with this instance: paths as
    lists of subpaths, subpaths as lists of commands, a command as its kind
    letter and its end point, numbers as rationals. *)
Module Polygons.

Local Open Scope list_scope.
Import AutoAwesome.

Definition Pt : Type := Q * Q.

Record Cmd : Type := mkCmd { kind : string; endPt : Pt }.

Definition pt (a b : Z) : Pt := (inject_Z a, inject_Z b).

Definition Pt_eqb (p q : Pt) : bool := Qeq_bool (fst p) (fst q) && Qeq_bool (snd p) (snd q).

(** Modelled from the spec: a subpath is closed when it ends with one Close
    whose end equals the target of its initial Move. *)
Definition closedCmds (sp : list Cmd) : bool :=
  match sp, last sp with
  | first :: _, Some l => String.eqb (kind l) "Z" && Pt_eqb (endPt l) (endPt first)
  | _, _ => false
  end.

(** Modelled from the spec: the capability table is external to the core;
    here lines become curves, quadratics become cubics, a close becomes a
    line or a curve, and moves and arcs convert to nothing. *)
Definition convertibleTo (c : Cmd) (ch : string) : bool :=
  if String.eqb (kind c) "L" then String.eqb ch "Q" || String.eqb ch "C"
  else if String.eqb (kind c) "Q" then String.eqb ch "C"
  else if String.eqb (kind c) "Z" then String.eqb ch "L" || String.eqb ch "Q" || String.eqb ch "C"
  else false.

(** Modelled from the spec: point-order reversal of a subpath; the kind
    letters stay in place. *)
Definition reverseCmds (cmds : list Cmd) : list Cmd :=
  zip_with mkCmd (map kind cmds) (rev (map endPt cmds)).

(** Modelled from the spec: cyclic rotation of the starting command index
    of a closed subpath, [i] places back. *)
Definition shiftCmds (i : nat) (cmds : list Cmd) : list Cmd :=
  let cycle := removelast (map endPt cmds) in
  let turned := rotate (length cycle - i mod length cycle) cycle in
  zip_with mkCmd (map kind cmds) (turned ++ firstn 1 turned).

Definition lerp (a b : Pt) (t : Q) : Pt :=
  (Qred (fst a + t * (fst b - fst a)), Qred (snd a + t * (snd b - snd a))).

(** Modelled from the spec: a split at fractions [ts] decomposes the
    command at [cmdIdx] into [length ts + 1] commands of its kind covering
    the same start-to-end geometry (linear interpolation). *)
Definition splitCmds (cmdIdx : nat) (ts : list Q) (cmds : list Cmd) : list Cmd :=
  match cmdIdx, cmds !! (cmdIdx - 1), cmds !! cmdIdx with
  | S _, Some prev, Some c =>
      take cmdIdx cmds
      ++ map (fun t => mkCmd (kind c) (lerp (endPt prev) (endPt c) t)) ts
      ++ c :: drop (S cmdIdx) cmds
  | _, _, _ => cmds
  end.

(** Modelled from the spec: a conversion re-expresses a command as another
    kind with unchanged end points. *)
Definition convertCmds (cmdIdx : nat) (ch : string) (cmds : list Cmd) : list Cmd :=
  alter (fun c => mkCmd ch (endPt c)) cmdIdx cmds.

(** Modelled from the spec: splits are applied in descending index order. *)
Fixpoint insertOp (op : SplitOp Q) (ops : list (SplitOp Q)) : list (SplitOp Q) :=
  match ops with
  | [] => [op]
  | o :: ops' =>
      if (opCmdIdx o <? opCmdIdx op)%nat then op :: ops else o :: insertOp op ops'
  end.

Definition sortOps (ops : list (SplitOp Q)) : list (SplitOp Q) :=
  foldr insertOp [] ops.

(** The gap penalty of the alignment. *)
Definition INDEL : Q := 0.

Definition maxQ (a b : Q) : Q := if Qle_bool a b then b else a.

(** Modelled from the spec: the Euclidean distance, here rounded down to a
    thousandth. *)
Definition euclid (p q : Pt) : Q :=
  let dx := (fst p - fst q)%Q in
  let dy := (snd p - snd q)%Q in
  Qred (Z.sqrt (Qfloor ((dx * dx + dy * dy) * 1000000)) # 1000).

(** ** Needleman-Wunsch *)

Definition max3 (a b c : Q) : Q := maxQ (maxQ a b) c.

(** A row of the table from the row above it. *)
Fixpoint nwRowFrom (sc : Cmd -> Q) (prevRow : list Q) (left : Q) (bs : list Cmd) : list Q :=
  match bs, prevRow with
  | b :: bs', diag :: ((up :: _) as prevRow') =>
      let v := Qred (max3 (diag + sc b) (left + INDEL) (up + INDEL)) in
      v :: nwRowFrom sc prevRow' v bs'
  | _, _ => []
  end.

Fixpoint nwRows (sc : Cmd -> Cmd -> Q) (i : nat) (prevRow : list Q) (a b : list Cmd)
  : list (list Q) :=
  match a with
  | [] => []
  | c :: a' =>
      let first := Qred (inject_Z (Z.of_nat i) * INDEL) in
      let row := first :: nwRowFrom (sc c) prevRow first b in
      row :: nwRows sc (S i) row a' b
  end.

Definition nwTable (sc : Cmd -> Cmd -> Q) (a b : list Cmd) : list (list Q) :=
  let row0 := map (fun j => Qred (inject_Z (Z.of_nat j) * INDEL)) (seq 0 (S (length b))) in
  row0 :: nwRows sc 1 row0 a b.

Definition cell (t : list (list Q)) (i j : nat) : Q :=
  default 0%Q (row ← t !! i; row !! j).

(** The backtrace from cell (i, j): diagonal first, then a single advance. *)
Fixpoint backtrace (fuel : nat) (sc : Cmd -> Cmd -> Q) (t : list (list Q)) (a b : list Cmd)
    (i j : nat) (accFrom accTo : list (option Cmd)) : list (option Cmd) * list (option Cmd) :=
  match fuel with
  | O => (accFrom, accTo)
  | S f =>
      match i, j with
      | O, O => (accFrom, accTo)
      | S i', O => backtrace f sc t a b i' j (a !! i' :: accFrom) (None :: accTo)
      | O, S j' => backtrace f sc t a b i j' (None :: accFrom) (b !! j' :: accTo)
      | S i', S j' =>
          match a !! i', b !! j' with
          | Some ca, Some cb =>
              if Qeq_bool (cell t i j) (cell t i' j' + sc ca cb)
              then backtrace f sc t a b i' j' (Some ca :: accFrom) (Some cb :: accTo)
              else if Qeq_bool (cell t i j) (cell t i' j + INDEL)
              then backtrace f sc t a b i' j (Some ca :: accFrom) (None :: accTo)
              else backtrace f sc t a b i j' (None :: accFrom) (Some cb :: accTo)
          | _, _ => (accFrom, accTo)
          end
      end
  end.

(** Modelled from the spec: global alignment over the full table, a fixed
    gap penalty, a backtrace that prefers the diagonal, and the corner of
    the table as score. *)
Definition needlemanWunsch (a b : list Cmd) (sc : Cmd -> Cmd -> Q) : Alignments Cmd Q :=
  let t := nwTable sc a b in
  let '(f, g) := backtrace (length a + length b) sc t a b (length a) (length b) [] [] in
  mkAlignments f g (cell t (length a) (length b)).

#[export] Instance polygons : Collaborators (list (list Cmd)) (list Cmd) Cmd Pt Q := {|
  getSubPaths := fun p => p;
  getCommands := fun sp => sp;
  isClosed := closedCmds;
  getSvgChar := kind;
  canConvertTo := convertibleTo;
  getEnd := endPt;
  reverseSubPath := fun subIdx => alter reverseCmds subIdx;
  shiftSubPathBack := fun subIdx i => alter (shiftCmds i) subIdx;
  splitCommand := fun subIdx cmdIdx ts => alter (splitCmds cmdIdx ts) subIdx;
  convertCommand := fun subIdx cmdIdx ch => alter (convertCmds cmdIdx ch) subIdx;
  sortPathOps := sortOps;
  MATCH := 1%Q;
  MISMATCH := (-1)%Q;
  distance := euclid;
  jsMax := maxQ;
  jsDiv := fun a b => Qred (a / b);
  ofNat := fun n => inject_Z (Z.of_nat n);
  gt := fun a b => negb (Qle_bool a b);
  align := needlemanWunsch
|}.

(** The same polygons as parts of the path container. *)
Definition polygonParts : Container.Parts (list Cmd) Cmd Pt Q := {|
  Container.commandsOf := fun sp => sp;
  Container.closed := closedCmds;
  Container.svgCharOf := kind;
  Container.convertsTo := convertibleTo;
  Container.endOf := endPt;
  Container.reversed := reverseCmds;
  Container.shiftedBack := shiftCmds;
  Container.splitAt := splitCmds;
  Container.convertedAt := convertCmds;
  Container.sorted := sortOps;
  Container.matchScore := 1%Q;
  Container.mismatchScore := (-1)%Q;
  Container.distanceOf := euclid;
  Container.maxOf := maxQ;
  Container.quotient := fun a b => Qred (a / b);
  Container.numberOf := fun n => inject_Z (Z.of_nat n);
  Container.greater := fun a b => negb (Qle_bool a b);
  Container.aligned := needlemanWunsch
|}.

(** ** Example paths *)

Definition M (a b : Z) : Cmd := mkCmd "M" (pt a b).
Definition L (a b : Z) : Cmd := mkCmd "L" (pt a b).
Definition A (a b : Z) : Cmd := mkCmd "A" (pt a b).
Definition Zc (a b : Z) : Cmd := mkCmd "Z" (pt a b).

Definition triangle : list Cmd := [M 0 0; L 8 0; L 8 6; Zc 0 0].
Definition square : list Cmd := [M 0 0; L 8 0; L 8 8; L 0 8; Zc 0 0].
Definition arcPath : list Cmd := [M 0 0; A 3 4].
Definition linePath : list Cmd := [M 0 0; L 3 4].
Definition segment : list Cmd := [M 0 0; L 8 0].
Definition dot : list Cmd := [M 4 4; L 4 4].

End Polygons.

(* ===================================================================== *)
(** * MorphSubPathHelper                                                  *)
(* ===================================================================== *)

(** The helper that tracks the pointer in morph-subpath mode.  Its
    collaborators (the overlay directive with its hit test and its active
    path, the action mode service) are not among the sources: the hit
    result is an argument, the active path is its [getSubPath], and the
    calls made on the service and on the directive are returned as a list
    of effects. *)
Module MorphSubPathHelper.

Local Open Scope list_scope.

(** _.findLastIndex(array, predicate): the array is scanned from its last
    element down, up to the first element that satisfies the predicate; -1
    when none does.  A predicate that throws ends the scan ([None]). *)
Fixpoint findLastIndexFrom {A : Type} (predicate : A -> option bool)
    (reversed : list A) (index : Z) : option Z :=
  match reversed with
  | [] => Some (-1)%Z
  | a :: rest =>
      match predicate a with
      | None => None
      | Some true => Some index
      | Some false => findLastIndexFrom predicate rest (index - 1)%Z
      end
  end.

Definition findLastIndex {A : Type} (predicate : A -> option bool) (array : list A)
  : option Z :=
  findLastIndexFrom predicate (reverse array) (Z.of_nat (length array) - 1)%Z.

(** [array[i]]: [undefined] ([None]) outside the array. *)
Definition at_ {A : Type} (array : list A) (i : Z) : option A :=
  if (i <? 0)%Z then None else array !! Z.to_nat i.

(** The part of a hit result that the helper reads. *)
Record HitResult : Type := mkHitResult {
  isHit : bool;
  isSegmentHit : bool;
  isShapeHit : bool;
  segmentHits : list nat;            (* the subIdx of each hit *)
  shapeHits : list nat
}.

(** The calls that the helper makes. *)
Inductive Effect : Type :=
| PairSubPath (subIdx : nat)         (* actionModeService.pairSubPath(subIdx, actionSource) *)
| SetActionModeSelection             (* actionModeService.setActionMode(ActionMode.Selection) *)
| SetHover (subIdx : nat)            (* actionModeService.setHover({ type: SubPath, source, subIdx }) *)
| ClearHover                         (* actionModeService.clearHover() *)
| Draw.                              (* component.draw() *)

Section Helper.

Context {SubPath : Type}.
Variable getSubPath : nat -> option SubPath.  (* component.activePath.getSubPath(subIdx) *)
Variable isSplit : SubPath -> bool.           (* subPath.isSplit() *)

(** An element of [infos]. *)
Record Info : Type := mkInfo { subIdx : nat; subPath : option SubPath }.

(** [findHitSubPath(hits)]: [None] is a TypeError, [Some None] is
    [undefined]. *)
Definition findHitSubPath (hits : list nat) : option (option Info) :=
  let infos := map (fun subIdx => mkInfo subIdx (getSubPath subIdx)) hits in
  lastSplitIndex ← findLastIndex (fun info => isSplit <$> subPath info) infos;
  Some (at_ infos (if (lastSplitIndex <? 0)%Z then (Z.of_nat (length infos) - 1)%Z
                   else lastSplitIndex)).

(** [const { subIdx } = this.findHitSubPath(hits)]: destructuring
    [undefined] is a TypeError. *)
Definition hitSubIdx (hits : list nat) : option nat :=
  found ← findHitSubPath hits;
  info ← found;
  Some (subIdx info).

(** [onMouseDown(mouseDown, isShiftOrMetaPressed)], on the result of the
    hit test at [mouseDown]. *)
Definition onMouseDown (hitResult : HitResult) (isShiftOrMetaPressed : bool)
  : option (list Effect) :=
  if isSegmentHit hitResult || isShapeHit hitResult then
    let hits := if isShapeHit hitResult then shapeHits hitResult
                else segmentHits hitResult in
    subIdx ← hitSubIdx hits;
    Some [PairSubPath subIdx]
  else if negb isShiftOrMetaPressed then Some [SetActionModeSelection]
  else Some [].

Definition checkForHovers (hitResult : HitResult) : option (list Effect) :=
  if negb (isHit hitResult) then Some [ClearHover]
  else if isSegmentHit hitResult || isShapeHit hitResult then
    let hits := if isShapeHit hitResult then shapeHits hitResult
                else segmentHits hitResult in
    subIdx ← hitSubIdx hits;
    Some [SetHover subIdx]
  else Some [].

Definition onMouseMove (hitResult : HitResult) : option (list Effect) :=
  effects ← checkForHovers hitResult;
  Some (effects ++ [Draw]).

Definition onMouseUp : list Effect := [Draw].

Definition onMouseLeave : list Effect := [ClearHover; Draw].

(** *** Vocabulary *)

(** The subpath of a hit exists and is (is not) split. *)
Definition splitAt (b : bool) (hit : nat) : Prop :=
  exists sp, getSubPath hit = Some sp /\ isSplit sp = b.

End Helper.

End MorphSubPathHelper.


(* ===================================================================== *)
(** * Properties of the parser                                            *)
(* ===================================================================== *)

Section ParserProperties.
Context {num : Type} `{JsNumber num}.

Import PathParser.

(* The vocabulary at the numbers of this section. *)
#[local] Abbreviation noFuelOut := (@PathParser.noFuelOut num _).
#[local] Abbreviation restLe := (@PathParser.restLe num _).
#[local] Abbreviation restLt := (@PathParser.restLt num _).
#[local] Abbreviation goodBody := (@PathParser.goodBody num _).
#[local] Abbreviation pushesOne := (@PathParser.pushesOne num _).

Lemma sameVars_refl (st : @PState num) : sameVars st st.
Proof. repeat split. Qed.

Lemma sameVars_trans (st1 st2 st3 : @PState num) :
  sameVars st1 st2 -> sameVars st2 st3 -> sameVars st1 st3.
Proof.
  intros (a & b & c & d) (a' & b' & c' & d').
  repeat split; congruence.
Qed.

(** Destructs the first [bind] of a hypothesis [m >>= k = r]. *)
Ltac bind_inv Hrun a st1 E :=
  unfold bind in Hrun at 1;
  match type of Hrun with
  | match ?m ?st with _ => _ end = _ =>
      destruct (m st) as [[a st1] | ? | ] eqn:E; try discriminate Hrun
  end.

Lemma nextToken_length s t r :
  nextToken s = (t, r) -> String.length r <= String.length s.
Proof.
  revert t r. induction s as [| c s IH]; intros t r Hn; simpl in Hn.
  - inversion Hn; subst. simpl. lia.
  - destruct (isLower c); [inversion Hn; subst; simpl; lia |].
    destruct (isUpper c); [inversion Hn; subst; simpl; lia |].
    destruct (isValueStart c); [inversion Hn; subst; simpl; lia |].
    apply IH in Hn. simpl. lia.
Qed.

Lemma advance_spec (st : @PState num) t st' :
  advanceToNextToken_ st = Ok (t, st') ->
  nextToken (rest st) = (t, rest st') /\ currentToken st' = Some t /\ sameVars st st'.
Proof.
  unfold advanceToNextToken_. destruct (nextToken (rest st)) as [t0 s0] eqn:E.
  intros Hs. inversion Hs; subst. simpl. repeat split.
Qed.

Lemma advance_total (st : @PState num) :
  exists t st', advanceToNextToken_ st = Ok (t, st').
Proof.
  unfold advanceToNextToken_. destruct (nextToken (rest st)); eauto.
Qed.

Lemma scanValue_length start seenDot s str r :
  scanValue start seenDot s = (str, r) ->
  String.length s = String.length str + String.length r.
Proof.
  revert start seenDot str r. induction s as [| c s IH]; intros start seenDot str r Hs; simpl in Hs.
  - inversion Hs; subst. reflexivity.
  - destruct (negb (isDigitChar c) && (negb (c =? ".")%char || seenDot)
              && (negb (c =? "-")%char || negb start) && negb (c =? "e")%char).
    + inversion Hs; subst. reflexivity.
    + destruct (scanValue _ _ s) as [str0 r0] eqn:E. inversion Hs; subst.
      apply IH in E. simpl. lia.
Qed.

(** A value always has at least one character: the check
    [tempIndex === index] of [consumeValue_] never fires. *)
Lemma scanValue_nonempty c s :
  isValueStart c = true -> fst (scanValue true false (String c s)) <> "".
Proof.
  intros Hv. cbn [scanValue].
  assert (Hc : negb (isDigitChar c) && (negb (c =? ".")%char || false)
              && (negb (c =? "-")%char || negb true) && negb (c =? "e")%char = false).
  { unfold isValueStart in Hv.
    destruct (isDigitChar c); [reflexivity |].
    destruct (c =? ".")%char; [reflexivity |].
    destruct (c =? "-")%char; [reflexivity |]. discriminate. }
  rewrite Hc. destruct (scanValue _ _ s). simpl. discriminate.
Qed.

Lemma consumeValue_spec st v st' :
  consumeValue_ st = Ok (v, st') ->
  String.length (rest st') < String.length (rest st) /\ sameVars st st'
  /\ exists str, v = parseFloat str.
Proof.
  unfold consumeValue_. intros Hrun. bind_inv Hrun t st1 E.
  apply advance_spec in E. destruct E as (Hn & _ & Hsame).
  destruct t; try discriminate.
  destruct (scanValue true false (rest st1)) as [str r] eqn:Es.
  destruct str as [| c str]; [discriminate |].
  inversion Hrun; subst. simpl.
  apply scanValue_length in Es. apply nextToken_length in Hn. simpl in Es.
  split; [lia |]. split; [| eauto].
  destruct Hsame as (a & b & c0 & d). repeat split; assumption.
Qed.

Lemma consumePoint_spec relative st p st' :
  consumePoint_ relative st = Ok (p, st') ->
  String.length (rest st') < String.length (rest st) /\ sameVars st st'.
Proof.
  unfold consumePoint_. intros Hrun.
  bind_inv Hrun x0 st1 E1. bind_inv Hrun y0 st2 E2.
  apply consumeValue_spec in E1. apply consumeValue_spec in E2.
  destruct E1 as (L1 & S1 & _), E2 as (L2 & S2 & _).
  assert (st' = st2) as ->.
  { destruct relative.
    - unfold bind, gets in Hrun. destruct (currentPoint st2); inversion Hrun; reflexivity.
    - inversion Hrun; reflexivity. }
  split; [lia | eapply sameVars_trans; eassumption].
Qed.

(** Without the relative flag a point is the two values read, nothing added. *)
Lemma consumePoint_absolute st p st' :
  consumePoint_ false st = Ok (p, st') ->
  exists a b, p = mkPoint (parseFloat a) (parseFloat b).
Proof.
  unfold consumePoint_. intros Hrun.
  bind_inv Hrun x0 st1 E1. bind_inv Hrun y0 st2 E2.
  apply consumeValue_spec in E1. apply consumeValue_spec in E2.
  destruct E1 as (_ & _ & a & ->), E2 as (_ & _ & b & ->).
  inversion Hrun; subst. eauto.
Qed.

(** ** The loops never run out of fuel *)

Lemma restLt_restLe {A} (m : @Parser num A) : restLt m -> restLe m.
Proof. intros Hm st a st' E. apply Hm in E. lia. Qed.

Lemma noFuelOut_bind {A B} (m : @Parser num A) (k : A -> @Parser num B) :
  noFuelOut m -> (forall a, noFuelOut (k a)) -> noFuelOut (bind m k).
Proof.
  intros Hm Hk st. unfold bind. destruct (m st) as [[a st1] | e |] eqn:E.
  - apply Hk.
  - discriminate.
  - exfalso. exact (Hm st E).
Qed.

Lemma restLe_bind {A B} (m : @Parser num A) (k : A -> @Parser num B) :
  restLe m -> (forall a, restLe (k a)) -> restLe (bind m k).
Proof.
  intros Hm Hk st b st' Hrun. bind_inv Hrun a st1 E.
  apply Hm in E. apply Hk in Hrun. lia.
Qed.

Lemma restLt_bind_l {A B} (m : @Parser num A) (k : A -> @Parser num B) :
  restLt m -> (forall a, restLe (k a)) -> restLt (bind m k).
Proof.
  intros Hm Hk st b st' Hrun. bind_inv Hrun a st1 E.
  apply Hm in E. apply Hk in Hrun. lia.
Qed.

Lemma restLt_bind_r {A B} (m : @Parser num A) (k : A -> @Parser num B) :
  restLe m -> (forall a, restLt (k a)) -> restLt (bind m k).
Proof.
  intros Hm Hk st b st' Hrun. bind_inv Hrun a st1 E.
  apply Hm in E. apply Hk in Hrun. lia.
Qed.

Lemma noFuelOut_ret {A} (a : A) : noFuelOut (@ret num A a).
Proof. intros st. discriminate. Qed.
Lemma noFuelOut_throw {A} e : noFuelOut (@throw num A e).
Proof. intros st. discriminate. Qed.
Lemma noFuelOut_gets {A} (f : @PState num -> A) : noFuelOut (gets f).
Proof. intros st. discriminate. Qed.
Lemma noFuelOut_modify (f : @PState num -> @PState num) : noFuelOut (modify f).
Proof. intros st. discriminate. Qed.

Lemma restLe_ret {A} (a : A) : restLe (@ret num A a).
Proof. intros st b st' E. inversion E; subst. lia. Qed.
Lemma restLe_throw {A} e : restLe (@throw num A e).
Proof. intros st b st' E. discriminate. Qed.
Lemma restLt_throw {A} e : restLt (@throw num A e).
Proof. intros st b st' E. discriminate. Qed.
Lemma restLe_gets {A} (f : @PState num -> A) : restLe (gets f).
Proof. intros st b st' E. inversion E; subst. lia. Qed.
Lemma restLe_modify (f : @PState num -> @PState num) :
  (forall st, rest (f st) = rest st) -> restLe (modify f).
Proof. intros Hf st b st' E. inversion E; subst. rewrite Hf. lia. Qed.

Lemma noFuelOut_advance : noFuelOut advanceToNextToken_.
Proof. intros st. destruct (advance_total st) as (t & st' & ->). discriminate. Qed.

Lemma restLe_advance : restLe advanceToNextToken_.
Proof.
  intros st t st' E. apply advance_spec in E. destruct E as (Hn & _).
  eapply nextToken_length; eassumption.
Qed.

Lemma noFuelOut_consumeValue : noFuelOut consumeValue_.
Proof.
  apply noFuelOut_bind; [apply noFuelOut_advance |].
  intros [] st; try discriminate.
  destruct (scanValue true false (rest st)) as [[| c str] r]; discriminate.
Qed.

Lemma restLt_consumeValue : restLt consumeValue_.
Proof. intros st v st' E. apply consumeValue_spec in E. tauto. Qed.

Lemma noFuelOut_consumePoint relative : noFuelOut (consumePoint_ relative).
Proof.
  unfold consumePoint_.
  apply noFuelOut_bind; [apply noFuelOut_consumeValue | intros x0].
  apply noFuelOut_bind; [apply noFuelOut_consumeValue | intros y0].
  destruct relative; [| apply noFuelOut_ret].
  apply noFuelOut_bind; [apply noFuelOut_gets | intros [p |]].
  - apply noFuelOut_ret.
  - apply noFuelOut_throw.
Qed.

Lemma restLt_consumePoint relative : restLt (consumePoint_ relative).
Proof. intros st p st' E. apply consumePoint_spec in E. tauto. Qed.

Lemma noFuelOut_consumeCommand : noFuelOut consumeCommand_.
Proof.
  apply noFuelOut_bind; [apply noFuelOut_advance |].
  intros [] st; try discriminate; destruct (rest st); discriminate.
Qed.

Lemma restLt_consumeCommand : restLt consumeCommand_.
Proof.
  intros st c st' Hrun. unfold consumeCommand_ in Hrun. bind_inv Hrun t st1 E.
  apply restLe_advance in E.
  destruct t; try discriminate;
    (destruct (rest st1) as [| c0 s0] eqn:Er; [discriminate |];
     inversion Hrun; subst; simpl in *; lia).
Qed.

Create HintDb parser discriminated.
#[local] Hint Resolve noFuelOut_ret noFuelOut_throw noFuelOut_gets noFuelOut_modify
  noFuelOut_advance noFuelOut_consumeValue noFuelOut_consumePoint noFuelOut_consumeCommand
  restLe_ret restLe_throw restLt_throw restLe_gets restLe_advance
  restLt_consumeValue restLt_consumePoint restLt_consumeCommand : parser.

(** Splits a goal about a chain of binds into goals about its links. *)
Ltac fuel_tac :=
  repeat first
    [ progress (auto with parser)
    | apply noFuelOut_bind; [| intros ?]
    | match goal with
      | |- noFuelOut (match ?a with _ => _ end) => destruct a
      | |- noFuelOut (if ?a then _ else _) => destruct a
      end ].

Ltac rest_tac :=
  repeat first
    [ progress (auto with parser)
    | apply restLe_modify; intros ?; reflexivity
    | apply restLt_restLe; solve [auto with parser]
    | apply restLe_bind; [| intros ?]
    | match goal with
      | |- restLe (match ?a with _ => _ end) => destruct a
      | |- restLe (if ?a then _ else _) => destruct a
      end ].

Lemma whileValue_noFuelOut {L} (body : L -> @Parser num L) :
  (forall l, noFuelOut (body l)) -> (forall l, restLt (body l)) ->
  forall fuel l st, String.length (rest st) < fuel -> whileValue fuel body l st <> OutOfFuel.
Proof.
  intros Hnf Hlt fuel. induction fuel as [| f IH]; intros l st Hlen; [lia |].
  cbn [whileValue]. unfold bind at 1.
  destruct (advance_total st) as (t & st1 & E). rewrite E.
  pose proof (restLe_advance _ _ _ E) as L1.
  destruct t; try discriminate.
  unfold bind. destruct (body l st1) as [[l' st2] | e |] eqn:Eb.
  - apply Hlt in Eb. apply IH. lia.
  - discriminate.
  - exfalso. exact (Hnf l st1 Eb).
Qed.

Lemma whileValue_restLe {L} (body : L -> @Parser num L) :
  (forall l, restLt (body l)) ->
  forall fuel l, restLe (whileValue fuel body l).
Proof.
  intros Hlt fuel. induction fuel as [| f IH]; intros l st a st' Hrun; [discriminate |].
  cbn [whileValue] in Hrun. bind_inv Hrun t st1 E.
  apply restLe_advance in E.
  destruct t; try (inversion Hrun; subst; lia).
  bind_inv Hrun l' st2 Eb. apply Hlt in Eb. apply IH in Hrun. lia.
Qed.

(** With enough fuel the amount of fuel does not matter. *)
Lemma whileValue_fuel_irrelevant {L} (body : L -> @Parser num L) :
  (forall l, restLt (body l)) ->
  forall fuel1 fuel2 l st,
    String.length (rest st) < fuel1 -> String.length (rest st) < fuel2 ->
    whileValue fuel1 body l st = whileValue fuel2 body l st.
Proof.
  intros Hlt fuel1. induction fuel1 as [| f1 IH]; intros fuel2 l st H1 H2; [lia |].
  destruct fuel2 as [| f2]; [lia |].
  cbn [whileValue]. unfold bind at 1 3.
  destruct (advanceToNextToken_ st) as [[t st1] | e |] eqn:E; try reflexivity.
  apply restLe_advance in E.
  destruct t; try reflexivity.
  unfold bind. destruct (body l st1) as [[l' st2] | e |] eqn:Eb; try reflexivity.
  apply Hlt in Eb. apply IH; lia.
Qed.

Lemma repeatOnValues_noFuelOut {L} (body : L -> @Parser num L) l :
  (forall l, noFuelOut (body l)) -> (forall l, restLt (body l)) ->
  noFuelOut (repeatOnValues body l).
Proof.
  intros Hnf Hlt st. unfold repeatOnValues.
  apply whileValue_noFuelOut; [assumption | assumption | lia].
Qed.

Lemma repeatOnValues_restLe {L} (body : L -> @Parser num L) l :
  (forall l, restLt (body l)) -> restLe (repeatOnValues body l).
Proof.
  intros Hlt st a st' Hrun. unfold repeatOnValues in Hrun.
  eapply whileValue_restLe; eassumption.
Qed.

Lemma moveBody_good relative : goodBody (moveBody relative).
Proof.
  split; intros isFirst; unfold moveBody.
  - fuel_tac.
  - apply restLt_bind_l; [auto with parser | intros ?]. rest_tac.
Qed.

Lemma bezierBody_good relative : goodBody (bezierBody relative).
Proof.
  split; intros []; unfold bezierBody.
  - fuel_tac.
  - apply restLt_bind_l; [auto with parser | intros ?]. rest_tac.
Qed.

Lemma smoothBezierBody_good relative : goodBody (smoothBezierBody relative).
Proof.
  split; intros []; unfold smoothBezierBody.
  - fuel_tac.
  - apply restLt_bind_l; [auto with parser | intros ?]. rest_tac.
Qed.

Lemma quadraticBody_good relative : goodBody (quadraticBody relative).
Proof.
  split; intros []; unfold quadraticBody.
  - fuel_tac.
  - apply restLt_bind_l; [auto with parser | intros ?]. rest_tac.
Qed.

Lemma smoothQuadraticBody_good relative : goodBody (smoothQuadraticBody relative).
Proof.
  split; intros []; unfold smoothQuadraticBody.
  - fuel_tac.
  - apply restLt_bind_l; [auto with parser | intros ?]. rest_tac.
Qed.

Lemma lineBody_good relative : goodBody (lineBody relative).
Proof.
  split; intros []; unfold lineBody.
  - fuel_tac.
  - apply restLt_bind_l; [auto with parser | intros ?]. rest_tac.
Qed.

Lemma horizontalBody_good relative : goodBody (horizontalBody relative).
Proof.
  split; intros []; unfold horizontalBody.
  - fuel_tac.
  - apply restLt_bind_l; [auto with parser | intros ?]. rest_tac.
Qed.

Lemma verticalBody_good relative : goodBody (verticalBody relative).
Proof.
  split; intros []; unfold verticalBody.
  - fuel_tac.
  - apply restLt_bind_r; [auto with parser | intros [p |]]; [| auto with parser].
    apply restLt_bind_l; [auto with parser | intros ?]. rest_tac.
Qed.

Lemma arcBody_good relative : goodBody (arcBody relative).
Proof.
  split; intros []; unfold arcBody.
  - fuel_tac.
  - apply restLt_bind_l; [auto with parser | intros ?]. rest_tac.
Qed.

Lemma requireCurrentPoint_noFuelOut msg : noFuelOut (requireCurrentPoint msg).
Proof. unfold requireCurrentPoint. fuel_tac. Qed.

Lemma requireCurrentPoint_restLe msg : restLe (requireCurrentPoint msg).
Proof. unfold requireCurrentPoint. rest_tac. Qed.

Lemma command_noFuelOut c relative : noFuelOut (command c relative).
Proof.
  unfold command.
  repeat match goal with
         | |- noFuelOut (if ?b then _ else _) => destruct b
         end;
    try (apply noFuelOut_bind; [apply requireCurrentPoint_noFuelOut | intros ?]);
    try (apply repeatOnValues_noFuelOut;
         first [ apply moveBody_good | apply bezierBody_good | apply smoothBezierBody_good
               | apply quadraticBody_good | apply smoothQuadraticBody_good
               | apply lineBody_good | apply horizontalBody_good
               | apply verticalBody_good | apply arcBody_good ]).
  - apply noFuelOut_bind; [apply noFuelOut_gets | intros cur].
    destruct relative, cur; try apply noFuelOut_throw;
      apply repeatOnValues_noFuelOut; apply moveBody_good.
  - fuel_tac.
  - apply noFuelOut_ret.
Qed.

Lemma command_restLe c relative : restLe (command c relative).
Proof.
  unfold command.
  repeat match goal with
         | |- restLe (if ?b then _ else _) => destruct b
         end;
    try (apply restLe_bind; [apply requireCurrentPoint_restLe | intros ?]);
    try (apply repeatOnValues_restLe;
         first [ apply moveBody_good | apply bezierBody_good | apply smoothBezierBody_good
               | apply quadraticBody_good | apply smoothQuadraticBody_good
               | apply lineBody_good | apply horizontalBody_good
               | apply verticalBody_good | apply arcBody_good ]).
  - apply restLe_bind; [apply restLe_gets | intros cur].
    destruct relative, cur; try apply restLe_throw;
      apply repeatOnValues_restLe; apply moveBody_good.
  - rest_tac.
  - apply restLe_ret.
Qed.

Lemma step_noFuelOut : noFuelOut step.
Proof.
  unfold step. apply noFuelOut_bind; [apply noFuelOut_consumeCommand | intros c].
  apply noFuelOut_bind; [apply noFuelOut_gets | intros tok].
  apply command_noFuelOut.
Qed.

Lemma step_restLt : restLt step.
Proof.
  unfold step. apply restLt_bind_l; [apply restLt_consumeCommand | intros c].
  apply restLe_bind; [apply restLe_gets | intros tok].
  apply command_restLe.
Qed.

Lemma mainLoop_noFuelOut fuel st :
  String.length (rest st) < fuel -> mainLoop fuel st <> OutOfFuel.
Proof.
  revert st. induction fuel as [| f IH]; intros st Hlen; [lia |].
  cbn [mainLoop]. destruct (rest st) as [| c s] eqn:Er; [discriminate |].
  unfold bind. destruct (step st) as [[[] st1] | e |] eqn:Es.
  - apply step_restLt in Es. apply IH. rewrite Er in Es. simpl in *. lia.
  - discriminate.
  - exfalso. exact (step_noFuelOut st Es).
Qed.

(** X15: [parseCommands] comes to an end on every path string, with a list
    of commands or an exception: every round of the main loop and of the
    loops over values reads at least one character, so the loops stop
    within the length of the string. *)
Lemma parseCommands_total (pathString : string) :
  parseCommands pathString <> OutOfFuel.
Proof.
  unfold parseCommands.
  pose proof (mainLoop_noFuelOut (S (String.length pathString)) (initial pathString)) as Hm.
  destruct (mainLoop _ _) as [[[] st] | e |]; try discriminate.
  exfalso. apply Hm; [simpl; lia | reflexivity].
Qed.

(** ** The S command without a control point (C5) *)

(** C5, as amended: when an S/s round runs with no current control point,
    the first control point of the cubic it emits is the round's second
    control point [cp2] (not the end point); the round leaves [cp2] as
    current control point and the end point as current point. *)
Theorem smooth_cubic_without_control_point (relative : bool) (st st' : @PState num) :
  currentControlPoint st = None ->
  smoothBezierBody relative tt st = Ok (tt, st') ->
  exists cp2 end_,
    commands st' = (commands st ++ [BezierCurveCommand (currentPoint st) cp2 cp2 end_])%list
    /\ currentControlPoint st' = Some cp2
    /\ currentPoint st' = Some end_.
Proof.
  intros Hctl Hrun. unfold smoothBezierBody in Hrun.
  bind_inv Hrun cp2 st1 E1. bind_inv Hrun end_ st2 E2.
  apply consumePoint_spec in E1. apply consumePoint_spec in E2.
  destruct E1 as (_ & S1), E2 as (_ & S2).
  pose proof (sameVars_trans _ _ _ S1 S2) as (Hcur & Hcmds & Hc & _).
  unfold bind, gets, modify, ret in Hrun. rewrite Hc, Hctl in Hrun.
  inversion Hrun; subst; clear Hrun. simpl.
  exists cp2, end_. rewrite Hcur, Hcmds. repeat split.
Qed.

(** ** The first M/m command (C7) *)

Lemma nextToken_head s t c r :
  nextToken s = (t, String c r) ->
  t = if isLower c then RelativeCommand
      else if isUpper c then AbsoluteCommand else Value.
Proof.
  induction s as [| c0 s IH]; intros Hn; simpl in Hn; [discriminate |].
  destruct (isLower c0) eqn:El; [inversion Hn; subst; rewrite El; reflexivity |].
  destruct (isUpper c0) eqn:Eu; [inversion Hn; subst; rewrite El, Eu; reflexivity |].
  destruct (isValueStart c0) eqn:Ev; [inversion Hn; subst; rewrite El, Eu; reflexivity |].
  apply IH; assumption.
Qed.

(** The guard that C7, as stated, runs into: a lower-case m with no current
    point throws. *)
Lemma relative_move_needs_current_point (st : @PState num) :
  currentPoint st = None ->
  command "m" true st = Throw (Error "Current point must be set for a relative command").
Proof.
  intros Hcur. unfold command. simpl. unfold bind, gets. rewrite Hcur. reflexivity.
Qed.

(** ** Z/z and the control point (C8) *)

(** X16: a Z/z that runs appends a Close from the current point to the
    target of the latest Move and changes neither the current point nor the
    current control point. *)
Lemma close_keeps_control_point (c : ascii) (relative : bool) (st st' : @PState num) :
  isChar c "Z" "z" = true ->
  command c relative st = Ok (tt, st') ->
  currentControlPoint st' = currentControlPoint st
  /\ currentPoint st' = currentPoint st
  /\ commands st' = (commands st ++ [ClosePathCommand (currentPoint st) (lastMovePoint st)])%list.
Proof.
  intros Hc Hrun. unfold isChar in Hc. apply orb_true_iff in Hc.
  destruct Hc as [Hc | Hc]; apply Ascii.eqb_eq in Hc; subst c;
    unfold command in Hrun; simpl in Hrun;
    unfold bind, requireCurrentPoint, bind, gets, modify, ret, throw in Hrun;
    destruct (currentPoint st) eqn:Ecur; try discriminate;
    inversion Hrun; subst; simpl; rewrite ?Ecur; repeat split.
Qed.

(** X17: the commands that clear the slot: after a round of M, L, H, V or
    A the current control point is null. *)
Lemma line_like_rounds_clear_control_point (relative : bool) (st st' : @PState num) b :
  moveBody relative b st = Ok (false, st')
  \/ lineBody relative tt st = Ok (tt, st')
  \/ horizontalBody relative tt st = Ok (tt, st')
  \/ verticalBody relative tt st = Ok (tt, st')
  \/ arcBody relative tt st = Ok (tt, st') ->
  currentControlPoint st' = None.
Proof.
  intros [Hrun | [Hrun | [Hrun | [Hrun | Hrun]]]].
  - unfold moveBody in Hrun. bind_inv Hrun p st1 E.
    unfold bind, gets, modify, ret in Hrun.
    destruct b; inversion Hrun; reflexivity.
  - unfold lineBody in Hrun. bind_inv Hrun p st1 E.
    unfold bind, gets, modify, ret in Hrun. inversion Hrun; reflexivity.
  - unfold horizontalBody in Hrun. bind_inv Hrun x0 st1 E.
    unfold bind, gets, modify, ret, throw in Hrun.
    destruct (currentPoint st1); inversion Hrun; reflexivity.
  - unfold verticalBody in Hrun. unfold bind at 1 in Hrun. unfold gets at 1 in Hrun.
    destruct (currentPoint st) eqn:Ecur; [| discriminate].
    bind_inv Hrun y0 st1 E.
    unfold bind, gets, modify, ret in Hrun. inversion Hrun; reflexivity.
  - unfold arcBody in Hrun.
    bind_inv Hrun rx st1 E1. bind_inv Hrun ry st2 E2. bind_inv Hrun rot st3 E3.
    bind_inv Hrun la st4 E4. bind_inv Hrun sw st5 E5. bind_inv Hrun p st6 E6.
    unfold bind, gets, modify, ret, throw in Hrun.
    destruct (currentPoint st6); inversion Hrun; reflexivity.
Qed.

(** ** Separators (C9) *)

(** A character that is neither a command letter nor the start of a value. *)
Lemma nextToken_skips_separators (seps s : string) :
  (forall c, In c (list_ascii_of_string seps) ->
             isLower c = false /\ isUpper c = false /\ isValueStart c = false) ->
  nextToken (seps ++ s) = nextToken s.
Proof.
  induction seps as [| c seps IH]; intros Hsep; [reflexivity |].
  simpl. destruct (Hsep c) as (-> & -> & ->); [left; reflexivity |].
  apply IH. intros c' Hin. apply Hsep. right. exact Hin.
Qed.

(** C9, at the failing input: the path "M0,0z" parses, and the same path
    followed by one space throws "Expected command": after a final z the
    main loop asks for a command, skips the space and finds the end of the
    string. *)
Theorem trailing_separator_after_close :
  parseCommands "M0,0z"
  = Ok [MoveCommand None (mkPoint (parseFloat "0") (parseFloat "0"));
        ClosePathCommand (Some (mkPoint (parseFloat "0") (parseFloat "0")))
                         (Some (mkPoint (parseFloat "0") (parseFloat "0")))]
  /\ parseCommands (num:=num) "M0,0z " = Throw (Error "Expected command").
Proof. split; reflexivity. Qed.

(** The separators that follow a run of values are harmless: the loop over
    the values skips them on its way to the next token. *)
Lemma trailing_separator_after_values :
  parseCommands "M0,0L1,1 "
  = parseCommands (num:=num) "M0,0L1,1".
Proof. reflexivity. Qed.

(** ** The format of commandsToString (C6) *)

(** What [commandsToString] appends for each kind of command: the letter,
    then for a Close nothing, for an arc one element holding its seven
    parameters as they are, and for the other kinds the coordinates of
    every point after the start, each printed as
    [Number(n.toFixed(3)).toString()]. *)
Lemma commandTokens_by_kind (s : option (@Point num)) (c c1 c2 e : Point)
    (s' e' : option Point) (x0 y0 rx ry rot large sweep x1 y1 : num) :
  let r := fun n => EltString (toString (Number (toFixed n 3))) in
  commandTokens (MoveCommand s e) = Ok [EltString "M"; r (x e); r (y e)]
  /\ commandTokens (LineCommand s e) = Ok [EltString "L"; r (x e); r (y e)]
  /\ commandTokens (QuadraticCurveCommand s c e)
     = Ok [EltString "Q"; r (x c); r (y c); r (x e); r (y e)]
  /\ commandTokens (BezierCurveCommand s c1 c2 e)
     = Ok [EltString "C"; r (x c1); r (y c1); r (x c2); r (y c2); r (x e); r (y e)]
  /\ commandTokens (ClosePathCommand s' e') = Ok [EltString "Z"]
  /\ commandTokens (EllipticalArcCommand x0 y0 rx ry rot large sweep x1 y1)
     = Ok [EltString "A"; EltNumbers [rx; ry; rot; large; sweep; x1; y1]]
  /\ eltToString (EltNumbers [rx; ry; rot; large; sweep; x1; y1])
     = joinStrings "," [toString rx; toString ry; toString rot; toString large;
                        toString sweep; toString x1; toString y1].
Proof. repeat split. Qed.

(** ** Printing and reading back *)

Lemma append_cons (ch : ascii) (a b : string) : String ch a ++ b = String ch (a ++ b).
Proof. reflexivity. Qed.

Lemma append_nil_r (s : string) : s ++ "" = s.
Proof.
  induction s as [| c s IH]; [reflexivity |]. rewrite append_cons, IH. reflexivity.
Qed.

Lemma append_assoc (a b c : string) : (a ++ b) ++ c = a ++ (b ++ c).
Proof.
  induction a as [| ch a IH]; [reflexivity |]. rewrite !append_cons, IH. reflexivity.
Qed.

Lemma length_append (a b : string) :
  String.length (a ++ b) = String.length a + String.length b.
Proof.
  induction a as [| ch a IH]; [reflexivity |]. rewrite append_cons. simpl.
  rewrite IH. reflexivity.
Qed.

Lemma spaced_app (l1 l2 : list string) (r : string) :
  spaced (l1 ++ l2) r = spaced l1 (spaced l2 r).
Proof. unfold spaced. apply fold_right_app. Qed.

Lemma joinStrings_spaced (l : list string) :
  l <> [] -> String " " (joinStrings " " l) = spaced l "".
Proof.
  induction l as [| s l IH]; intros Hne; [congruence |].
  destruct l as [| s' l].
  - simpl. rewrite append_nil_r. reflexivity.
  - change (joinStrings " " (s :: s' :: l)) with (s ++ " " ++ joinStrings " " (s' :: l)).
    change (spaced (s :: s' :: l) "") with (String " " (s ++ spaced (s' :: l) "")).
    rewrite <- IH by discriminate. reflexivity.
Qed.

Lemma commandTokens_printed (cmd : @DrawCommand num) (r : string) :
  exists ts,
    commandTokens cmd = Ok ts /\ ts <> []
    /\ spaced (map eltToString ts) r = String " " (svgChar cmd ++ glue (argPairs cmd) r).
Proof.
  destruct cmd; eexists; (split; [reflexivity |]); (split; [discriminate |]);
    try reflexivity.
  simpl. repeat (rewrite append_assoc || rewrite append_cons). reflexivity.
Qed.

Lemma allTokens_printed (cmds : list (@DrawCommand num)) :
  exists ts,
    allTokens cmds = Ok ts
    /\ spaced (map eltToString ts) "" = printed cmds
    /\ (cmds <> [] -> ts <> []) /\ (cmds = [] -> ts = []).
Proof.
  induction cmds as [| cmd cmds IH].
  - exists []. repeat split; congruence.
  - destruct IH as (ts' & E' & Hp & _).
    destruct (commandTokens_printed cmd (printed cmds)) as (ts & E & Hne & Hs).
    exists (ts ++ ts')%list. cbn [allTokens]. rewrite E, E'.
    split; [reflexivity |]. split; [| split; [| discriminate]].
    + rewrite map_app, spaced_app, Hp. exact Hs.
    + intros _ Happ. apply app_eq_nil in Happ. tauto.
Qed.

(** The output of [commandsToString] is [printed] without its first space. *)
Lemma commandsToString_printed (cmds : list (@DrawCommand num)) :
  exists s,
    commandsToString cmds = Ok s
    /\ match cmds with
       | [] => s = ""
       | _ => String " " s = printed cmds
       end.
Proof.
  destruct (allTokens_printed cmds) as (ts & E & Hp & Hne & Hnil).
  unfold commandsToString. rewrite E. eexists. split; [reflexivity |].
  destruct cmds as [| cmd cmds].
  - rewrite Hnil by reflexivity. reflexivity.
  - rewrite <- Hp. apply joinStrings_spaced.
    intros Hm. apply map_eq_nil in Hm. apply Hne; [discriminate | exact Hm].
Qed.

(** *** Reading printed tokens *)

Lemma valueStart_not_letter (c : ascii) :
  isValueStart c = true -> isLower c = false /\ isUpper c = false.
Proof.
  destruct c as [[] [] [] [] [] [] [] []]; vm_compute; intros E;
    first [discriminate E | split; reflexivity].
Qed.

Lemma endsValue_breaks (c : ascii) (start seenDot : bool) :
  endsValue c = true ->
  negb (isDigitChar c) && (negb (c =? ".")%char || seenDot)
  && (negb (c =? "-")%char || negb start) && negb (c =? "e")%char = true.
Proof.
  unfold endsValue. intros E.
  destruct (isDigitChar c), (c =? ".")%char, (c =? "-")%char, (c =? "e")%char;
    try discriminate E; reflexivity.
Qed.

Lemma scanValue_split start seenDot s t r :
  scanValue start seenDot s = (t, r) -> s = t ++ r.
Proof.
  revert start seenDot t r. induction s as [| c s IH]; intros start seenDot t r E;
    cbn [scanValue] in E.
  - inversion E; reflexivity.
  - match type of E with (if ?b then _ else _) = _ => destruct b end.
    + inversion E; reflexivity.
    + destruct (scanValue _ _ s) as [t0 r0] eqn:Es. inversion E; subst.
      rewrite append_cons. f_equal. eapply IH; exact Es.
Qed.

Lemma scanValue_app start seenDot s r :
  scanValue start seenDot s = (s, "") -> terminated r = true ->
  scanValue start seenDot (s ++ r) = (s, r).
Proof.
  revert start seenDot. induction s as [| c s IH]; intros start seenDot E Hr.
  - change ("" ++ r) with r. destruct r as [| c r]; [reflexivity |].
    cbn [scanValue]. simpl in Hr. rewrite endsValue_breaks by exact Hr. reflexivity.
  - rewrite append_cons. cbn [scanValue] in *.
    match type of E with (if ?b then _ else _) = _ => destruct b end; [discriminate E |].
    destruct (scanValue _ _ s) as [t0 r0] eqn:Es. inversion E; subst t0 r0.
    rewrite (IH _ _ Es Hr). reflexivity.
Qed.

Lemma plainToken_inv (t : string) :
  plainToken t = true ->
  exists c t', t = String c t' /\ isValueStart c = true
               /\ scanValue true false t = (t, "").
Proof.
  destruct t as [| c t']; [discriminate |]. unfold plainToken. intros E.
  apply andb_true_iff in E. destruct E as (Hv & Hs). apply String.eqb_eq in Hs.
  exists c, t'. split; [reflexivity |]. split; [exact Hv |].
  destruct (scanValue true false (String c t')) as [t0 r0] eqn:Es. simpl in Hs. subst r0.
  apply scanValue_split in Es. rewrite append_nil_r in Es. subst t0. reflexivity.
Qed.

Lemma nextToken_plain (t rem : string) :
  plainToken t = true -> nextToken (t ++ rem) = (Value, t ++ rem).
Proof.
  intros Hp. destruct (plainToken_inv t Hp) as (c & t' & -> & Hv & _).
  rewrite append_cons. cbn [nextToken].
  destruct (valueStart_not_letter c Hv) as (-> & ->). rewrite Hv. reflexivity.
Qed.

Lemma nextToken_sep (c : ascii) (s : string) :
  isSep c = true -> nextToken (String c s) = nextToken s.
Proof.
  unfold isSep. intros E. apply orb_true_iff in E.
  destruct E as [E | E]; apply Ascii.eqb_eq in E; subst c; reflexivity.
Qed.

Lemma isSep_endsValue (c : ascii) : isSep c = true -> endsValue c = true.
Proof.
  unfold isSep. intros E. apply orb_true_iff in E.
  destruct E as [E | E]; apply Ascii.eqb_eq in E; subst c; reflexivity.
Qed.

Lemma terminated_glue l r :
  sepsOk l = true -> terminated r = true -> terminated (glue l r) = true.
Proof.
  destruct l as [| [c t] l]; intros Hl Hr; [exact Hr |].
  simpl in *. apply andb_true_iff in Hl. destruct Hl as (Hc & _).
  apply andb_true_iff in Hc. apply isSep_endsValue. tauto.
Qed.

Lemma nextToken_glue c t l r :
  sepsOk ((c, t) :: l) = true -> nextToken (glue ((c, t) :: l) r) = (Value, t ++ glue l r).
Proof.
  intros Hl. simpl in Hl. apply andb_true_iff in Hl. destruct Hl as (Hc & _).
  apply andb_true_iff in Hc. destruct Hc as (Hc & Ht).
  cbn [glue fold_right fst snd]. rewrite nextToken_sep by exact Hc.
  apply nextToken_plain. exact Ht.
Qed.

(** Reading one printed value. *)
Lemma consumeValue_at (st : @PState num) (t rem : string) :
  plainToken t = true -> terminated rem = true ->
  nextToken (rest st) = (Value, t ++ rem) ->
  exists st',
    consumeValue_ st = Ok (parseFloat t, st') /\ rest st' = rem /\ sameVars st st'.
Proof.
  intros Hp Hr Hn. destruct (plainToken_inv t Hp) as (c & t' & Et & _ & Hs).
  unfold consumeValue_, bind, advanceToNextToken_. rewrite Hn. cbn [rest setRest setCurrentToken].
  rewrite (scanValue_app _ _ _ _ Hs Hr). clear Hs Hn Hp. subst t.
  eexists. split; [reflexivity |]. split; [reflexivity |]. repeat split.
Qed.

(** Reading two printed values as an absolute point. *)
Lemma consumePoint_at (st : @PState num) t1 c2 t2 l r :
  plainToken t1 = true -> sepsOk ((c2, t2) :: l) = true -> terminated r = true ->
  nextToken (rest st) = (Value, t1 ++ glue ((c2, t2) :: l) r) ->
  exists st',
    consumePoint_ false st = Ok (mkPoint (parseFloat t1) (parseFloat t2), st')
    /\ rest st' = glue l r /\ sameVars st st'.
Proof.
  intros Hp1 Hl Hr Hn.
  assert (sepsOk l = true /\ plainToken t2 = true) as (Hl' & Hp2).
  { simpl in Hl. apply andb_true_iff in Hl. destruct Hl as (Hc & Hl').
    apply andb_true_iff in Hc. tauto. }
  destruct (consumeValue_at st t1 _ Hp1 (terminated_glue _ _ Hl Hr) Hn)
    as (st1 & E1 & R1 & S1).
  assert (Hn2 : nextToken (rest st1) = (Value, t2 ++ glue l r))
    by (rewrite R1; apply nextToken_glue; exact Hl).
  destruct (consumeValue_at st1 t2 _ Hp2 (terminated_glue _ _ Hl' Hr) Hn2)
    as (st2 & E2 & R2 & S2).
  exists st2. unfold consumePoint_, bind. rewrite E1, E2.
  split; [reflexivity |]. split; [exact R2 | eapply sameVars_trans; eassumption].
Qed.

(** One turn of a loop over values. *)
Lemma repeatOnValues_unfold {L} (body : L -> @Parser num L) (l : L) (st : PState) :
  (forall l, restLt (body l)) ->
  repeatOnValues body l st
  = match advanceToNextToken_ st with
    | Ok (Value, st1) =>
        match body l st1 with
        | Ok (l', st2) => repeatOnValues body l' st2
        | Throw e => Throw e
        | OutOfFuel => OutOfFuel
        end
    | Ok (_, st1) => Ok (tt, st1)
    | Throw e => Throw e
    | OutOfFuel => OutOfFuel
    end.
Proof.
  intros Hlt. unfold repeatOnValues at 1. cbn [whileValue]. unfold bind.
  destruct (advanceToNextToken_ st) as [[t st1] | e |] eqn:E; try reflexivity.
  apply restLe_advance in E.
  destruct t; try reflexivity.
  destruct (body l st1) as [[l' st2] | e |] eqn:Eb; try reflexivity.
  apply Hlt in Eb. unfold repeatOnValues.
  apply whileValue_fuel_irrelevant; [exact Hlt | lia | lia].
Qed.

(** A loop over values whose body runs once and then meets a token that is
    not a value. *)
Lemma repeatOnValues_once {L} (body : L -> @Parser num L) (l l' : L) (st st2 : PState)
    (s : string) :
  (forall l, restLt (body l)) ->
  nextToken (rest st) = (Value, s) ->
  body l (setCurrentToken Value (setRest s st)) = Ok (l', st2) ->
  fst (nextToken (rest st2)) <> Value ->
  exists st',
    repeatOnValues body l st = Ok (tt, st')
    /\ rest st' = snd (nextToken (rest st2)) /\ sameVars st2 st'.
Proof.
  intros Hlt Hn Hb Hend.
  rewrite (repeatOnValues_unfold body l st Hlt). unfold advanceToNextToken_ at 1.
  rewrite Hn, Hb. rewrite (repeatOnValues_unfold body l' st2 Hlt).
  unfold advanceToNextToken_. destruct (nextToken (rest st2)) as [t r] eqn:E.
  simpl in Hend. destruct t; try contradiction;
    (eexists; split; [reflexivity |]; split; [reflexivity | repeat split]).
Qed.

(** *** The rounds of the loops on printed arguments *)

Lemma sepsOk_cons c t l :
  sepsOk ((c, t) :: l) = true ->
  isSep c = true /\ plainToken t = true /\ sepsOk l = true.
Proof.
  simpl. intros E. apply andb_true_iff in E. destruct E as (E1 & E2).
  apply andb_true_iff in E1. tauto.
Qed.

Lemma consumeValue_glue (st : @PState num) c t l r :
  sepsOk ((c, t) :: l) = true -> terminated r = true ->
  rest st = glue ((c, t) :: l) r ->
  exists st',
    consumeValue_ st = Ok (parseFloat t, st') /\ rest st' = glue l r /\ sameVars st st'.
Proof.
  intros Hl Hr Hrest. destruct (sepsOk_cons _ _ _ Hl) as (_ & Hp & Hl').
  apply consumeValue_at; [exact Hp | apply terminated_glue; assumption |].
  rewrite Hrest. apply nextToken_glue. exact Hl.
Qed.

Lemma consumePoint_glue (st : @PState num) c1 t1 c2 t2 l r :
  sepsOk ((c1, t1) :: (c2, t2) :: l) = true -> terminated r = true ->
  rest st = glue ((c1, t1) :: (c2, t2) :: l) r ->
  exists st',
    consumePoint_ false st = Ok (mkPoint (parseFloat t1) (parseFloat t2), st')
    /\ rest st' = glue l r /\ sameVars st st'.
Proof.
  intros Hl Hr Hrest. destruct (sepsOk_cons _ _ _ Hl) as (_ & Hp & Hl').
  apply (consumePoint_at st t1 c2 t2 l r); [exact Hp | exact Hl' | exact Hr |].
  rewrite Hrest. apply nextToken_glue. exact Hl.
Qed.

(** A loop over values on the printed arguments of one command: the body
    runs once, on the arguments, and the loop stops at what follows them. *)
Lemma loop_printed {L} (body : L -> @Parser num L) (l : L) (st : PState)
    c1 t1 (args : list (ascii * string)) (R : string) (Q : PState -> Prop) :
  (forall l, restLt (body l)) ->
  sepsOk ((c1, t1) :: args) = true ->
  fst (nextToken R) <> Value ->
  rest st = glue ((c1, t1) :: args) R ->
  (forall st2 st', Q st2 -> sameVars st2 st' -> Q st') ->
  (forall st1, nextToken (rest st1) = (Value, t1 ++ glue args R) -> sameVars st st1 ->
               exists l' st2, body l st1 = Ok (l', st2) /\ rest st2 = R /\ Q st2) ->
  exists st',
    repeatOnValues body l st = Ok (tt, st') /\ rest st' = snd (nextToken R) /\ Q st'.
Proof.
  intros Hlt Hl Hend Hrest HQ Hbody.
  assert (Hn : nextToken (rest st) = (Value, t1 ++ glue args R))
    by (rewrite Hrest; apply nextToken_glue; exact Hl).
  destruct (sepsOk_cons _ _ _ Hl) as (_ & Hp & _).
  destruct (Hbody (setCurrentToken Value (setRest (t1 ++ glue args R) st)))
    as (l' & st2 & Eb & R2 & Q2).
  { cbn [rest setCurrentToken setRest]. apply nextToken_plain. exact Hp. }
  { repeat split. }
  destruct (repeatOnValues_once body l l' st st2 _ Hlt Hn Eb) as (st' & E & R' & S').
  { rewrite R2. exact Hend. }
  exists st'. split; [exact E |]. split; [rewrite R', R2; reflexivity |].
  eapply HQ; eassumption.
Qed.

Lemma leaves_sameVars (st : @PState num) c cur' lmp' st2 st' :
  leaves st c cur' lmp' st2 -> sameVars st2 st' -> leaves st c cur' lmp' st'.
Proof.
  intros (a & b & d) (a' & b' & _ & d'). unfold leaves. repeat split; congruence.
Qed.

Lemma command_cases (relative : bool) :
  command "M" false = bind (gets (@currentPoint num))
                           (fun _ => repeatOnValues (moveBody false) true)
  /\ command "L" relative = bind (requireCurrentPoint "Current point does not exist")
                                 (fun _ => repeatOnValues (lineBody relative) tt)
  /\ command "Q" relative = bind (requireCurrentPoint "Current point does not exist")
                                 (fun _ => repeatOnValues (quadraticBody relative) tt)
  /\ command "C" relative = bind (requireCurrentPoint "Current point does not exist")
                                 (fun _ => repeatOnValues (bezierBody relative) tt)
  /\ command "A" relative = bind (requireCurrentPoint "Current point does not exist")
                                 (fun _ => repeatOnValues (arcBody relative) tt)
  /\ command "Z" relative
     = bind (requireCurrentPoint "Current point does not exist")
            (fun _ => bind (gets (@currentPoint num))
                        (fun cur => bind (gets (@lastMovePoint num))
                                      (fun lmp => modify (push (ClosePathCommand cur lmp))))).
Proof. repeat split. Qed.

Lemma plainCommand_sepsOk (cmd : @DrawCommand num) :
  plainCommand cmd = true -> sepsOk (argPairs cmd) = true.
Proof.
  unfold plainCommand, sepsOk. intros Hp.
  assert (Hs : forallb (fun ct => isSep (fst ct)) (argPairs cmd) = true)
    by (destruct cmd; reflexivity).
  revert Hp Hs. induction (argPairs cmd) as [| ct l IH]; [reflexivity |].
  simpl. intros Hp Hs. apply andb_true_iff in Hp, Hs.
  destruct Hp as (-> & Hp), Hs as (-> & Hs). simpl. apply IH; assumption.
Qed.

(** The bodies on their printed arguments. *)
Lemma moveBody_at (st1 : @PState num) (isFirst : bool) t1 c2 t2 R :
  plainToken t1 = true -> sepsOk [(c2, t2)] = true -> terminated R = true ->
  nextToken (rest st1) = (Value, t1 ++ glue [(c2, t2)] R) ->
  let p := mkPoint (parseFloat t1) (parseFloat t2) in
  exists st2,
    moveBody false isFirst st1 = Ok (false, st2) /\ rest st2 = R
    /\ leaves st1 (if isFirst then MoveCommand (currentPoint st1) p
                   else LineCommand (currentPoint st1) p)
              (Some p) (if isFirst then Some p else lastMovePoint st1) st2.
Proof.
  intros Hp Hl Hr Hn p.
  destruct (consumePoint_at st1 t1 c2 t2 [] R Hp Hl Hr Hn) as (st' & E & Rr & Hc & Hm & _ & Hlm).
  unfold moveBody, bind. rewrite E. unfold gets, modify, ret.
  destruct isFirst; (eexists; split; [reflexivity |]; split; [exact Rr |]);
    unfold leaves; cbn; rewrite Hc, Hm, ?Hlm; repeat split.
Qed.

Lemma lineBody_at (st1 : @PState num) t1 c2 t2 R :
  plainToken t1 = true -> sepsOk [(c2, t2)] = true -> terminated R = true ->
  nextToken (rest st1) = (Value, t1 ++ glue [(c2, t2)] R) ->
  let p := mkPoint (parseFloat t1) (parseFloat t2) in
  exists st2,
    lineBody false tt st1 = Ok (tt, st2) /\ rest st2 = R
    /\ leaves st1 (LineCommand (currentPoint st1) p) (Some p) (lastMovePoint st1) st2.
Proof.
  intros Hp Hl Hr Hn p.
  destruct (consumePoint_at st1 t1 c2 t2 [] R Hp Hl Hr Hn) as (st' & E & Rr & Hc & Hm & _ & Hlm).
  unfold lineBody, bind. rewrite E. unfold gets, modify.
  eexists; split; [reflexivity |]; split; [exact Rr |].
  unfold leaves; cbn; rewrite Hc, Hm, Hlm; repeat split.
Qed.

Lemma quadraticBody_at (st1 : @PState num) t1 c2 t2 c3 t3 c4 t4 R :
  plainToken t1 = true -> sepsOk [(c2, t2); (c3, t3); (c4, t4)] = true ->
  terminated R = true ->
  nextToken (rest st1) = (Value, t1 ++ glue [(c2, t2); (c3, t3); (c4, t4)] R) ->
  let cp := mkPoint (parseFloat t1) (parseFloat t2) in
  let p := mkPoint (parseFloat t3) (parseFloat t4) in
  exists st2,
    quadraticBody false tt st1 = Ok (tt, st2) /\ rest st2 = R
    /\ leaves st1 (QuadraticCurveCommand (currentPoint st1) cp p)
              (Some p) (lastMovePoint st1) st2.
Proof.
  intros Hp Hl Hr Hn cp p. pose proof (sepsOk_cons _ _ _ Hl) as (_ & _ & Hl2).
  destruct (consumePoint_at st1 t1 c2 t2 _ R Hp Hl Hr Hn)
    as (sa & Ea & Ra & Hca & Hma & _ & Hla).
  destruct (consumePoint_glue sa c3 t3 c4 t4 [] R Hl2 Hr Ra)
    as (sb & Eb & Rb & Hcb & Hmb & _ & Hlb).
  unfold quadraticBody, bind. rewrite Ea, Eb. unfold gets, modify.
  eexists; split; [reflexivity |]; split; [exact Rb |].
  unfold leaves; cbn; rewrite Hcb, Hmb, Hlb, Hca, Hma, Hla; repeat split.
Qed.

Lemma bezierBody_at (st1 : @PState num) t1 c2 t2 c3 t3 c4 t4 c5 t5 c6 t6 R :
  plainToken t1 = true ->
  sepsOk [(c2, t2); (c3, t3); (c4, t4); (c5, t5); (c6, t6)] = true ->
  terminated R = true ->
  nextToken (rest st1)
  = (Value, t1 ++ glue [(c2, t2); (c3, t3); (c4, t4); (c5, t5); (c6, t6)] R) ->
  let cp1 := mkPoint (parseFloat t1) (parseFloat t2) in
  let cp2 := mkPoint (parseFloat t3) (parseFloat t4) in
  let p := mkPoint (parseFloat t5) (parseFloat t6) in
  exists st2,
    bezierBody false tt st1 = Ok (tt, st2) /\ rest st2 = R
    /\ leaves st1 (BezierCurveCommand (currentPoint st1) cp1 cp2 p)
              (Some p) (lastMovePoint st1) st2.
Proof.
  intros Hp Hl Hr Hn cp1 cp2 p.
  pose proof (sepsOk_cons _ _ _ Hl) as (_ & _ & Hl2).
  pose proof (sepsOk_cons _ _ _ Hl2) as (_ & _ & Hl3).
  pose proof (sepsOk_cons _ _ _ Hl3) as (_ & _ & Hl4).
  destruct (consumePoint_at st1 t1 c2 t2 _ R Hp Hl Hr Hn)
    as (sa & Ea & Ra & Hca & Hma & _ & Hla).
  destruct (consumePoint_glue sa c3 t3 c4 t4 _ R Hl2 Hr Ra)
    as (sb & Eb & Rb & Hcb & Hmb & _ & Hlb).
  destruct (consumePoint_glue sb c5 t5 c6 t6 [] R Hl4 Hr Rb)
    as (sc & Ec & Rc & Hcc & Hmc & _ & Hlc).
  unfold bezierBody, bind. rewrite Ea, Eb, Ec. unfold gets, modify.
  eexists; split; [reflexivity |]; split; [exact Rc |].
  unfold leaves; cbn; rewrite Hcc, Hmc, Hlc, Hcb, Hmb, Hlb, Hca, Hma, Hla; repeat split.
Qed.

Lemma arcBody_at (st1 : @PState num) (cur : Point) t1 c2 t2 c3 t3 c4 t4 c5 t5 c6 t6 c7 t7 R :
  currentPoint st1 = Some cur ->
  plainToken t1 = true ->
  sepsOk [(c2, t2); (c3, t3); (c4, t4); (c5, t5); (c6, t6); (c7, t7)] = true ->
  terminated R = true ->
  nextToken (rest st1)
  = (Value, t1 ++ glue [(c2, t2); (c3, t3); (c4, t4); (c5, t5); (c6, t6); (c7, t7)] R) ->
  let p := mkPoint (parseFloat t6) (parseFloat t7) in
  exists st2,
    arcBody false tt st1 = Ok (tt, st2) /\ rest st2 = R
    /\ leaves st1 (EllipticalArcCommand (x cur) (y cur) (parseFloat t1) (parseFloat t2)
                     (parseFloat t3) (parseFloat t4) (parseFloat t5)
                     (parseFloat t6) (parseFloat t7))
              (Some p) (lastMovePoint st1) st2.
Proof.
  intros Hcur Hp Hl Hr Hn p.
  pose proof (sepsOk_cons _ _ _ Hl) as (_ & _ & Hl2).
  pose proof (sepsOk_cons _ _ _ Hl2) as (_ & _ & Hl3).
  pose proof (sepsOk_cons _ _ _ Hl3) as (_ & _ & Hl4).
  destruct (consumeValue_at st1 t1 _ Hp (terminated_glue _ _ Hl Hr) Hn)
    as (s1 & E1 & R1 & Hc1 & Hm1 & _ & Hlm1).
  destruct (consumeValue_glue s1 c2 t2 _ R Hl Hr R1) as (s2 & E2 & R2 & Hc2 & Hm2 & _ & Hlm2).
  destruct (consumeValue_glue s2 c3 t3 _ R Hl2 Hr R2) as (s3 & E3 & R3 & Hc3 & Hm3 & _ & Hlm3).
  destruct (consumeValue_glue s3 c4 t4 _ R Hl3 Hr R3) as (s4 & E4 & R4 & Hc4 & Hm4 & _ & Hlm4).
  destruct (consumeValue_glue s4 c5 t5 _ R Hl4 Hr R4) as (s5 & E5 & R5 & Hc5 & Hm5 & _ & Hlm5).
  pose proof (sepsOk_cons _ _ _ Hl4) as (_ & _ & Hl5).
  destruct (consumePoint_glue s5 c6 t6 c7 t7 [] R Hl5 Hr R5)
    as (s6 & E6 & R6 & Hc6 & Hm6 & _ & Hlm6).
  assert (Hcur6 : currentPoint s6 = Some cur) by congruence.
  unfold arcBody, bind. rewrite E1, E2, E3, E4, E5, E6. unfold gets, modify.
  rewrite Hcur6.
  eexists; split; [reflexivity |]; split; [exact R6 |].
  unfold leaves; cbn. repeat split; congruence.
Qed.

(** One printed command through the [switch] of the parser. *)
Lemma command_printed (cmd : @DrawCommand num) (st : PState) (R : string) :
  plainCommand cmd = true -> terminated R = true -> fst (nextToken R) <> Value ->
  rest st = glue (argPairs cmd) R ->
  match replayOne (currentPoint st) (lastMovePoint st) cmd with
  | Some (c, cur', lmp') =>
      exists st',
        command (letter cmd) false st = Ok (tt, st')
        /\ leaves st c cur' lmp' st'
        /\ (rest st' = R \/ rest st' = snd (nextToken R))
  | None => command (letter cmd) false st = Throw (Error "Current point does not exist")
  end.
Proof.
  intros Hplain Hr Hend Hrest.
  pose proof (plainCommand_sepsOk cmd Hplain) as Hl.
  pose proof (command_cases false) as (EM & EL & EQ & EC & EA & EZ).
  destruct cmd as [s e | s e | s c e | s c1 c2 e | x0 y0 rx ry rot la sw x1 y1 | s e];
    cbn [letter svgChar argPairs] in *.
  - (* M *)
    cbn [replayOne]. rewrite EM. unfold bind at 1, gets at 1.
    pose proof (sepsOk_cons _ _ _ Hl) as (_ & Hp1 & Hl1).
    destruct (loop_printed (moveBody false) true st _ _ _ R
                (leaves st (MoveCommand (currentPoint st) (reread e))
                        (Some (reread e)) (Some (reread e)))
                (proj2 (moveBody_good false)) Hl Hend Hrest) as (st' & E & Rr & Hq).
    { intros st2 st' Hq Hs. eapply leaves_sameVars; eassumption. }
    { intros st1 Hn (Hc & Hm & _ & Hlm).
      destruct (moveBody_at st1 true _ _ _ R Hp1 Hl1 Hr Hn) as (st2 & E & Rr & Hq).
      exists false, st2. split; [exact E |]. split; [exact Rr |].
      unfold leaves in *. rewrite Hc, Hm in Hq. exact Hq. }
    exists st'. split; [exact E |]. split; [exact Hq | right; exact Rr].
  - (* L *)
    rewrite EL. unfold bind at 1, requireCurrentPoint, bind, gets.
    destruct (currentPoint st) as [cur |] eqn:Ecur; cbn [replayOne]; [| reflexivity].
    unfold ret.
    pose proof (sepsOk_cons _ _ _ Hl) as (_ & Hp1 & Hl1).
    destruct (loop_printed (lineBody false) tt st _ _ _ R
                (leaves st (LineCommand (Some cur) (reread e)) (Some (reread e))
                        (lastMovePoint st))
                (proj2 (lineBody_good false)) Hl Hend Hrest) as (st' & E & Rr & Hq).
    { intros st2 st' Hq Hs. eapply leaves_sameVars; eassumption. }
    { intros st1 Hn (Hc & Hm & _ & Hlm).
      destruct (lineBody_at st1 _ _ _ R Hp1 Hl1 Hr Hn) as (st2 & E & Rr & Hq).
      exists tt, st2. split; [exact E |]. split; [exact Rr |].
      unfold leaves in *. rewrite Hc, Hm, Hlm, Ecur in Hq. exact Hq. }
    exists st'. split; [exact E |]. split; [exact Hq | right; exact Rr].
  - (* Q *)
    rewrite EQ. unfold bind at 1, requireCurrentPoint, bind, gets.
    destruct (currentPoint st) as [cur |] eqn:Ecur; cbn [replayOne]; [| reflexivity].
    unfold ret.
    pose proof (sepsOk_cons _ _ _ Hl) as (_ & Hp1 & Hl1).
    destruct (loop_printed (quadraticBody false) tt st _ _ _ R
                (leaves st (QuadraticCurveCommand (Some cur) (reread c) (reread e))
                        (Some (reread e)) (lastMovePoint st))
                (proj2 (quadraticBody_good false)) Hl Hend Hrest) as (st' & E & Rr & Hq).
    { intros st2 st' Hq Hs. eapply leaves_sameVars; eassumption. }
    { intros st1 Hn (Hc & Hm & _ & Hlm).
      destruct (quadraticBody_at st1 _ _ _ _ _ _ _ R Hp1 Hl1 Hr Hn) as (st2 & E & Rr & Hq).
      exists tt, st2. split; [exact E |]. split; [exact Rr |].
      unfold leaves in *. rewrite Hc, Hm, Hlm, Ecur in Hq. exact Hq. }
    exists st'. split; [exact E |]. split; [exact Hq | right; exact Rr].
  - (* C *)
    rewrite EC. unfold bind at 1, requireCurrentPoint, bind, gets.
    destruct (currentPoint st) as [cur |] eqn:Ecur; cbn [replayOne]; [| reflexivity].
    unfold ret.
    pose proof (sepsOk_cons _ _ _ Hl) as (_ & Hp1 & Hl1).
    destruct (loop_printed (bezierBody false) tt st _ _ _ R
                (leaves st (BezierCurveCommand (Some cur) (reread c1) (reread c2) (reread e))
                        (Some (reread e)) (lastMovePoint st))
                (proj2 (bezierBody_good false)) Hl Hend Hrest) as (st' & E & Rr & Hq).
    { intros st2 st' Hq Hs. eapply leaves_sameVars; eassumption. }
    { intros st1 Hn (Hc & Hm & _ & Hlm).
      destruct (bezierBody_at st1 _ _ _ _ _ _ _ _ _ _ _ R Hp1 Hl1 Hr Hn)
        as (st2 & E & Rr & Hq).
      exists tt, st2. split; [exact E |]. split; [exact Rr |].
      unfold leaves in *. rewrite Hc, Hm, Hlm, Ecur in Hq. exact Hq. }
    exists st'. split; [exact E |]. split; [exact Hq | right; exact Rr].
  - (* A *)
    rewrite EA. unfold bind at 1, requireCurrentPoint, bind, gets.
    destruct (currentPoint st) as [cur |] eqn:Ecur; cbn [replayOne]; [| reflexivity].
    unfold ret.
    pose proof (sepsOk_cons _ _ _ Hl) as (_ & Hp1 & Hl1).
    destruct (loop_printed (arcBody false) tt st _ _ _ R
                (leaves st
                   (EllipticalArcCommand (x cur) (y cur)
                      (parseFloat (toString rx)) (parseFloat (toString ry))
                      (parseFloat (toString rot)) (parseFloat (toString la))
                      (parseFloat (toString sw)) (parseFloat (toString x1))
                      (parseFloat (toString y1)))
                   (Some (mkPoint (parseFloat (toString x1)) (parseFloat (toString y1))))
                   (lastMovePoint st))
                (proj2 (arcBody_good false)) Hl Hend Hrest) as (st' & E & Rr & Hq).
    { intros st2 st' Hq Hs. eapply leaves_sameVars; eassumption. }
    { intros st1 Hn (Hc & Hm & _ & Hlm).
      destruct (arcBody_at st1 cur _ _ _ _ _ _ _ _ _ _ _ _ _ R
                  (eq_trans Hc Ecur) Hp1 Hl1 Hr Hn) as (st2 & E & Rr & Hq).
      exists tt, st2. split; [exact E |]. split; [exact Rr |].
      unfold leaves in *. rewrite Hm, Hlm in Hq. exact Hq. }
    exists st'. split; [exact E |]. split; [exact Hq | right; exact Rr].
  - (* Z *)
    rewrite EZ. unfold bind, requireCurrentPoint, bind, gets, modify.
    destruct (currentPoint st) as [cur |] eqn:Ecur; cbn [replayOne]; [| reflexivity].
    unfold ret. eexists. split; [reflexivity |]. split.
    + unfold leaves. cbn. rewrite Ecur. repeat split.
    + left. exact Hrest.
Qed.

(** *** The main loop on printed commands *)

Lemma svgChar_letter (cmd : @DrawCommand num) :
  svgChar cmd = String (letter cmd) ""
  /\ isLower (letter cmd) = false /\ isUpper (letter cmd) = true.
Proof. destruct cmd; repeat split. Qed.

Lemma printed_cons (cmd : @DrawCommand num) cmds :
  printed (cmd :: cmds)
  = String " " (String (letter cmd) (glue (argPairs cmd) (printed cmds))).
Proof.
  cbn [printed]. destruct (svgChar_letter cmd) as (-> & _). reflexivity.
Qed.

Lemma nextToken_printed_cons (cmd : @DrawCommand num) cmds :
  nextToken (printed (cmd :: cmds))
  = (AbsoluteCommand, String (letter cmd) (glue (argPairs cmd) (printed cmds))).
Proof.
  rewrite printed_cons. rewrite nextToken_sep by reflexivity. cbn [nextToken].
  destruct (svgChar_letter cmd) as (_ & -> & ->). reflexivity.
Qed.

Lemma terminated_printed (cmds : list (@DrawCommand num)) :
  terminated (printed cmds) = true.
Proof. destruct cmds; reflexivity. Qed.

Lemma nextToken_printed_not_value (cmds : list (@DrawCommand num)) :
  fst (nextToken (printed cmds)) <> Value.
Proof.
  destruct cmds as [| cmd cmds]; [discriminate |].
  rewrite nextToken_printed_cons. discriminate.
Qed.

Lemma length_glue l r : String.length r <= String.length (glue l r).
Proof.
  induction l as [| [c t] l IH]; [reflexivity |].
  cbn [glue fold_right fst snd]. fold (glue l r). simpl. rewrite length_append. lia.
Qed.

Lemma step_at (st : @PState num) (L : ascii) (rem : string) :
  nextToken (rest st) = (AbsoluteCommand, String L rem) ->
  step st
  = command L false (setRest rem (setCurrentToken AbsoluteCommand (setRest (String L rem) st))).
Proof.
  intros Hn. unfold step, consumeCommand_, bind, advanceToNextToken_. rewrite Hn.
  reflexivity.
Qed.

Lemma mainLoop_printed (cmds : list (@DrawCommand num)) :
  forallb plainCommand cmds = true ->
  forall fuel st,
    rest st = printed cmds \/ rest st = snd (nextToken (printed cmds)) ->
    String.length (rest st) < fuel ->
    match replay (currentPoint st) (lastMovePoint st) cmds with
    | Some out =>
        exists st', mainLoop fuel st = Ok (tt, st')
                    /\ commands st' = (commands st ++ out)%list
    | None => mainLoop fuel st = Throw (Error "Current point does not exist")
    end.
Proof.
  induction cmds as [| cmd cmds IH]; intros Hplain fuel st Hrest Hfuel.
  - assert (rest st = "") as Er by (destruct Hrest as [-> | ->]; reflexivity).
    destruct fuel as [| f]; [lia |]. cbn [replay mainLoop]. rewrite Er.
    exists st. rewrite app_nil_r. split; reflexivity.
  - cbn [forallb] in Hplain. apply andb_true_iff in Hplain. destruct Hplain as (Hp & Hps).
    set (rem := glue (argPairs cmd) (printed cmds)).
    assert (Hn : nextToken (rest st) = (AbsoluteCommand, String (letter cmd) rem)).
    { destruct Hrest as [-> | ->].
      - apply nextToken_printed_cons.
      - rewrite nextToken_printed_cons. cbn [snd nextToken].
        destruct (svgChar_letter cmd) as (_ & -> & ->). reflexivity. }
    assert (Hlen : String.length (printed cmds) < String.length (rest st)).
    { pose proof (length_glue (argPairs cmd) (printed cmds)) as Hg. fold rem in Hg.
      destruct Hrest as [-> | ->].
      - rewrite printed_cons. fold rem. simpl. lia.
      - rewrite nextToken_printed_cons. fold rem. simpl. lia. }
    destruct fuel as [| f]; [lia |].
    set (st1 := setRest rem (setCurrentToken AbsoluteCommand
                               (setRest (String (letter cmd) rem) st))).
    assert (Hml : mainLoop (S f) st
                  = bind (command (letter cmd) false) (fun _ => mainLoop f) st1).
    { cbn [mainLoop]. destruct (rest st) as [| c0 s0] eqn:Er; [simpl in Hlen; lia |].
      rewrite <- Er in Hn. unfold bind. rewrite (step_at st _ _ Hn). reflexivity. }
    rewrite Hml. unfold bind.
    pose proof (command_printed cmd st1 (printed cmds) Hp (terminated_printed cmds)
                  (nextToken_printed_not_value cmds) eq_refl) as Hc.
    change (currentPoint st1) with (currentPoint st) in Hc.
    change (lastMovePoint st1) with (lastMovePoint st) in Hc.
    cbn [replay].
    destruct (replayOne (currentPoint st) (lastMovePoint st) cmd) as [[[c cur'] lmp'] |].
    + destruct Hc as (st2 & E & (Hcmds & Hcur & Hlmp) & Hr2). rewrite E.
      change (commands st1) with (commands st) in Hcmds.
      assert (Hf : String.length (rest st2) < f).
      { destruct Hr2 as [-> | ->]; [lia |].
        destruct (nextToken (printed cmds)) as [t r] eqn:En.
        apply nextToken_length in En. simpl. lia. }
      specialize (IH Hps f st2 Hr2 Hf). rewrite Hcur, Hlmp in IH.
      destruct (replay cur' lmp' cmds) as [out |]; cbn [option_map].
      * destruct IH as (st' & E' & Hout). exists st'. split; [exact E' |].
        rewrite Hout, Hcmds, <- app_assoc. reflexivity.
      * exact IH.
    + rewrite Hc. reflexivity.
Qed.

(** Printed commands whose numbers are plain tokens read back as [replay]
    says. *)
Lemma printed_commands_read_back (cmds : list (@DrawCommand num)) :
  forallb plainCommand cmds = true ->
  exists s,
    commandsToString cmds = Ok s
    /\ parseCommands s
       = match replay None None cmds with
         | Some out => Ok out
         | None => Throw (Error "Current point does not exist")
         end.
Proof.
  intros Hplain. destruct (commandsToString_printed cmds) as (s & E & Hs).
  exists s. split; [exact E |]. unfold parseCommands.
  pose proof (mainLoop_printed cmds Hplain (S (String.length s)) (initial s)) as Hm.
  cbn [rest currentPoint lastMovePoint commands initial] in Hm.
  assert (Hrest : s = printed cmds \/ s = snd (nextToken (printed cmds))).
  { destruct cmds as [| cmd cmds]; [left; exact Hs |]. right.
    rewrite nextToken_printed_cons. rewrite printed_cons in Hs. inversion Hs. reflexivity. }
  specialize (Hm Hrest (Nat.lt_succ_diag_r _)).
  destruct (replay None None cmds) as [out |].
  - destruct Hm as (st' & -> & ->). reflexivity.
  - rewrite Hm. reflexivity.
Qed.

(** *** What the parser returns starts with a Move *)

Lemma startsWithMove_sameVars (st st' : @PState num) :
  sameVars st st' -> startsWithMove st -> startsWithMove st'.
Proof.
  intros (Hc & Hm & _ & _). unfold startsWithMove. rewrite Hc, Hm. tauto.
Qed.

Lemma startsWithMove_push (st st' : @PState num) (c : DrawCommand) :
  commands st' = (commands st ++ [c])%list ->
  currentPoint st' <> None ->
  startsWithMove st ->
  commands st <> [] \/ isMoveCommand c = true ->
  startsWithMove st' /\ commands st' <> [].
Proof.
  unfold startsWithMove. intros Hc Hp Hs Hne. rewrite Hc.
  destruct (commands st) as [| c0 l]; simpl.
  - destruct Hne as [Hne | Hm]; [congruence |]. repeat split; [exact Hm | exact Hp | discriminate].
  - destruct Hs as (Hm & _). repeat split; [exact Hm | exact Hp | discriminate].
Qed.

(** Reads the next value or point of a body and keeps track of the variables. *)
Ltac consume Hrun Hs :=
  let v := fresh "v" in
  let s := fresh "s" in
  let E := fresh "E" in
  bind_inv Hrun v s E;
  first [ apply consumePoint_spec in E; destruct E as (_ & E)
        | apply consumeValue_spec in E; destruct E as (_ & E & _) ];
  apply (sameVars_trans _ _ _ Hs) in E; clear Hs; rename E into Hs.

Ltac pushed Hm :=
  cbn; rewrite Hm; eexists; split; [reflexivity |]; discriminate.

Lemma moveBody_pushes (relative b b' : bool) (st st' : @PState num) :
  moveBody relative b st = Ok (b', st') ->
  exists c,
    commands st' = (commands st ++ [c])%list /\ currentPoint st' <> None
    /\ (b = true -> isMoveCommand c = true).
Proof.
  pose proof (sameVars_refl st) as Hs. intros Hrun.
  unfold moveBody in Hrun. consume Hrun Hs. destruct Hs as (_ & Hm & _).
  unfold bind, gets, modify, ret in Hrun.
  destruct b; inversion Hrun; subst; cbn; rewrite Hm; eexists;
    (split; [reflexivity |]); (split; [discriminate |]).
  - reflexivity.
  - discriminate.
Qed.

Lemma bezierBody_pushesOne relative : pushesOne (bezierBody relative).
Proof.
  intros [] st [] st' Hrun. pose proof (sameVars_refl st) as Hs.
  unfold bezierBody in Hrun. do 3 consume Hrun Hs.
  destruct Hs as (_ & Hm & _). unfold bind, gets, modify in Hrun.
  inversion Hrun; subst. pushed Hm.
Qed.

Lemma smoothBezierBody_pushesOne relative : pushesOne (smoothBezierBody relative).
Proof.
  intros [] st [] st' Hrun. pose proof (sameVars_refl st) as Hs.
  unfold smoothBezierBody in Hrun. do 2 consume Hrun Hs.
  destruct Hs as (_ & Hm & _). unfold bind, gets, modify, ret, throw in Hrun.
  destruct (currentControlPoint _); [destruct (currentPoint _); [| discriminate] |];
    inversion Hrun; subst; pushed Hm.
Qed.

Lemma quadraticBody_pushesOne relative : pushesOne (quadraticBody relative).
Proof.
  intros [] st [] st' Hrun. pose proof (sameVars_refl st) as Hs.
  unfold quadraticBody in Hrun. do 2 consume Hrun Hs.
  destruct Hs as (_ & Hm & _). unfold bind, gets, modify in Hrun.
  inversion Hrun; subst. pushed Hm.
Qed.

Lemma smoothQuadraticBody_pushesOne relative : pushesOne (smoothQuadraticBody relative).
Proof.
  intros [] st [] st' Hrun. pose proof (sameVars_refl st) as Hs.
  unfold smoothQuadraticBody in Hrun. consume Hrun Hs.
  destruct Hs as (_ & Hm & _). unfold bind, gets, modify, ret, throw in Hrun.
  destruct (currentControlPoint _); [destruct (currentPoint _); [| discriminate] |];
    inversion Hrun; subst; pushed Hm.
Qed.

Lemma lineBody_pushesOne relative : pushesOne (lineBody relative).
Proof.
  intros [] st [] st' Hrun. pose proof (sameVars_refl st) as Hs.
  unfold lineBody in Hrun. consume Hrun Hs.
  destruct Hs as (_ & Hm & _). unfold bind, gets, modify in Hrun.
  inversion Hrun; subst. pushed Hm.
Qed.

Lemma horizontalBody_pushesOne relative : pushesOne (horizontalBody relative).
Proof.
  intros [] st [] st' Hrun. pose proof (sameVars_refl st) as Hs.
  unfold horizontalBody in Hrun. consume Hrun Hs.
  destruct Hs as (_ & Hm & _). unfold bind, gets, modify, throw in Hrun.
  destruct (currentPoint _); [| discriminate].
  inversion Hrun; subst. pushed Hm.
Qed.

Lemma verticalBody_pushesOne relative : pushesOne (verticalBody relative).
Proof.
  intros [] st [] st' Hrun. pose proof (sameVars_refl st) as Hs.
  unfold verticalBody in Hrun. unfold bind at 1 in Hrun. unfold gets at 1 in Hrun.
  destruct (currentPoint st); [| discriminate]. consume Hrun Hs.
  destruct Hs as (_ & Hm & _). unfold bind, gets, modify in Hrun.
  inversion Hrun; subst. pushed Hm.
Qed.

Lemma arcBody_pushesOne relative : pushesOne (arcBody relative).
Proof.
  intros [] st [] st' Hrun. pose proof (sameVars_refl st) as Hs.
  unfold arcBody in Hrun. do 6 consume Hrun Hs.
  destruct Hs as (_ & Hm & _). unfold bind, gets, modify, throw in Hrun.
  destruct (currentPoint _); [| discriminate].
  inversion Hrun; subst. pushed Hm.
Qed.

Lemma whileValue_startsWithMove {L} (body : L -> @Parser num L) :
  pushesOne body ->
  forall fuel l st st',
    whileValue fuel body l st = Ok (tt, st') ->
    startsWithMove st -> commands st <> [] -> startsWithMove st'.
Proof.
  intros Hbody fuel. induction fuel as [| f IH]; intros l st st' Hrun Hs Hne; [discriminate |].
  cbn [whileValue] in Hrun. bind_inv Hrun t st1 E.
  apply advance_spec in E. destruct E as (_ & _ & Hv).
  pose proof (startsWithMove_sameVars _ _ Hv Hs) as Hs1.
  assert (Hne1 : commands st1 <> []) by (destruct Hv as (_ & -> & _); exact Hne).
  destruct t; try (inversion Hrun; subst; exact Hs1).
  bind_inv Hrun l' st2 Eb. destruct (Hbody _ _ _ _ Eb) as (c & Hc & Hp).
  destruct (startsWithMove_push st1 st2 c Hc Hp Hs1 (or_introl Hne1)) as (Hs2 & Hne2).
  eapply IH; eassumption.
Qed.

Lemma moveRun_startsWithMove (relative : bool) fuel (isFirst : bool) (st st' : @PState num) :
  whileValue fuel (moveBody relative) isFirst st = Ok (tt, st') ->
  startsWithMove st -> (isFirst = false -> commands st <> []) -> startsWithMove st'.
Proof.
  revert isFirst st. induction fuel as [| f IH]; intros isFirst st Hrun Hs Hne; [discriminate |].
  cbn [whileValue] in Hrun. bind_inv Hrun t st1 E.
  apply advance_spec in E. destruct E as (_ & _ & Hv).
  pose proof (startsWithMove_sameVars _ _ Hv Hs) as Hs1.
  destruct t; try (inversion Hrun; subst; exact Hs1).
  bind_inv Hrun b' st2 Eb.
  destruct (moveBody_pushes _ _ _ _ _ Eb) as (c & Hc & Hp & Hm).
  assert (Hor : commands st1 <> [] \/ isMoveCommand c = true).
  { destruct isFirst; [right; apply Hm; reflexivity |].
    left. destruct Hv as (_ & -> & _). apply Hne. reflexivity. }
  destruct (startsWithMove_push st1 st2 c Hc Hp Hs1 Hor) as (Hs2 & Hne2).
  eapply IH; [exact Hrun | exact Hs2 | intros _; exact Hne2].
Qed.

Lemma requireCurrentPoint_inv msg (st st' : @PState num) p :
  requireCurrentPoint msg st = Ok (p, st') -> st' = st /\ currentPoint st <> None.
Proof.
  unfold requireCurrentPoint, bind, gets, ret, throw.
  destruct (currentPoint st); [| discriminate]. intros E. inversion E. split; [reflexivity | discriminate].
Qed.

Lemma startsWithMove_nonempty (st : @PState num) :
  startsWithMove st -> currentPoint st <> None -> commands st <> [].
Proof.
  unfold startsWithMove. destruct (commands st); [congruence | discriminate].
Qed.

Lemma command_startsWithMove (c : ascii) (relative : bool) (st st' : @PState num) :
  command c relative st = Ok (tt, st') -> startsWithMove st -> startsWithMove st'.
Proof.
  intros Hrun Hs. unfold command in Hrun.
  (* the guarded loops *)
  assert (Hloop : forall (body : unit -> @Parser num unit),
             pushesOne body ->
             bind (requireCurrentPoint "Current point does not exist")
                  (fun _ => repeatOnValues body tt) st = Ok (tt, st') ->
             startsWithMove st').
  { intros body Hb Hr. bind_inv Hr p st1 E. apply requireCurrentPoint_inv in E.
    destruct E as (-> & Hp). unfold repeatOnValues in Hr.
    eapply whileValue_startsWithMove; [exact Hb | exact Hr | exact Hs |].
    apply startsWithMove_nonempty; assumption. }
  destruct (isChar c "M" "m").
  { bind_inv Hrun cur st1 E. unfold gets in E. inversion E; subst; clear E.
    assert (Hr : repeatOnValues (moveBody relative) true st1 = Ok (tt, st'))
      by (destruct relative, (currentPoint st1); try discriminate; exact Hrun).
    unfold repeatOnValues in Hr.
    eapply moveRun_startsWithMove; [exact Hr | exact Hs | discriminate]. }
  destruct (isChar c "C" "c"); [exact (Hloop _ (bezierBody_pushesOne relative) Hrun) |].
  destruct (isChar c "S" "s"); [exact (Hloop _ (smoothBezierBody_pushesOne relative) Hrun) |].
  destruct (isChar c "Q" "q"); [exact (Hloop _ (quadraticBody_pushesOne relative) Hrun) |].
  destruct (isChar c "T" "t");
    [exact (Hloop _ (smoothQuadraticBody_pushesOne relative) Hrun) |].
  destruct (isChar c "L" "l"); [exact (Hloop _ (lineBody_pushesOne relative) Hrun) |].
  destruct (isChar c "H" "h"); [exact (Hloop _ (horizontalBody_pushesOne relative) Hrun) |].
  destruct (isChar c "V" "v"); [exact (Hloop _ (verticalBody_pushesOne relative) Hrun) |].
  destruct (isChar c "A" "a"); [exact (Hloop _ (arcBody_pushesOne relative) Hrun) |].
  destruct (isChar c "Z" "z").
  { bind_inv Hrun p st1 E. apply requireCurrentPoint_inv in E. destruct E as (-> & Hp).
    unfold bind, gets, modify in Hrun. inversion Hrun; subst; clear Hrun.
    eapply proj1, (startsWithMove_push st); [reflexivity | exact Hp | exact Hs |].
    left. apply startsWithMove_nonempty; assumption. }
  inversion Hrun; subst. exact Hs.
Qed.

Lemma step_startsWithMove (st st' : @PState num) :
  step st = Ok (tt, st') -> startsWithMove st -> startsWithMove st'.
Proof.
  unfold step. intros Hrun Hs. bind_inv Hrun c st1 E.
  assert (Hv : sameVars st st1).
  { unfold consumeCommand_ in E. bind_inv E t st0 E0.
    apply advance_spec in E0. destruct E0 as (_ & _ & Hv).
    destruct t; try discriminate;
      (destruct (rest st0); [discriminate |]; inversion E; subst;
       destruct Hv as (a & b & c1 & d); repeat split; assumption). }
  bind_inv Hrun tok st2 E2. unfold gets in E2. inversion E2; subst; clear E2.
  eapply command_startsWithMove; [exact Hrun |].
  eapply startsWithMove_sameVars; eassumption.
Qed.

Lemma mainLoop_startsWithMove fuel (st st' : @PState num) :
  mainLoop fuel st = Ok (tt, st') -> startsWithMove st -> startsWithMove st'.
Proof.
  revert st. induction fuel as [| f IH]; intros st Hrun Hs; [discriminate |].
  cbn [mainLoop] in Hrun. destruct (rest st); [inversion Hrun; subst; exact Hs |].
  bind_inv Hrun u st1 E. destruct u.
  eapply IH; [exact Hrun |]. eapply step_startsWithMove; eassumption.
Qed.

(** The first command that [parseCommands] returns is a Move. *)
Lemma parseCommands_starts_with_move (s : string) (c : @DrawCommand num) cmds :
  parseCommands s = Ok (c :: cmds) -> isMoveCommand c = true.
Proof.
  unfold parseCommands. intros Hp.
  destruct (mainLoop _ _) as [[[] st] | e |] eqn:E; try discriminate.
  inversion Hp as [Hc]. apply mainLoop_startsWithMove in E; [| reflexivity].
  unfold startsWithMove in E. rewrite Hc in E. tauto.
Qed.

Lemma replayOne_some (p : @Point num) lmp cmd :
  exists c p' lmp', replayOne (Some p) lmp cmd = Some (c, Some p', lmp').
Proof. destruct cmd; cbn; eauto. Qed.

Lemma replay_some (cmds : list (@DrawCommand num)) p lmp :
  exists out, replay (Some p) lmp cmds = Some out.
Proof.
  revert p lmp. induction cmds as [| cmd cmds IH]; intros p lmp; cbn [replay]; [eauto |].
  destruct (replayOne_some p lmp cmd) as (c & p' & lmp' & ->).
  destruct (IH p' lmp') as (out & ->). cbn. eauto.
Qed.

Lemma replay_starting_with_move (cmds : list (@DrawCommand num)) :
  match cmds with
  | [] => True
  | c :: _ => isMoveCommand c = true
  end ->
  exists out, replay None None cmds = Some out.
Proof.
  destruct cmds as [| c cmds]; [cbn; eauto |].
  destruct c; try discriminate. intros _. cbn [replay replayOne].
  destruct (replay_some cmds (reread end_) (Some (reread end_))) as (out & ->).
  cbn. eauto.
Qed.

(** The replayed commands have the kinds of the printed ones. *)
Lemma replay_kinds (cmds : list (@DrawCommand num)) cur lmp out :
  replay cur lmp cmds = Some out -> map svgChar out = map svgChar cmds.
Proof.
  revert cur lmp out. induction cmds as [| cmd cmds IH]; intros cur lmp out E; cbn [replay] in E.
  - inversion E. reflexivity.
  - destruct (replayOne cur lmp cmd) as [[[c cur'] lmp'] |] eqn:E1; [| discriminate].
    destruct (replay cur' lmp' cmds) as [out' |] eqn:E2; [| discriminate].
    cbn in E. inversion E; subst. cbn [map]. rewrite (IH _ _ _ E2). f_equal.
    destruct cmd, cur; cbn in E1; inversion E1; reflexivity.
Qed.

(** X14: the round trip on a path whose numbers all print as plain tokens
    (tokens that start a value and that the scan of a value takes whole):
    the second parse succeeds, and it returns the commands of the first
    parse with every coordinate printed and read back, each command from
    the point the one before it left, so with the same kind sequence. *)
Lemma roundTrip_of_plain_numbers (s : string) (cmds : list (@DrawCommand num)) :
  parseCommands s = Ok cmds ->
  forallb plainCommand cmds = true ->
  exists cmds',
    roundTrip s = Ok cmds'
    /\ replay None None cmds = Some cmds'
    /\ map svgChar cmds' = map svgChar cmds.
Proof.
  intros Hp Hplain. unfold roundTrip. rewrite Hp.
  destruct (printed_commands_read_back cmds Hplain) as (s' & -> & Hs').
  destruct (replay_starting_with_move cmds) as (out & Hout).
  { destruct cmds as [| c cmds]; [exact I |].
    eapply parseCommands_starts_with_move; exact Hp. }
  rewrite Hout in Hs'. exists out. split; [exact Hs' |]. split; [exact Hout |].
  eapply replay_kinds; exact Hout.
Qed.

(** ** The commands of one parse are linked *)

#[local] Abbreviation linksEach := (@PathParser.linksEach num _).

Lemma pointAfterAll_app (cur : option (@Point num)) l c :
  pointAfterAll cur (l ++ [c])%list = pointAfter c.
Proof. unfold pointAfterAll. rewrite fold_left_app. reflexivity. Qed.

Lemma movePointAfterAll_app (lmp : option (@Point num)) l c :
  movePointAfterAll lmp (l ++ [c])%list = movePointAfter (movePointAfterAll lmp l) c.
Proof. unfold movePointAfterAll. rewrite fold_left_app. reflexivity. Qed.

Lemma linked_app (cur lmp : option (@Point num)) l c :
  linked cur lmp l ->
  startOf c = pointAfterAll cur l ->
  closesAt (movePointAfterAll lmp l) c ->
  linked cur lmp (l ++ [c])%list.
Proof.
  revert cur lmp. induction l as [| a l IH]; intros cur lmp Hl Hs Hz; simpl in *.
  - repeat split; assumption.
  - destruct Hl as (h1 & h2 & h3). repeat split; try assumption.
    apply IH; assumption.
Qed.

Lemma linkedState_sameVars (st st' : @PState num) :
  sameVars st st' -> linkedState st -> linkedState st'.
Proof.
  intros (a & b & _ & d) (h1 & h2 & h3). unfold linkedState. rewrite a, b, d.
  repeat split; assumption.
Qed.

Lemma linkedState_linksOne (st st' : @PState num) :
  linksOne st st' -> linkedState st -> linkedState st'.
Proof.
  intros (cmd & Hc & Hs & Hz & Hp & Hm) (h1 & h2 & h3). unfold linkedState.
  rewrite Hc, pointAfterAll_app, movePointAfterAll_app. repeat split.
  - apply linked_app; [exact h1 | rewrite <- h2; exact Hs | rewrite <- h3; exact Hz].
  - exact Hp.
  - rewrite <- h3. exact Hm.
Qed.

(** Closes a goal [linksOne st st'] once the round has been run: [Hs]
    relates the variables before the push to those of [st]. *)
Ltac links Hs :=
  let Hc := fresh "Hc" in
  let Hm := fresh "Hm" in
  let Hl := fresh "Hl" in
  destruct Hs as (Hc & Hm & _ & Hl);
  eexists; cbn; rewrite ?Hm, ?Hl, ?Hc; repeat split; cbn; try congruence.

Lemma moveBody_links relative : linksEach (moveBody relative).
Proof.
  intros b st b' st' Hrun. pose proof (sameVars_refl st) as Hs.
  unfold moveBody in Hrun. consume Hrun Hs.
  unfold bind, gets, modify, ret in Hrun.
  destruct b; inversion Hrun; subst; links Hs.
Qed.

Lemma bezierBody_links relative : linksEach (bezierBody relative).
Proof.
  intros [] st [] st' Hrun. pose proof (sameVars_refl st) as Hs.
  unfold bezierBody in Hrun. do 3 consume Hrun Hs.
  unfold bind, gets, modify in Hrun. inversion Hrun; subst. links Hs.
Qed.

Lemma smoothBezierBody_links relative : linksEach (smoothBezierBody relative).
Proof.
  intros [] st [] st' Hrun. pose proof (sameVars_refl st) as Hs.
  unfold smoothBezierBody in Hrun. do 2 consume Hrun Hs.
  unfold bind, gets, modify, ret, throw in Hrun.
  destruct (currentControlPoint _); [destruct (currentPoint _) eqn:Ep; [| discriminate] |];
    inversion Hrun; subst; links Hs.
Qed.

Lemma quadraticBody_links relative : linksEach (quadraticBody relative).
Proof.
  intros [] st [] st' Hrun. pose proof (sameVars_refl st) as Hs.
  unfold quadraticBody in Hrun. do 2 consume Hrun Hs.
  unfold bind, gets, modify in Hrun. inversion Hrun; subst. links Hs.
Qed.

Lemma smoothQuadraticBody_links relative : linksEach (smoothQuadraticBody relative).
Proof.
  intros [] st [] st' Hrun. pose proof (sameVars_refl st) as Hs.
  unfold smoothQuadraticBody in Hrun. consume Hrun Hs.
  unfold bind, gets, modify, ret, throw in Hrun.
  destruct (currentControlPoint _); [destruct (currentPoint _) eqn:Ep; [| discriminate] |];
    inversion Hrun; subst; links Hs.
Qed.

Lemma lineBody_links relative : linksEach (lineBody relative).
Proof.
  intros [] st [] st' Hrun. pose proof (sameVars_refl st) as Hs.
  unfold lineBody in Hrun. consume Hrun Hs.
  unfold bind, gets, modify in Hrun. inversion Hrun; subst. links Hs.
Qed.

Lemma horizontalBody_links relative : linksEach (horizontalBody relative).
Proof.
  intros [] st [] st' Hrun. pose proof (sameVars_refl st) as Hs.
  unfold horizontalBody in Hrun. consume Hrun Hs.
  unfold bind, gets, modify, throw in Hrun.
  destruct (currentPoint _) eqn:Ep; [| discriminate].
  inversion Hrun; subst. links Hs.
Qed.

Lemma verticalBody_links relative : linksEach (verticalBody relative).
Proof.
  intros [] st [] st' Hrun. pose proof (sameVars_refl st) as Hs.
  unfold verticalBody in Hrun. unfold bind at 1 in Hrun. unfold gets at 1 in Hrun.
  destruct (currentPoint st) eqn:Ep; [| discriminate]. consume Hrun Hs.
  unfold bind, gets, modify in Hrun. inversion Hrun; subst. links Hs.
Qed.

Lemma arcBody_links relative : linksEach (arcBody relative).
Proof.
  intros [] st [] st' Hrun. pose proof (sameVars_refl st) as Hs.
  unfold arcBody in Hrun. do 6 consume Hrun Hs.
  unfold bind, gets, modify, throw in Hrun.
  destruct (currentPoint _) as [[px py] |] eqn:Ep; [| discriminate].
  inversion Hrun; subst. links Hs.
  match goal with |- Some ?p = Some _ => destruct p; reflexivity end.
Qed.

Lemma whileValue_linked {L} (body : L -> @Parser num L) :
  linksEach body ->
  forall fuel l st st',
    whileValue fuel body l st = Ok (tt, st') -> linkedState st -> linkedState st'.
Proof.
  intros Hbody fuel. induction fuel as [| f IH]; intros l st st' Hrun Hs; [discriminate |].
  cbn [whileValue] in Hrun. bind_inv Hrun t st1 E.
  apply advance_spec in E. destruct E as (_ & _ & Hv).
  pose proof (linkedState_sameVars _ _ Hv Hs) as Hs1.
  destruct t; try (inversion Hrun; subst; exact Hs1).
  bind_inv Hrun l' st2 Eb. apply Hbody in Eb.
  eapply IH; [exact Hrun |]. eapply linkedState_linksOne; eassumption.
Qed.

Lemma command_linked (c : ascii) (relative : bool) (st st' : @PState num) :
  command c relative st = Ok (tt, st') -> linkedState st -> linkedState st'.
Proof.
  intros Hrun Hs. unfold command in Hrun.
  assert (Hloop : forall (body : unit -> @Parser num unit),
             linksEach body ->
             bind (requireCurrentPoint "Current point does not exist")
                  (fun _ => repeatOnValues body tt) st = Ok (tt, st') ->
             linkedState st').
  { intros body Hb Hr. bind_inv Hr p st1 E. apply requireCurrentPoint_inv in E.
    destruct E as (-> & Hp). unfold repeatOnValues in Hr.
    eapply whileValue_linked; [exact Hb | exact Hr | exact Hs]. }
  destruct (isChar c "M" "m").
  { bind_inv Hrun cur st1 E. unfold gets in E. inversion E; subst; clear E.
    assert (Hr : repeatOnValues (moveBody relative) true st1 = Ok (tt, st'))
      by (destruct relative, (currentPoint st1); try discriminate; exact Hrun).
    unfold repeatOnValues in Hr.
    eapply whileValue_linked; [apply moveBody_links | exact Hr | exact Hs]. }
  destruct (isChar c "C" "c"); [exact (Hloop _ (bezierBody_links relative) Hrun) |].
  destruct (isChar c "S" "s"); [exact (Hloop _ (smoothBezierBody_links relative) Hrun) |].
  destruct (isChar c "Q" "q"); [exact (Hloop _ (quadraticBody_links relative) Hrun) |].
  destruct (isChar c "T" "t"); [exact (Hloop _ (smoothQuadraticBody_links relative) Hrun) |].
  destruct (isChar c "L" "l"); [exact (Hloop _ (lineBody_links relative) Hrun) |].
  destruct (isChar c "H" "h"); [exact (Hloop _ (horizontalBody_links relative) Hrun) |].
  destruct (isChar c "V" "v"); [exact (Hloop _ (verticalBody_links relative) Hrun) |].
  destruct (isChar c "A" "a"); [exact (Hloop _ (arcBody_links relative) Hrun) |].
  destruct (isChar c "Z" "z").
  { bind_inv Hrun p st1 E. apply requireCurrentPoint_inv in E. destruct E as (-> & Hp).
    unfold bind, gets, modify in Hrun. inversion Hrun; subst; clear Hrun.
    eapply linkedState_linksOne; [| exact Hs].
    eexists. cbn. repeat split. }
  inversion Hrun; subst. exact Hs.
Qed.

Lemma consumeCommand_sameVars (st st' : @PState num) c :
  consumeCommand_ st = Ok (c, st') -> sameVars st st'.
Proof.
  intros E. unfold consumeCommand_ in E. bind_inv E t st0 E0.
  apply advance_spec in E0. destruct E0 as (_ & _ & Hv).
  destruct t; try discriminate;
    (destruct (rest st0); [discriminate |]; inversion E; subst;
     destruct Hv as (a & b & c1 & d); repeat split; assumption).
Qed.

Lemma step_linked (st st' : @PState num) :
  step st = Ok (tt, st') -> linkedState st -> linkedState st'.
Proof.
  unfold step. intros Hrun Hs. bind_inv Hrun c st1 E.
  apply consumeCommand_sameVars in E.
  bind_inv Hrun tok st2 E2. unfold gets in E2. inversion E2; subst; clear E2.
  eapply command_linked; [exact Hrun |].
  eapply linkedState_sameVars; eassumption.
Qed.

Lemma mainLoop_linked fuel (st st' : @PState num) :
  mainLoop fuel st = Ok (tt, st') -> linkedState st -> linkedState st'.
Proof.
  revert st. induction fuel as [| f IH]; intros st Hrun Hs; [discriminate |].
  cbn [mainLoop] in Hrun. destruct (rest st); [inversion Hrun; subst; exact Hs |].
  bind_inv Hrun u st1 E. destruct u.
  eapply IH; [exact Hrun |]. eapply step_linked; eassumption.
Qed.

(** X1: the commands that [parseCommands] returns start with a Move and
    are linked.  The first command has no start point; every later command
    starts at the point at which the command before it left the parser,
    which is that command's end point, except that a Close leaves the
    parser at the point it started from (Z/z does not move the current
    point to the target of the Move); and every Close ends at the target of
    the latest Move before it. *)
Theorem parseCommands_links_commands (s : string) (cmds : list (@DrawCommand num)) :
  parseCommands s = Ok cmds ->
  linked None None cmds
  /\ match cmds with
     | [] => True
     | cmd :: _ => isMoveCommand cmd = true
     end.
Proof.
  intros Hp. split.
  - unfold parseCommands in Hp.
    destruct (mainLoop _ _) as [[[] st] | e |] eqn:E; try discriminate.
    inversion Hp; subst. apply mainLoop_linked in E; [apply E |].
    repeat split.
  - destruct cmds as [| cmd cmds]; [exact I |].
    eapply parseCommands_starts_with_move; exact Hp.
Qed.

(** ** What the main loop skips and what it refuses *)

Lemma mainLoop_fuel_irrelevant fuel1 :
  forall fuel2 (st : @PState num),
    String.length (rest st) < fuel1 -> String.length (rest st) < fuel2 ->
    mainLoop fuel1 st = mainLoop fuel2 st.
Proof.
  induction fuel1 as [| f1 IH]; intros fuel2 st H1 H2; [lia |].
  destruct fuel2 as [| f2]; [lia |].
  cbn [mainLoop]. destruct (rest st) as [| c r] eqn:Er; [reflexivity |].
  unfold bind. destruct (step st) as [[[] st1] | e |] eqn:Es; try reflexivity.
  apply step_restLt in Es. rewrite Er in Es. simpl in *. apply IH; lia.
Qed.

Lemma nextToken_skipped (seps s : string) :
  allChars isSkipped seps = true -> nextToken (seps ++ s) = nextToken s.
Proof.
  induction seps as [| c seps IH]; intros Hsep; [reflexivity |].
  simpl in Hsep. apply andb_true_iff in Hsep. destruct Hsep as (Hc & Hsep).
  unfold isSkipped in Hc. apply andb_true_iff in Hc. destruct Hc as (Hc & Hv).
  apply andb_true_iff in Hc. destruct Hc as (Hl & Hu).
  apply negb_true_iff in Hl, Hu, Hv.
  rewrite append_cons. cbn [nextToken]. rewrite Hl, Hu, Hv. apply IH. exact Hsep.
Qed.

(** The first round of the main loop reads its command letter through the
    skipped characters, and does not look at the token left from before. *)
Lemma step_skipped (seps s : string) (st : @PState num) (tok : option Token) :
  allChars isSkipped seps = true ->
  step {| rest := seps ++ s; currentPoint := currentPoint st; currentToken := tok;
          commands := commands st; currentControlPoint := currentControlPoint st;
          lastMovePoint := lastMovePoint st |}
  = step (setRest s st).
Proof.
  intros Hsep. unfold step, consumeCommand_. unfold bind at 1 2 4 5.
  unfold advanceToNextToken_. cbn [rest setRest]. rewrite (nextToken_skipped _ _ Hsep).
  destruct (nextToken s) as [t r]. reflexivity.
Qed.

Lemma mainLoop_step fuel (st : @PState num) c r :
  rest st = String c r ->
  mainLoop (S fuel) st
  = match step st with
    | Ok (_, st1) => mainLoop fuel st1
    | Throw e => Throw e
    | OutOfFuel => OutOfFuel
    end.
Proof. intros E. cbn [mainLoop]. rewrite E. reflexivity. Qed.

(** X2: characters that are neither letters nor the start of a value are
    skipped in front of a path: on a non-empty path string, putting such
    characters in front changes nothing of what [parseCommands] returns or
    throws. *)
Theorem leading_separators_are_skipped (seps s : string) :
  allChars isSkipped seps = true ->
  s <> "" ->
  parseCommands (num:=num) (seps ++ s) = parseCommands s.
Proof.
  intros Hsep Hne. unfold parseCommands.
  assert (Hl : String.length s <= String.length (seps ++ s))
    by (rewrite length_append; lia).
  assert (Hstep : step (initial (seps ++ s)) = step (initial (num:=num) s))
    by exact (step_skipped seps s (initial "") None Hsep).
  destruct s as [| c s]; [congruence |].
  destruct (seps ++ String c s) as [| c' s'] eqn:Ea; [simpl in Hl; lia |].
  rewrite (mainLoop_step _ (initial (String c' s')) c' s' eq_refl), Hstep.
  rewrite (mainLoop_step _ (initial (String c s)) c s eq_refl).
  destruct (step (initial (String c s))) as [[[] st1] | e |] eqn:Es; try reflexivity.
  apply step_restLt in Es. cbn [rest initial] in Es.
  rewrite (mainLoop_fuel_irrelevant _ (String.length (String c s)) st1);
    [reflexivity | lia | lia].
Qed.

Lemma isKnownLetter_false (c : ascii) (relative : bool) :
  isKnownLetter c = false -> command (num:=num) c relative = ret tt.
Proof.
  unfold isKnownLetter. intros Hk.
  do 9 (apply orb_false_iff in Hk; destruct Hk as (Hk & ?)).
  unfold command.
  repeat match goal with
         | E : isChar c _ _ = false |- _ => rewrite E; clear E
         end.
  reflexivity.
Qed.

(** X3: a letter that has no case in the [switch] is read and ignored: a
    path string that starts with such a letter parses as the string
    without it. *)
Theorem unknown_letters_are_ignored (c : ascii) (s : string) :
  isLower c || isUpper c = true ->
  isKnownLetter c = false ->
  parseCommands (num:=num) (String c s) = parseCommands s.
Proof.
  intros Hletter Hk. unfold parseCommands.
  set (st1 := {| rest := s; currentPoint := None;
                 currentToken := Some (if isLower c then RelativeCommand
                                       else AbsoluteCommand);
                 commands := []; currentControlPoint := None;
                 lastMovePoint := None |} : @PState num).
  assert (Hstep : step (initial (String c s)) = Ok (tt, st1)).
  { unfold step, consumeCommand_. unfold bind at 1 2 3. unfold advanceToNextToken_.
    cbn [rest initial nextToken]. subst st1.
    destruct (isLower c) eqn:El.
    - cbn. unfold bind, gets. cbn. rewrite (isKnownLetter_false c true Hk). reflexivity.
    - simpl in Hletter. rewrite Hletter.
      cbn. unfold bind, gets. cbn. rewrite (isKnownLetter_false c false Hk). reflexivity. }
  cbn [String.length].
  rewrite (mainLoop_step _ (initial (String c s)) c s eq_refl), Hstep.
  destruct s as [| c' s']; [reflexivity |].
  assert (Hs : step st1 = step (initial (String c' s')))
    by exact (step_skipped "" (String c' s') (initial "") _ eq_refl).
  cbn [String.length].
  rewrite (mainLoop_step _ st1 c' s' eq_refl), Hs.
  rewrite (mainLoop_step _ (initial (String c' s')) c' s' eq_refl). reflexivity.
Qed.

Lemma step_expects_command (st : @PState num) (t : Token) (r : string) :
  nextToken (rest st) = (t, r) ->
  t = Value \/ t = EOF ->
  step st = Throw (Error "Expected command").
Proof.
  intros Hn Ht. unfold step, consumeCommand_. unfold bind at 1 2.
  unfold advanceToNextToken_. rewrite Hn. destruct Ht as [-> | ->]; reflexivity.
Qed.

(** X4: where a path string has something other than a letter as its first
    token (a value, or nothing but skipped characters), [parseCommands]
    throws "Expected command". *)
Theorem parseCommands_expects_command (s r : string) (t : Token) :
  s <> "" ->
  nextToken s = (t, r) ->
  t = Value \/ t = EOF ->
  parseCommands (num:=num) s = Throw (Error "Expected command").
Proof.
  intros Hne Hn Ht. unfold parseCommands.
  destruct s as [| c s]; [congruence |].
  rewrite (mainLoop_step _ (initial (String c s)) c s eq_refl).
  rewrite (step_expects_command (initial (String c s)) t r Hn Ht). reflexivity.
Qed.

Lemma needsCurrentPoint_throws (c : ascii) (relative : bool) (st : @PState num) :
  needsCurrentPoint c = true ->
  currentPoint st = None ->
  command c relative st = Throw (Error "Current point does not exist").
Proof.
  unfold needsCurrentPoint, isChar. intros Hc Hcur.
  repeat (apply orb_true_iff in Hc; destruct Hc as [Hc | Hc]);
    apply Ascii.eqb_eq in Hc; subst c;
    unfold command; cbn; unfold bind, requireCurrentPoint, bind, gets, throw;
    rewrite Hcur; reflexivity.
Qed.

Lemma step_on_letter (st : @PState num) (t : Token) (c : ascii) (r : string) :
  nextToken (rest st) = (t, String c r) ->
  isLower c || isUpper c = true ->
  step st = command c (isLower c)
              (setRest r (setCurrentToken (if isLower c then RelativeCommand
                                           else AbsoluteCommand) (setRest (String c r) st))).
Proof.
  intros Hn Hletter. pose proof (nextToken_head _ _ _ _ Hn) as Ht.
  unfold step, consumeCommand_. unfold bind at 1 2 3. unfold advanceToNextToken_.
  rewrite Hn. subst t.
  destruct (isLower c); [| simpl in Hletter; rewrite Hletter]; reflexivity.
Qed.

(** X5: a path has to start with a Move: where the first letter of a path
    string is one of C, S, Q, T, L, H, V, A, Z in either case,
    [parseCommands] throws "Current point does not exist". *)
Theorem first_command_needs_current_point (s r : string) (t : Token) (c : ascii) :
  nextToken s = (t, String c r) ->
  needsCurrentPoint c = true ->
  parseCommands (num:=num) s = Throw (Error "Current point does not exist").
Proof.
  intros Hn Hc. unfold parseCommands.
  destruct s as [| c0 s]; [discriminate |].
  assert (Hletter : isLower c || isUpper c = true).
  { revert Hc. unfold needsCurrentPoint, isChar. intros Hc.
    repeat (apply orb_true_iff in Hc; destruct Hc as [Hc | Hc]);
      apply Ascii.eqb_eq in Hc; subst c; reflexivity. }
  rewrite (mainLoop_step _ (initial (String c0 s)) c0 s eq_refl).
  rewrite (step_on_letter (initial (String c0 s)) t c r Hn Hletter).
  rewrite needsCurrentPoint_throws; [reflexivity | exact Hc | reflexivity].
Qed.

(** ** Reading a value *)

Lemma nextToken_Value s r :
  nextToken s = (Value, r) -> exists c r', r = String c r' /\ isValueStart c = true.
Proof.
  revert r. induction s as [| c s IH]; intros r Hn; simpl in Hn; [discriminate |].
  destruct (isLower c); [discriminate |]. destruct (isUpper c); [discriminate |].
  destruct (isValueStart c) eqn:Ev.
  - inversion Hn; subst. exists c, s. auto.
  - apply IH; assumption.
Qed.

(** X6: [consumeValue_] throws "Expected value" exactly when the next token
    is not a value; when it is one, the scan takes at least one character
    (the check [tempIndex === index] never fires) and the result is
    [parseFloat] of the characters taken. *)
Theorem consumeValue_reads_or_throws (st : @PState num) :
  let (t, r0) := nextToken (rest st) in
  match t with
  | Value =>
      exists str r,
        str <> "" /\ scanValue true false r0 = (str, r)
        /\ consumeValue_ st
           = Ok (parseFloat str, setRest r (setCurrentToken Value (setRest r0 st)))
  | _ => consumeValue_ st = Throw (Error "Expected value")
  end.
Proof.
  destruct (nextToken (rest st)) as [t r0] eqn:Hn.
  assert (Hadv : advanceToNextToken_ st = Ok (t, setCurrentToken t (setRest r0 st)))
    by (unfold advanceToNextToken_; rewrite Hn; reflexivity).
  unfold consumeValue_, bind. rewrite Hadv.
  destruct t; try reflexivity.
  destruct (nextToken_Value _ _ Hn) as (c & r' & -> & Hv).
  pose proof (scanValue_nonempty c r' Hv) as Hne.
  cbn [rest setRest setCurrentToken].
  destruct (scanValue true false (String c r')) as [str r] eqn:Es.
  exists str, r. simpl in Hne. split; [exact Hne |]. split; [reflexivity |].
  destruct str; [congruence | reflexivity].
Qed.

Lemma digit_is_plain (c : ascii) :
  isDigitChar c = true ->
  (c =? ".")%char = false /\ (c =? "-")%char = false /\ (c =? "e")%char = false.
Proof.
  destruct c as [[] [] [] [] [] [] [] []]; vm_compute; intros E;
    first [discriminate E | repeat split].
Qed.

Lemma scanValue_digits (a r : string) (start seenDot : bool) :
  allChars isDigitChar a = true ->
  scanValue start seenDot (a ++ r)
  = match a with
    | "" => scanValue start seenDot r
    | _ => (a ++ fst (scanValue false seenDot r), snd (scanValue false seenDot r))
    end.
Proof.
  revert start. induction a as [| c a IH]; intros start Ha; [reflexivity |].
  simpl in Ha. apply andb_true_iff in Ha. destruct Ha as (Hc & Ha).
  destruct (digit_is_plain c Hc) as (Hd & Hm & He).
  rewrite append_cons. cbn [scanValue]. rewrite Hc, Hd, He. cbn [negb andb].
  rewrite (IH false Ha). destruct a as [| c' a'].
  - change ("" ++ fst (scanValue false seenDot r)) with (fst (scanValue false seenDot r)).
    destruct (scanValue false seenDot r); reflexivity.
  - reflexivity.
Qed.

Lemma scanValue_terminated (r : string) (start seenDot : bool) :
  terminated r = true -> scanValue start seenDot r = ("", r).
Proof.
  destruct r as [| c r]; [reflexivity |]. simpl. intros Hc.
  rewrite endsValue_breaks by exact Hc. reflexivity.
Qed.

Lemma scanValue_dot (r : string) (start : bool) :
  scanValue start false (String "." r)
  = (String "." (fst (scanValue false true r)), snd (scanValue false true r)).
Proof. destruct start; cbn; destruct (scanValue false true r); reflexivity. Qed.

Lemma scanValue_second_dot (r : string) (start : bool) :
  scanValue start true (String "." r) = ("", String "." r).
Proof. destruct start; reflexivity. Qed.

Lemma scanValue_minus (r : string) (seenDot : bool) :
  scanValue false seenDot (String "-" r) = ("", String "-" r).
Proof. destruct seenDot; reflexivity. Qed.

Lemma scanValue_sign (r : string) (seenDot : bool) :
  scanValue true seenDot (String "-" r)
  = (String "-" (fst (scanValue false seenDot r)), snd (scanValue false seenDot r)).
Proof. destruct seenDot; cbn; destruct (scanValue false _ r); reflexivity. Qed.

Lemma scanValue_e (r : string) (start seenDot : bool) :
  scanValue start seenDot (String "e" r)
  = (String "e" (fst (scanValue true seenDot r)), snd (scanValue true seenDot r)).
Proof. destruct start, seenDot; cbn; destruct (scanValue true _ r); reflexivity. Qed.

Lemma scanValue_plus (r : string) (start seenDot : bool) :
  scanValue start seenDot (String "+" r) = ("", String "+" r).
Proof. destruct start, seenDot; reflexivity. Qed.

(** X7: where the scan of a value stops.  For digit strings [a] and [b]:
    a second decimal point ends the value ("1.5.5" is 1.5 and then .5); a
    minus sign after a digit ends it ("1-2" is 1 and then -2); after an
    "e" a minus sign belongs to the value but a plus sign ends it; a signed
    number with a negative exponent is read whole up to a character that
    cannot belong to a value. *)
Theorem value_scan_stops (a b r : string) :
  allChars isDigitChar a = true ->
  allChars isDigitChar b = true ->
  scanValue true false (a ++ "." ++ b ++ "." ++ r) = (a ++ "." ++ b, "." ++ r)
  /\ (a <> "" -> scanValue true false (a ++ "-" ++ r) = (a, "-" ++ r))
  /\ (a <> "" -> scanValue true false (a ++ "e+" ++ r) = (a ++ "e", "+" ++ r))
  /\ (terminated r = true ->
      scanValue true false ("-" ++ a ++ "e-" ++ b ++ r) = ("-" ++ a ++ "e-" ++ b, r)).
Proof.
  intros Ha Hb.
  assert (Hdot : forall start,
             scanValue start false (String "." (b ++ String "." r))
             = (String "." b, String "." r)).
  { intros start. rewrite scanValue_dot, (scanValue_digits b _ false true Hb).
    destruct b; rewrite ?scanValue_second_dot; cbn [fst snd];
      rewrite ?append_nil_r; reflexivity. }
  assert (Hexp : forall start,
             terminated r = true ->
             scanValue start false (String "e" (String "-" (b ++ r)))
             = (String "e" (String "-" b), r)).
  { intros start Hr.
    rewrite scanValue_e, scanValue_sign, (scanValue_digits b _ false false Hb).
    destruct b; rewrite ?(scanValue_terminated r _ _ Hr); cbn [fst snd];
      rewrite ?append_nil_r; reflexivity. }
  repeat split.
  - change ("." ++ b ++ "." ++ r) with (String "." (b ++ String "." r)).
    rewrite (scanValue_digits a _ true false Ha).
    destruct a; rewrite Hdot; reflexivity.
  - intros Hne. change ("-" ++ r) with (String "-" r).
    rewrite (scanValue_digits a _ true false Ha).
    destruct a; [congruence |]. rewrite scanValue_minus. cbn [fst snd].
    rewrite append_nil_r. reflexivity.
  - intros Hne. change ("e+" ++ r) with (String "e" (String "+" r)).
    rewrite (scanValue_digits a _ true false Ha).
    destruct a; [congruence |]. rewrite scanValue_e, scanValue_plus. reflexivity.
  - intros Hr. change ("-" ++ a ++ "e-" ++ b ++ r)
      with (String "-" (a ++ String "e" (String "-" (b ++ r)))).
    rewrite scanValue_sign, (scanValue_digits a _ false false Ha).
    destruct a; rewrite (Hexp _ Hr); cbn [fst snd];
      repeat (rewrite append_assoc || rewrite append_cons); reflexivity.
Qed.

(** ** What the rounds of the curve and line commands emit *)

Lemma consumePoint_relative (st st' : @PState num) p :
  consumePoint_ true st = Ok (p, st') ->
  exists cur, currentPoint st = Some cur /\ offsetFrom cur p.
Proof.
  unfold consumePoint_. intros Hrun.
  bind_inv Hrun x0 st1 E1. bind_inv Hrun y0 st2 E2.
  apply consumeValue_spec in E1. apply consumeValue_spec in E2.
  destruct E1 as (_ & S1 & a & ->), E2 as (_ & S2 & b & ->).
  destruct (sameVars_trans _ _ _ S1 S2) as (Hcur & _).
  unfold bind, gets, ret, throw in Hrun. rewrite Hcur in Hrun.
  destruct (currentPoint st) as [cur |]; [| discriminate].
  inversion Hrun; subst. exists cur. split; [reflexivity |]. exists a, b. reflexivity.
Qed.

(** X8: an S/s round that finds a current control point [ctl] emits a
    cubic whose first control point is the reflection of [ctl] through the
    current point, [cur + (cur - ctl)] on each axis; it leaves its second
    control point in the slot. *)
Theorem smooth_cubic_reflects_control_point (relative : bool) (st st' : @PState num)
    (ctl : Point) :
  currentControlPoint st = Some ctl ->
  smoothBezierBody relative tt st = Ok (tt, st') ->
  exists cur cp2 end_,
    currentPoint st = Some cur
    /\ commands st'
       = (commands st ++ [BezierCurveCommand (Some cur) (reflect cur ctl) cp2 end_])%list
    /\ currentControlPoint st' = Some cp2
    /\ currentPoint st' = Some end_.
Proof.
  intros Hctl Hrun. pose proof (sameVars_refl st) as Hs.
  unfold smoothBezierBody in Hrun. do 2 consume Hrun Hs.
  destruct Hs as (Hc & Hm & Hk & _).
  unfold bind, gets, modify, ret, throw in Hrun. rewrite Hk, Hctl, Hc in Hrun.
  destruct (currentPoint st) as [cur |]; [| discriminate].
  inversion Hrun; subst. cbn. rewrite Hm. eexists _, _, _. repeat split.
Qed.

(** X9: a T/t round emits a quadratic from the current point whose control
    point is the reflection of the current control point through the
    current point when there is one, and the end point of the round when
    there is none; it leaves that control point in the slot. *)
Theorem smooth_quadratic_control_point (relative : bool) (st st' : @PState num) :
  smoothQuadraticBody relative tt st = Ok (tt, st') ->
  exists cp end_,
    commands st' = (commands st ++ [QuadraticCurveCommand (currentPoint st) cp end_])%list
    /\ currentControlPoint st' = Some cp
    /\ currentPoint st' = Some end_
    /\ match currentControlPoint st with
       | Some ctl => exists cur, currentPoint st = Some cur /\ cp = reflect cur ctl
       | None => cp = end_
       end.
Proof.
  intros Hrun. pose proof (sameVars_refl st) as Hs.
  unfold smoothQuadraticBody in Hrun. consume Hrun Hs.
  destruct Hs as (Hc & Hm & Hk & _).
  unfold bind, gets, modify, ret, throw in Hrun. rewrite Hk, Hc in Hrun.
  destruct (currentControlPoint st) as [ctl |].
  - destruct (currentPoint st) as [cur |]; [| discriminate].
    inversion Hrun; subst. cbn. rewrite Hm. eexists _, _. repeat split.
    exists cur. split; reflexivity.
  - inversion Hrun; subst. cbn. rewrite Hm. eexists _, _. repeat split.
Qed.

(** X10: an H/h round emits a Line that keeps the y of the current point
    and a V/v round one that keeps its x; the other coordinate is the value
    read, added to the coordinate of the current point when the command is
    relative. *)
Theorem axis_line_keeps_other_coordinate (horizontal relative : bool)
    (st st' : @PState num) :
  (if horizontal then horizontalBody relative tt st else verticalBody relative tt st)
  = Ok (tt, st') ->
  exists cur v,
    let moved := fun old => if relative then jsAdd (parseFloat v) old else parseFloat v in
    let end_ := if horizontal then mkPoint (moved (x cur)) (y cur)
                else mkPoint (x cur) (moved (y cur)) in
    currentPoint st = Some cur
    /\ commands st' = (commands st ++ [LineCommand (Some cur) end_])%list
    /\ currentPoint st' = Some end_.
Proof.
  intros Hrun. destruct horizontal.
  - unfold horizontalBody in Hrun. bind_inv Hrun x0 st1 E.
    apply consumeValue_spec in E. destruct E as (_ & (Hc & Hm & _) & v & ->).
    unfold bind, gets, modify, throw in Hrun. rewrite Hc in Hrun.
    destruct (currentPoint st) as [cur |]; [| discriminate].
    inversion Hrun; subst. cbn. rewrite Hm. exists cur, v.
    destruct relative; repeat split.
  - unfold verticalBody in Hrun. unfold bind at 1 in Hrun. unfold gets at 1 in Hrun.
    destruct (currentPoint st) as [cur |] eqn:Ecur; [| discriminate].
    bind_inv Hrun y0 st1 E.
    apply consumeValue_spec in E. destruct E as (_ & (Hc & Hm & _) & v & ->).
    unfold bind, gets, modify in Hrun.
    inversion Hrun; subst. cbn. rewrite Hm. exists cur, v.
    destruct relative; repeat split.
Qed.

(** X11: in a relative cubic (c) the two control points and the end point
    are all offsets from the same current point, the one at which the round
    started. *)
Theorem relative_cubic_offsets (st st' : @PState num) :
  bezierBody true tt st = Ok (tt, st') ->
  exists cur cp1 cp2 end_,
    currentPoint st = Some cur
    /\ offsetFrom cur cp1 /\ offsetFrom cur cp2 /\ offsetFrom cur end_
    /\ commands st' = (commands st ++ [BezierCurveCommand (Some cur) cp1 cp2 end_])%list
    /\ currentPoint st' = Some end_.
Proof.
  intros Hrun. unfold bezierBody in Hrun.
  bind_inv Hrun cp1 st1 E1. bind_inv Hrun cp2 st2 E2. bind_inv Hrun end_ st3 E3.
  destruct (consumePoint_relative _ _ _ E1) as (cur & Hcur & O1).
  destruct (consumePoint_relative _ _ _ E2) as (cur2 & Hcur2 & O2).
  destruct (consumePoint_relative _ _ _ E3) as (cur3 & Hcur3 & O3).
  apply consumePoint_spec in E1, E2, E3.
  destruct E1 as (_ & S1), E2 as (_ & S2), E3 as (_ & S3).
  pose proof (sameVars_trans _ _ _ S1 S2) as S12.
  destruct (sameVars_trans _ _ _ S12 S3) as (Hc3 & Hm3 & _).
  destruct S1 as (Hc1 & _), S12 as (Hc2 & _).
  assert (cur2 = cur) as -> by congruence.
  assert (cur3 = cur) as -> by congruence.
  unfold bind, gets, modify in Hrun. inversion Hrun; subst. cbn.
  rewrite Hm3, Hc3, Hcur. exists cur, cp1, cp2, end_. repeat split; assumption.
Qed.

(** X29: an A/a round emits an arc that starts at the current point, with
    its five parameters as read (the two flags are read as any other
    number) and the point read as end, an offset from the current point
    when the command is relative; it clears the control point. *)
Theorem arc_round (relative : bool) (st st' : @PState num) :
  arcBody relative tt st = Ok (tt, st') ->
  exists cur rx ry rot large sweep end_,
    currentPoint st = Some cur
    /\ (if relative then offsetFrom cur end_ else absolute end_)
    /\ commands st'
       = (commands st
          ++ [EllipticalArcCommand (x cur) (y cur)
                (parseFloat rx) (parseFloat ry) (parseFloat rot)
                (parseFloat large) (parseFloat sweep) (x end_) (y end_)])%list
    /\ currentPoint st' = Some end_
    /\ currentControlPoint st' = None.
Proof.
  intros Hrun. unfold arcBody in Hrun.
  bind_inv Hrun rx st1 E1. bind_inv Hrun ry st2 E2. bind_inv Hrun rot st3 E3.
  bind_inv Hrun la st4 E4. bind_inv Hrun sw st5 E5. bind_inv Hrun p st6 E6.
  apply consumeValue_spec in E1, E2, E3, E4, E5.
  destruct E1 as (_ & S1 & s1 & ->), E2 as (_ & S2 & s2 & ->), E3 as (_ & S3 & s3 & ->),
    E4 as (_ & S4 & s4 & ->), E5 as (_ & S5 & s5 & ->).
  pose proof (sameVars_trans _ _ _ (sameVars_trans _ _ _ (sameVars_trans _ _ _
                (sameVars_trans _ _ _ S1 S2) S3) S4) S5) as S15.
  assert (Hp : if relative then exists cur, currentPoint st5 = Some cur /\ offsetFrom cur p
               else absolute p).
  { destruct relative.
    - exact (consumePoint_relative _ _ _ E6).
    - exact (consumePoint_absolute _ _ _ E6). }
  apply consumePoint_spec in E6. destruct E6 as (_ & S6).
  destruct (sameVars_trans _ _ _ S15 S6) as (Hc & Hm & _).
  destruct S15 as (Hc5 & _).
  unfold bind, gets, modify, throw in Hrun. rewrite Hc in Hrun.
  destruct (currentPoint st) as [cur |] eqn:Ecur; [| discriminate].
  inversion Hrun; subst. cbn. rewrite Hm.
  exists cur, s1, s2, s3, s4, s5, p. split; [reflexivity |]. split.
  - destruct relative; [| exact Hp].
    destruct Hp as (cur' & Hcur' & Ho). rewrite Hc5 in Hcur'. inversion Hcur'; subst.
    exact Ho.
  - repeat split.
Qed.


(** ** The serializer on a concatenation *)

Lemma allTokens_app (a b : list (@DrawCommand num)) ta tb :
  allTokens a = Ok ta -> allTokens b = Ok tb -> allTokens (a ++ b)%list = Ok (ta ++ tb)%list.
Proof.
  revert ta. induction a as [| cmd a IH]; intros ta Ea Eb; cbn [allTokens app] in *.
  - inversion Ea; subst. exact Eb.
  - destruct (commandTokens cmd) as [ts | e |]; try discriminate.
    destruct (allTokens a) as [ts' | e |]; try discriminate.
    inversion Ea; subst. rewrite (IH ts' eq_refl Eb), <- app_assoc. reflexivity.
Qed.

Lemma joinStrings_app (sep : string) (l1 l2 : list string) :
  l1 <> [] -> l2 <> [] ->
  joinStrings sep (l1 ++ l2)%list = joinStrings sep l1 ++ sep ++ joinStrings sep l2.
Proof.
  induction l1 as [| s l1 IH]; intros H1 H2; [congruence |].
  destruct l1 as [| s' l1].
  - destruct l2 as [| t l2]; [congruence |]. reflexivity.
  - change (joinStrings sep ((s :: s' :: l1) ++ l2)%list)
      with (s ++ sep ++ joinStrings sep ((s' :: l1) ++ l2)%list).
    rewrite IH by (assumption || discriminate).
    change (joinStrings sep (s :: s' :: l1)) with (s ++ sep ++ joinStrings sep (s' :: l1)).
    rewrite !append_assoc. reflexivity.
Qed.

(** X12: [commandsToString] never throws, and it respects concatenation:
    the string of two non-empty command lists one after the other is the
    string of the first, a space, and the string of the second. *)
Theorem commandsToString_app (a b : list (@DrawCommand num)) :
  a <> [] -> b <> [] ->
  exists sa sb,
    commandsToString a = Ok sa
    /\ commandsToString b = Ok sb
    /\ commandsToString (a ++ b)%list = Ok (sa ++ " " ++ sb).
Proof.
  intros Ha Hb.
  destruct (allTokens_printed a) as (ta & Ea & _ & Hna & _).
  destruct (allTokens_printed b) as (tb & Eb & _ & Hnb & _).
  unfold commandsToString. rewrite Ea, Eb, (allTokens_app a b ta tb Ea Eb).
  eexists _, _. split; [reflexivity |]. split; [reflexivity |].
  rewrite map_app, joinStrings_app; [reflexivity | |];
    intros Hm; apply map_eq_nil in Hm; [exact (Hna Ha Hm) | exact (Hnb Hb Hm)].
Qed.


(** ** Characters after the end of a path *)

(** ** The run of pairs after the first M (C7) *)

Lemma nextToken_again s t r : nextToken s = (t, r) -> nextToken r = (t, r).
Proof.
  revert t r. induction s as [| c s IH]; intros t r Hn; simpl in Hn.
  - inversion Hn; subst. reflexivity.
  - destruct (isLower c) eqn:El; [inversion Hn; subst; simpl; rewrite El; reflexivity |].
    destruct (isUpper c) eqn:Eu;
      [inversion Hn; subst; simpl; rewrite El, Eu; reflexivity |].
    destruct (isValueStart c) eqn:Ev;
      [inversion Hn; subst; simpl; rewrite El, Eu, Ev; reflexivity |].
    apply IH. exact Hn.
Qed.

(** A value at the cursor: [consumeValue_] returns the number that
    [parseFloat] makes of the characters scanned and moves past them. *)
Lemma consumeValue_run (st : @PState num) r0 str r :
  nextToken (rest st) = (Value, r0) ->
  scanValue true false r0 = (str, r) ->
  consumeValue_ st
  = Ok (parseFloat str, setRest r (setCurrentToken Value (setRest r0 st)))
  /\ String.length r < String.length r0.
Proof.
  intros Hn Hs. unfold consumeValue_, bind, advanceToNextToken_. rewrite Hn. cbn.
  rewrite Hs.
  destruct (nextToken_Value _ _ Hn) as (c & r' & -> & Hv).
  pose proof (scanValue_nonempty c r' Hv) as Hne. rewrite Hs in Hne. simpl in Hne.
  apply scanValue_length in Hs.
  destruct str as [| c0 str]; [congruence |].
  split; [reflexivity |]. simpl in *. lia.
Qed.

Lemma consumeValue_stops (st : @PState num) t r0 :
  nextToken (rest st) = (t, r0) -> t <> Value ->
  consumeValue_ st = Throw (Error "Expected value").
Proof.
  intros Hn Ht. unfold consumeValue_, bind, advanceToNextToken_. rewrite Hn.
  destruct t; try reflexivity. congruence.
Qed.

Lemma moveBody_run (isFirst : bool) (st : @PState num) r1 str1 r2 r3 str2 r4 :
  nextToken (rest st) = (Value, r1) ->
  scanValue true false r1 = (str1, r2) ->
  nextToken r2 = (Value, r3) ->
  scanValue true false r3 = (str2, r4) ->
  moveBody false isFirst st
  = Ok (false, afterPair isFirst st r4 (mkPoint (parseFloat str1) (parseFloat str2))).
Proof.
  intros Hn1 Hs1 Hn2 Hs2. unfold moveBody, consumePoint_. unfold bind at 1 2.
  destruct (consumeValue_run st r1 str1 r2 Hn1 Hs1) as (-> & _).
  unfold bind at 1.
  destruct (consumeValue_run (setRest r2 (setCurrentToken Value (setRest r1 st)))
              r3 str2 r4 Hn2 Hs2) as (-> & _).
  destruct isFirst; reflexivity.
Qed.

Lemma moveBody_one_value (isFirst : bool) (st : @PState num) r1 str1 r2 t r3 :
  nextToken (rest st) = (Value, r1) ->
  scanValue true false r1 = (str1, r2) ->
  nextToken r2 = (t, r3) -> t <> Value ->
  moveBody false isFirst st = Throw (Error "Expected value").
Proof.
  intros Hn1 Hs1 Hn2 Ht. unfold moveBody, consumePoint_. unfold bind at 1 2.
  destruct (consumeValue_run st r1 str1 r2 Hn1 Hs1) as (-> & _).
  unfold bind at 1.
  rewrite (consumeValue_stops (setRest r2 (setCurrentToken Value (setRest r1 st))) t r3 Hn2 Ht).
  reflexivity.
Qed.

(** The loop of the M case on the values in front of it: a Move (in the
    first round) or a Line per pair, and "Expected value" when a value is
    left without its pair. *)
Lemma moveRun_reads fuel :
  forall fv (isFirst : bool) (st : @PState num),
    String.length (rest st) < fuel ->
    String.length (rest st) < fv ->
    match pairsOf (fst (valuesFrom fv (rest st))) with
    | Some pts =>
        exists st',
          whileValue fuel (moveBody false) isFirst st = Ok (tt, st')
          /\ commands st'
             = (commands st ++ (if isFirst then moveRunCommands (currentPoint st) pts
                                else lineRunCommands (currentPoint st) pts))%list
          /\ rest st' = snd (valuesFrom fv (rest st))
    | None => whileValue fuel (moveBody false) isFirst st = Throw (Error "Expected value")
    end.
Proof.
  induction fuel as [| f IH]; intros fv isFirst st Hfuel Hfv; [lia |].
  destruct fv as [| fv']; [lia |].
  destruct (nextToken (rest st)) as [t r1] eqn:Hn1.
  assert (Hw : whileValue (S f) (moveBody false) isFirst st
               = match t with
                 | Value => bind (moveBody false isFirst) (whileValue f (moveBody false))
                 | _ => ret tt
                 end (setCurrentToken t (setRest r1 st))).
  { cbn [whileValue]. unfold bind at 1. unfold advanceToNextToken_. rewrite Hn1.
    destruct t; reflexivity. }
  rewrite Hw. clear Hw. cbn [valuesFrom]. rewrite Hn1.
  assert (Hd : t = Value \/ t <> Value)
    by (destruct t; first [left; reflexivity | right; discriminate]).
  destruct Hd as [-> | Ht].
  2:{ assert (Hv : (let (t0, r) := (t, r1) in
                    match t0 with
                    | Value => let '(str, r') := scanValue true false r in
                               let '(vs, r'') := valuesFrom fv' r' in
                               (parseFloat str :: vs, r'')
                    | _ => ([], r)
                    end) = (@nil num, r1)) by (destruct t; try reflexivity; congruence).
      cbn in Hv |- *. rewrite Hv. cbn.
      exists (setCurrentToken t (setRest r1 st)).
      split; [destruct t; try reflexivity; congruence |].
      split; [| reflexivity]. destruct isFirst; cbn; rewrite app_nil_r; reflexivity. }
  cbn match.
  pose proof (nextToken_length _ _ _ Hn1) as L1.
  pose proof (nextToken_again _ _ _ Hn1) as Hn1'.
  destruct (scanValue true false r1) as [str1 r2] eqn:Hs1.
  destruct (consumeValue_run (setCurrentToken Value (setRest r1 st)) r1 str1 r2 Hn1' Hs1)
    as (_ & L2).
  destruct fv' as [| fv'']; [lia |]. cbn [valuesFrom].
  destruct (nextToken r2) as [t2 r3] eqn:Hn2.
  assert (Hd : t2 = Value \/ t2 <> Value)
    by (destruct t2; first [left; reflexivity | right; discriminate]).
  destruct Hd as [-> | Ht].
  2:{ assert (Hv : (let (t0, r) := (t2, r3) in
                    match t0 with
                    | Value => let '(str, r') := scanValue true false r in
                               let '(vs, r'') := valuesFrom fv'' r' in
                               (parseFloat str :: vs, r'')
                    | _ => ([], r)
                    end) = (@nil num, r3)) by (destruct t2; try reflexivity; congruence).
      cbn in Hv |- *. rewrite Hv. cbn. unfold bind.
      rewrite (moveBody_one_value isFirst (setCurrentToken Value (setRest r1 st))
                 r1 str1 r2 t2 r3 Hn1' Hs1 Hn2 Ht). reflexivity. }
  cbn match.
  pose proof (nextToken_length _ _ _ Hn2) as L3.
  pose proof (nextToken_again _ _ _ Hn2) as Hn2'.
  destruct (scanValue true false r3) as [str2 r4] eqn:Hs2.
  destruct (consumeValue_run (setRest r3 st) r3 str2 r4 Hn2' Hs2) as (_ & L4).
  unfold bind.
  rewrite (moveBody_run isFirst (setCurrentToken Value (setRest r1 st))
             r1 str1 r2 r3 str2 r4 Hn1' Hs1 Hn2 Hs2).
  set (p := mkPoint (parseFloat str1) (parseFloat str2)).
  set (st1 := setCurrentToken Value (setRest r1 st)).
  specialize (IH fv'' false (afterPair isFirst st1 r4 p)).
  cbn [rest afterPair] in IH.
  destruct (valuesFrom fv'' r4) as [vs r5] eqn:Hv.
  cbn [fst snd pairsOf] in *.
  assert (L5 : String.length r4 < f) by (simpl in *; lia).
  assert (L6 : String.length r4 < fv'') by (simpl in *; lia).
  specialize (IH L5 L6).
  destruct (pairsOf vs) as [pts |].
  - destruct IH as (st' & Hrun & Hcmds & Hrest). exists st'.
    split; [exact Hrun |]. split; [| exact Hrest].
    rewrite Hcmds. cbn. rewrite <- app_assoc. destruct isFirst; reflexivity.
  - exact IH.
Qed.

(** What has been pushed stays: a loop, a command and the main loop only
    append to the commands. *)
Lemma whileValue_appends {L} (body : L -> @Parser num L) :
  (forall l st l' st', body l st = Ok (l', st') ->
                       exists c, commands st' = (commands st ++ [c])%list) ->
  forall fuel l st st',
    whileValue fuel body l st = Ok (tt, st') ->
    exists more, commands st' = (commands st ++ more)%list.
Proof.
  intros Hbody fuel. induction fuel as [| f IH]; intros l st st' Hrun; [discriminate |].
  cbn [whileValue] in Hrun. bind_inv Hrun t st1 E.
  apply advance_spec in E. destruct E as (_ & _ & _ & Hc & _).
  destruct t; try (inversion Hrun; subst; exists []; rewrite Hc, app_nil_r; reflexivity).
  bind_inv Hrun l' st2 Eb. destruct (Hbody _ _ _ _ Eb) as (c & Hc2).
  destruct (IH _ _ _ Hrun) as (more & Hm). exists (c :: more).
  rewrite Hm, Hc2, Hc, <- app_assoc. reflexivity.
Qed.

Lemma command_appends (c : ascii) (relative : bool) (st st' : @PState num) :
  command c relative st = Ok (tt, st') ->
  exists more, commands st' = (commands st ++ more)%list.
Proof.
  intros Hrun. unfold command in Hrun.
  assert (Hloop : forall (body : unit -> @Parser num unit),
             pushesOne body ->
             bind (requireCurrentPoint "Current point does not exist")
                  (fun _ => repeatOnValues body tt) st = Ok (tt, st') ->
             exists more, commands st' = (commands st ++ more)%list).
  { intros body Hb Hr. bind_inv Hr p st1 E. apply requireCurrentPoint_inv in E.
    destruct E as (-> & _). unfold repeatOnValues in Hr.
    eapply whileValue_appends; [| exact Hr].
    intros l s0 l' s1 Hs. destruct (Hb _ _ _ _ Hs) as (c0 & Hc0 & _). eauto. }
  destruct (isChar c "M" "m").
  { bind_inv Hrun cur st1 E. unfold gets in E. inversion E; subst; clear E.
    assert (Hr : repeatOnValues (moveBody relative) true st1 = Ok (tt, st'))
      by (destruct relative, (currentPoint st1); try discriminate; exact Hrun).
    unfold repeatOnValues in Hr.
    eapply whileValue_appends; [| exact Hr].
    intros l s0 l' s1 Hs. destruct (moveBody_pushes _ _ _ _ _ Hs) as (c0 & Hc0 & _). eauto. }
  destruct (isChar c "C" "c"); [exact (Hloop _ (bezierBody_pushesOne relative) Hrun) |].
  destruct (isChar c "S" "s"); [exact (Hloop _ (smoothBezierBody_pushesOne relative) Hrun) |].
  destruct (isChar c "Q" "q"); [exact (Hloop _ (quadraticBody_pushesOne relative) Hrun) |].
  destruct (isChar c "T" "t");
    [exact (Hloop _ (smoothQuadraticBody_pushesOne relative) Hrun) |].
  destruct (isChar c "L" "l"); [exact (Hloop _ (lineBody_pushesOne relative) Hrun) |].
  destruct (isChar c "H" "h"); [exact (Hloop _ (horizontalBody_pushesOne relative) Hrun) |].
  destruct (isChar c "V" "v"); [exact (Hloop _ (verticalBody_pushesOne relative) Hrun) |].
  destruct (isChar c "A" "a"); [exact (Hloop _ (arcBody_pushesOne relative) Hrun) |].
  destruct (isChar c "Z" "z").
  { bind_inv Hrun p st1 E. apply requireCurrentPoint_inv in E. destruct E as (-> & _).
    unfold bind, gets, modify in Hrun. inversion Hrun; subst; clear Hrun.
    eexists. reflexivity. }
  inversion Hrun; subst. exists []. rewrite app_nil_r. reflexivity.
Qed.

Lemma step_appends (st st' : @PState num) :
  step st = Ok (tt, st') -> exists more, commands st' = (commands st ++ more)%list.
Proof.
  unfold step. intros Hrun. bind_inv Hrun c st1 E.
  assert (Hv : commands st1 = commands st).
  { unfold consumeCommand_ in E. bind_inv E t st0 E0.
    apply advance_spec in E0. destruct E0 as (_ & _ & _ & Hc & _).
    destruct t; try discriminate;
      (destruct (rest st0); [discriminate |]; inversion E; subst; exact Hc). }
  bind_inv Hrun tok st2 E2. unfold gets in E2. inversion E2; subst; clear E2.
  destruct (command_appends _ _ _ _ Hrun) as (more & Hm). exists more.
  rewrite Hm, Hv. reflexivity.
Qed.

Lemma mainLoop_appends fuel (st st' : @PState num) :
  mainLoop fuel st = Ok (tt, st') -> exists more, commands st' = (commands st ++ more)%list.
Proof.
  revert st. induction fuel as [| f IH]; intros st Hrun; [discriminate |].
  cbn [mainLoop] in Hrun.
  destruct (rest st); [inversion Hrun; subst; exists []; rewrite app_nil_r; reflexivity |].
  bind_inv Hrun u st1 E. destruct u.
  destruct (step_appends _ _ E) as (m1 & H1). destruct (IH _ Hrun) as (m2 & H2).
  exists (m1 ++ m2)%list. rewrite H2, H1, <- app_assoc. reflexivity.
Qed.

(** C7, as amended: where the first command letter of a path string is M
    or m.  A lower-case m throws "Current point must be set for a relative
    command".  After an upper-case M the values that follow are read two by
    two: the M round of the main loop succeeds and emits the first pair as
    a Move without start point and every further pair of the run as a Line
    from the pair before it, each pair as read, nothing added; these are
    the first commands of whatever [parseCommands] returns, and all of them
    when the string ends with the run.  A run that ends on a value without
    its pair throws "Expected value". *)
Theorem first_move_run (pathString : string) (t : Token) (c : ascii) (r : string) :
  nextToken pathString = (t, String c r) ->
  isChar c "M" "m" = true ->
  if (c =? "m")%char
  then parseCommands (num:=num) pathString
       = Throw (Error "Current point must be set for a relative command")
  else
    match pairsOf (fst (valuesOf r)) with
    | Some pts =>
        (exists st',
            step (initial pathString) = Ok (tt, st')
            /\ commands st' = moveRunCommands None pts
            /\ rest st' = snd (valuesOf r))
        /\ (snd (valuesOf r) = "" -> parseCommands pathString = Ok (moveRunCommands None pts))
        /\ (forall cmds, parseCommands pathString = Ok cmds ->
                         exists more, cmds = (moveRunCommands None pts ++ more)%list)
    | None => parseCommands (num:=num) pathString = Throw (Error "Expected value")
    end.
Proof.
  intros Hn Hc.
  assert (Hrest : exists c0 r0, pathString = String c0 r0).
  { destruct pathString as [| c0 r0]; [discriminate | eauto]. }
  destruct Hrest as (c0 & r0 & Hps).
  assert (Hloop : parseCommands (num:=num) pathString
                  = match step (initial pathString) with
                    | Ok (_, st1) =>
                        match mainLoop (String.length pathString) st1 with
                        | Ok (_, st) => Ok (commands st)
                        | Throw e => Throw e
                        | OutOfFuel => OutOfFuel
                        end
                    | Throw e => Throw e
                    | OutOfFuel => OutOfFuel
                    end).
  { unfold parseCommands.
    rewrite (mainLoop_step (String.length pathString) (initial pathString) c0 r0)
      by (rewrite Hps; reflexivity).
    destruct (step (initial pathString)) as [[u st1] | e |]; reflexivity. }
  assert (Hletter : isLower c || isUpper c = true).
  { unfold isChar in Hc. apply orb_true_iff in Hc.
    destruct Hc as [Hc | Hc]; apply Ascii.eqb_eq in Hc; subst c; reflexivity. }
  pose proof (step_on_letter (initial pathString) t c r Hn Hletter) as Hstep.
  unfold isChar in Hc. apply orb_true_iff in Hc.
  destruct Hc as [Hc | Hc]; apply Ascii.eqb_eq in Hc; subst c.
  - (* M *)
    change (("M" =? "m")%char) with false. cbv iota.
    change (isLower "M") with false in Hstep. cbv iota in Hstep.
    change (command "M" false) with
      (bind (gets (@currentPoint num)) (fun _ => repeatOnValues (moveBody false) true))
      in Hstep.
    unfold bind at 1 in Hstep. unfold gets, repeatOnValues in Hstep. cbn [rest setRest] in Hstep.
    pose proof (moveRun_reads (S (String.length r)) (S (String.length r)) true
                  (setRest r (setCurrentToken AbsoluteCommand
                                (setRest (String "M" r) (initial pathString))))) as Hrun.
    cbn [rest setRest] in Hrun. specialize (Hrun (Nat.lt_succ_diag_r _) (Nat.lt_succ_diag_r _)).
    fold (valuesOf r) in Hrun.
    destruct (pairsOf (fst (valuesOf r))) as [pts |].
    + destruct Hrun as (st' & Hw & Hcmds & Hr). cbn in Hcmds.
      rewrite Hw in Hstep.
      split; [exists st'; auto |]. rewrite Hloop, Hstep. split.
      * intros Hend. rewrite Hend in Hr. rewrite Hps. cbn [String.length mainLoop].
        rewrite Hr, Hcmds. reflexivity.
      * intros cmds Hp.
        destruct (mainLoop (String.length pathString) st') as [[[] st2] | e |] eqn:Em;
          try discriminate.
        inversion Hp; subst cmds. destruct (mainLoop_appends _ _ _ Em) as (more & Hm).
        exists more. rewrite Hm, Hcmds. reflexivity.
    + rewrite Hrun in Hstep. rewrite Hloop, Hstep. reflexivity.
  - (* m *)
    change (("m" =? "m")%char) with true. cbv iota.
    change (isLower "m") with true in Hstep. cbv iota in Hstep.
    rewrite relative_move_needs_current_point in Hstep by reflexivity.
    rewrite Hloop, Hstep. reflexivity.
Qed.


Section Trailing.

Variable seps : string.
Hypothesis seps_skipped : allChars isSkipped seps = true.

#[local] Abbreviation ext := (@extended num seps).
#[local] Abbreviation carried := (@carries num).

Lemma nextToken_all_skipped : nextToken seps = (EOF, "").
Proof.
  pose proof (nextToken_skipped seps "" seps_skipped) as E.
  rewrite append_nil_r in E. exact E.
Qed.

Lemma terminated_seps : terminated seps = true.
Proof.
  pose proof seps_skipped as E. destruct seps as [| c r]; [reflexivity |].
  simpl in *. apply andb_true_iff in E. destruct E as (E & _).
  revert E. unfold isSkipped, endsValue, isValueStart.
  destruct c as [[] [] [] [] [] [] [] []]; vm_compute; intros E;
    first [discriminate E | reflexivity].
Qed.

Lemma nextToken_EOF s t r : nextToken s = (t, r) -> t = EOF -> r = "".
Proof.
  revert t r. induction s as [| c s IH]; intros t r Hn Ht; simpl in Hn.
  - inversion Hn; reflexivity.
  - destruct (isLower c); [inversion Hn; subst; discriminate |].
    destruct (isUpper c); [inversion Hn; subst; discriminate |].
    destruct (isValueStart c); [inversion Hn; subst; discriminate |].
    eapply IH; eassumption.
Qed.

Lemma nextToken_ext (s : string) :
  nextToken (s ++ seps)
  = match nextToken s with
    | (EOF, _) => (EOF, "")
    | (t, r) => (t, r ++ seps)
    end.
Proof.
  induction s as [| c s IH].
  - change ("" ++ seps) with seps. rewrite nextToken_all_skipped. reflexivity.
  - rewrite append_cons. cbn [nextToken].
    destruct (isLower c); [reflexivity |]. destruct (isUpper c); [reflexivity |].
    destruct (isValueStart c); [reflexivity |]. exact IH.
Qed.

Lemma scanValue_ext (s : string) (start seenDot : bool) :
  scanValue start seenDot (s ++ seps)
  = (fst (scanValue start seenDot s), snd (scanValue start seenDot s) ++ seps).
Proof.
  revert start seenDot. induction s as [| c s IH]; intros start seenDot.
  - change ("" ++ seps) with seps. rewrite (scanValue_terminated _ _ _ terminated_seps).
    reflexivity.
  - rewrite append_cons. cbn [scanValue].
    match goal with |- (if ?b then _ else _) = _ => destruct b end; [reflexivity |].
    rewrite IH. destruct (scanValue _ _ s). reflexivity.
Qed.

Lemma carries_ret {A} (a : A) : carried seps (@ret num A a).
Proof. intros st. left. reflexivity. Qed.

Lemma carries_throw {A} e : carried seps (@throw num A e).
Proof. intros st. reflexivity. Qed.

Lemma carries_gets {A} (f : @PState num -> A) :
  (forall st, f (ext st) = f st) -> carried seps (gets f).
Proof. intros Hf st. left. unfold gets. rewrite Hf. reflexivity. Qed.

Lemma carries_modify (f : @PState num -> @PState num) :
  (forall st, f (ext st) = ext (f st)) -> carried seps (modify f).
Proof. intros Hf st. left. unfold modify. rewrite Hf. reflexivity. Qed.

Lemma carries_bind {A B} (m : @Parser num A) (k : A -> @Parser num B) :
  carried seps m -> (forall a, carried seps (k a)) -> (forall a, restLe (k a)) ->
  carried seps (bind m k).
Proof.
  intros Hm Hk Hle st. unfold bind. specialize (Hm st).
  destruct (m st) as [[a st1] | e |] eqn:E; [| rewrite Hm; reflexivity | exact I].
  destruct Hm as [Hm | (Hr & Hm)]; rewrite Hm.
  - exact (Hk a st1).
  - destruct (k a st1) as [[b st2] | e |] eqn:Ek; try reflexivity.
    right. split; [| reflexivity].
    apply Hle in Ek. rewrite Hr in Ek. simpl in Ek.
    destruct (rest st2); [reflexivity | simpl in Ek; lia].
Qed.

Lemma carries_advance : carried seps advanceToNextToken_.
Proof.
  intros st. unfold advanceToNextToken_. cbn [extended setRest rest].
  rewrite nextToken_ext. destruct (nextToken (rest st)) as [t r] eqn:Hn.
  destruct t; try (left; reflexivity).
  right. rewrite (nextToken_EOF _ _ _ Hn eq_refl). split; reflexivity.
Qed.

Lemma carries_consumeValue : carried seps consumeValue_.
Proof.
  intros st. unfold consumeValue_, bind.
  pose proof (carries_advance st) as Ha.
  destruct (advanceToNextToken_ st) as [[t st1] | e |] eqn:E; try discriminate.
  - destruct Ha as [Ha | (Hr & Ha)]; rewrite Ha.
    + destruct t; try reflexivity.
      cbn [extended setRest rest]. rewrite scanValue_ext.
      destruct (scanValue true false (rest st1)) as [str r]. cbn [fst snd].
      destruct str; [reflexivity |]. left. reflexivity.
    + destruct t; try reflexivity.
      rewrite Hr. cbn. reflexivity.
  - unfold advanceToNextToken_ in E. destruct (nextToken (rest st)); discriminate.
  - exact I.
Qed.

Lemma nextToken_at_end s t : nextToken s = (t, "") -> t = EOF.
Proof.
  induction s as [| c s IH]; simpl; intros Hn.
  - inversion Hn; reflexivity.
  - destruct (isLower c); [discriminate |]. destruct (isUpper c); [discriminate |].
    destruct (isValueStart c); [discriminate |]. auto.
Qed.

Lemma carries_consumeCommand : carried seps consumeCommand_.
Proof.
  intros st. unfold consumeCommand_, bind.
  pose proof (carries_advance st) as Ha.
  destruct (advanceToNextToken_ st) as [[t st1] | e |] eqn:E; try discriminate.
  - destruct Ha as [Ha | (Hr & Ha)]; rewrite Ha.
    + apply advance_spec in E. destruct E as (Hn & _).
      destruct t; try reflexivity;
        (destruct (rest st1) as [| c r] eqn:Er;
         [ apply nextToken_at_end in Hn; discriminate
         | cbn [extended setRest rest]; rewrite Er, append_cons; left; reflexivity ]).
    + destruct t; try reflexivity; rewrite Hr; reflexivity.
  - unfold advanceToNextToken_ in E. destruct (nextToken (rest st)); discriminate.
  - exact I.
Qed.

(** Splits a goal about a chain of binds into goals about its links. *)
Ltac carry_tac :=
  repeat first
    [ apply carries_ret
    | apply carries_throw
    | apply carries_consumeValue
    | apply carries_advance
    | apply carries_gets; intros ?; reflexivity
    | apply carries_modify; intros ?; reflexivity
    | apply carries_bind; [| intros ? | intros ?; solve [rest_tac]]
    | match goal with
      | |- carries _ (match ?a with _ => _ end) => destruct a
      | |- carries _ (if ?a then _ else _) => destruct a
      end ].

Lemma carries_consumePoint relative : carried seps (consumePoint_ relative).
Proof. unfold consumePoint_. carry_tac. Qed.

Lemma carries_moveBody relative b : carried seps (moveBody relative b).
Proof. pose proof (carries_consumePoint relative). unfold moveBody. carry_tac; assumption. Qed.

Lemma carries_bezierBody relative u : carried seps (bezierBody relative u).
Proof. pose proof (carries_consumePoint relative). unfold bezierBody. carry_tac; assumption. Qed.

Lemma carries_smoothBezierBody relative u : carried seps (smoothBezierBody relative u).
Proof.
  pose proof (carries_consumePoint relative). unfold smoothBezierBody. carry_tac; assumption.
Qed.

Lemma carries_quadraticBody relative u : carried seps (quadraticBody relative u).
Proof.
  pose proof (carries_consumePoint relative). unfold quadraticBody. carry_tac; assumption.
Qed.

Lemma carries_smoothQuadraticBody relative u :
  carried seps (smoothQuadraticBody relative u).
Proof.
  pose proof (carries_consumePoint relative). unfold smoothQuadraticBody.
  carry_tac; assumption.
Qed.

Lemma carries_lineBody relative u : carried seps (lineBody relative u).
Proof. pose proof (carries_consumePoint relative). unfold lineBody. carry_tac; assumption. Qed.

Lemma carries_horizontalBody relative u : carried seps (horizontalBody relative u).
Proof. unfold horizontalBody. carry_tac. Qed.

Lemma carries_verticalBody relative u : carried seps (verticalBody relative u).
Proof. unfold verticalBody. carry_tac. Qed.

Lemma carries_arcBody relative u : carried seps (arcBody relative u).
Proof. pose proof (carries_consumePoint relative). unfold arcBody. carry_tac; assumption. Qed.

Lemma carries_whileValue {L} (body : L -> @Parser num L) :
  (forall l, carried seps (body l)) -> (forall l, restLt (body l)) ->
  forall fuel l, carried seps (whileValue fuel body l).
Proof.
  intros Hb Hlt fuel. induction fuel as [| f IH]; intros l; [intros st; exact I |].
  cbn [whileValue]. apply carries_bind; [apply carries_advance | |].
  - intros t. destruct t; try apply carries_ret.
    apply carries_bind; [apply Hb | exact IH |].
    intros l'. apply whileValue_restLe. exact Hlt.
  - intros t. destruct t; try apply restLe_ret.
    apply restLe_bind; [apply restLt_restLe, Hlt |].
    intros l'. apply whileValue_restLe. exact Hlt.
Qed.

(** A loop that has ended ends the same way on more fuel. *)
Lemma whileValue_more_fuel {L} (body : L -> @Parser num L) fuel1 :
  forall fuel2 l st,
    fuel1 <= fuel2 -> whileValue fuel1 body l st <> OutOfFuel ->
    whileValue fuel2 body l st = whileValue fuel1 body l st.
Proof.
  induction fuel1 as [| f1 IH]; intros fuel2 l st Hle Hne; [exfalso; apply Hne; reflexivity |].
  destruct fuel2 as [| f2]; [lia |].
  cbn [whileValue] in *. unfold bind at 1 3. unfold bind at 1 in Hne.
  destruct (advanceToNextToken_ st) as [[t st1] | e |]; try reflexivity.
  destruct t; try reflexivity.
  unfold bind in *. destruct (body l st1) as [[l' st2] | e |]; try reflexivity.
  apply IH; [lia | exact Hne].
Qed.

Lemma carries_repeatOnValues {L} (body : L -> @Parser num L) l :
  goodBody body -> (forall l, carried seps (body l)) ->
  carried seps (repeatOnValues body l).
Proof.
  intros (Hnf & Hlt) Hb st. unfold repeatOnValues.
  pose proof (carries_whileValue body Hb Hlt (S (String.length (rest st))) l st) as Hc.
  pose proof (whileValue_noFuelOut body Hnf Hlt (S (String.length (rest st))) l st
                (Nat.lt_succ_diag_r _)) as Hne.
  assert (Hle : S (String.length (rest st)) <= S (String.length (rest (ext st))))
    by (cbn [extended setRest rest]; rewrite length_append; lia).
  destruct (whileValue (S (String.length (rest st))) body l st) as [[a st1] | e |] eqn:E;
    [| | congruence].
  - destruct Hc as [Hc | (Hr & Hc)];
      rewrite (whileValue_more_fuel body _ _ l (ext st) Hle) by (rewrite Hc; discriminate);
      [left | right; split; [exact Hr |]]; exact Hc.
  - rewrite (whileValue_more_fuel body _ _ l (ext st) Hle) by (rewrite Hc; discriminate).
    exact Hc.
Qed.

Lemma carries_requireCurrentPoint msg : carried seps (requireCurrentPoint msg).
Proof. unfold requireCurrentPoint. carry_tac. Qed.

Lemma carries_command (c : ascii) (relative : bool) : carried seps (command c relative).
Proof.
  assert (Hloop : forall (body : unit -> @Parser num unit),
             goodBody body -> (forall u, carried seps (body u)) ->
             carried seps (bind (requireCurrentPoint "Current point does not exist")
                                (fun _ => repeatOnValues body tt))).
  { intros body Hg Hb. apply carries_bind; [apply carries_requireCurrentPoint | |]; intros p.
    - apply carries_repeatOnValues; assumption.
    - apply repeatOnValues_restLe. apply Hg. }
  unfold command.
  destruct (isChar c "M" "m").
  { apply carries_bind; [apply carries_gets; intros ?; reflexivity | |]; intros cur.
    - destruct relative, cur; try apply carries_throw;
        (apply carries_repeatOnValues;
         [apply moveBody_good | intros b; apply carries_moveBody]).
    - destruct relative, cur; try apply restLe_throw;
        apply repeatOnValues_restLe; apply moveBody_good. }
  destruct (isChar c "C" "c");
    [exact (Hloop _ (bezierBody_good relative) (carries_bezierBody relative)) |].
  destruct (isChar c "S" "s");
    [exact (Hloop _ (smoothBezierBody_good relative) (carries_smoothBezierBody relative)) |].
  destruct (isChar c "Q" "q");
    [exact (Hloop _ (quadraticBody_good relative) (carries_quadraticBody relative)) |].
  destruct (isChar c "T" "t");
    [exact (Hloop _ (smoothQuadraticBody_good relative)
              (carries_smoothQuadraticBody relative)) |].
  destruct (isChar c "L" "l");
    [exact (Hloop _ (lineBody_good relative) (carries_lineBody relative)) |].
  destruct (isChar c "H" "h");
    [exact (Hloop _ (horizontalBody_good relative) (carries_horizontalBody relative)) |].
  destruct (isChar c "V" "v");
    [exact (Hloop _ (verticalBody_good relative) (carries_verticalBody relative)) |].
  destruct (isChar c "A" "a");
    [exact (Hloop _ (arcBody_good relative) (carries_arcBody relative)) |].
  destruct (isChar c "Z" "z"); [| apply carries_ret].
  apply carries_bind; [apply carries_requireCurrentPoint | | intros ?; solve [rest_tac]].
  intros p. carry_tac.
Qed.

Lemma carries_step : carried seps step.
Proof.
  unfold step. apply carries_bind; [apply carries_consumeCommand | |]; intros c.
  - apply carries_bind; [apply carries_gets; intros ?; reflexivity | |]; intros tok.
    + apply carries_command.
    + apply command_restLe.
  - apply restLe_bind; [apply restLe_gets | intros tok; apply command_restLe].
Qed.

Lemma mainLoop_at_end fuel (st : @PState num) :
  rest st = "" -> mainLoop (S fuel) st = Ok (tt, st).
Proof. intros E. cbn [mainLoop]. rewrite E. reflexivity. Qed.

Lemma mainLoop_extended fuel :
  forall fuel' (st : @PState num),
    String.length (rest st) < fuel ->
    String.length (rest st) + String.length seps < fuel' ->
    match mainLoop fuel st with
    | Ok (_, st') =>
        (exists st'', mainLoop fuel' (ext st) = Ok (tt, st'') /\ commands st'' = commands st')
        \/ mainLoop fuel' (ext st) = Throw (Error "Expected command")
    | Throw e => mainLoop fuel' (ext st) = Throw e
    | OutOfFuel => True
    end.
Proof.
  induction fuel as [| f IH]; intros fuel' st Hf Hf'; [lia |].
  destruct fuel' as [| f']; [lia |].
  destruct (rest st) as [| c r] eqn:Er.
  - rewrite (mainLoop_at_end f st Er).
    assert (Hn : nextToken (rest (ext st)) = (EOF, ""))
      by (cbn [extended setRest rest]; rewrite Er; exact nextToken_all_skipped).
    destruct (rest (ext st)) as [| c s] eqn:Hr.
    + left. exists (ext st). split; [| reflexivity].
      apply mainLoop_at_end. exact Hr.
    + right. rewrite (mainLoop_step f' (ext st) c s Hr).
      rewrite (step_expects_command (ext st) EOF "");
        [reflexivity | rewrite Hr; exact Hn | right; reflexivity].
  - assert (Hr : rest (ext st) = String c (r ++ seps))
      by (cbn [extended setRest rest]; rewrite Er; reflexivity).
    rewrite (mainLoop_step f st c r Er), (mainLoop_step f' (ext st) c (r ++ seps) Hr).
    pose proof (carries_step st) as Hc.
    destruct (step st) as [[[] st1] | e |] eqn:E; [| rewrite Hc; reflexivity | exact I].
    apply step_restLt in E. rewrite Er in E. simpl in E, Hf, Hf'.
    destruct Hc as [Hc | (Hr1 & Hc)]; rewrite Hc.
    + apply IH; [lia |]. lia.
    + destruct f as [| f0]; [lia |]. destruct f' as [| f0']; [lia |].
      rewrite (mainLoop_at_end f0 st1 Hr1), (mainLoop_at_end f0' st1 Hr1).
      left. exists st1. split; reflexivity.
Qed.

(** X13: characters that are neither letters nor the start of a value,
    appended to a path string, never change the commands: where
    [parseCommands] throws on the string it throws the same exception on
    the longer one, and where it returns commands it returns the same
    commands on the longer one or throws "Expected command" (as it does
    after a final z, where no loop over values is there to read up to the
    end of the string). *)
Theorem trailing_separators_keep_commands (s : string) :
  match parseCommands (num:=num) s with
  | Ok cmds =>
      parseCommands (s ++ seps) = Ok cmds
      \/ parseCommands (num:=num) (s ++ seps) = Throw (Error "Expected command")
  | Throw e => parseCommands (s ++ seps) = Throw e
  | OutOfFuel => True
  end.
Proof.
  unfold parseCommands.
  pose proof (mainLoop_extended (S (String.length s)) (S (String.length (s ++ seps)))
                (initial s)) as Hm.
  cbn [initial rest] in Hm. rewrite length_append in Hm.
  specialize (Hm (Nat.lt_succ_diag_r _) (Nat.lt_succ_diag_r _)).
  rewrite <- length_append in Hm.
  change (ext (initial s)) with (initial (num:=num) (s ++ seps)) in Hm.
  destruct (mainLoop (S (String.length s)) (initial s)) as [[[] st'] | e |].
  - destruct Hm as [(st'' & -> & ->) | ->]; [left | right]; reflexivity.
  - rewrite Hm. reflexivity.
  - exact I.
Qed.


End Trailing.


End ParserProperties.

(* ===================================================================== *)
(** * Runs of the parser and the serializer on decimal numbers            *)
(* ===================================================================== *)

Section ParserRuns.

Import PathParser.

#[local] Abbreviation P := decPoint.

(** C1, at the failing input "M1e21,0": the string parses to one Move, the
    Move prints as "M 1e+21 0" (toFixed and toString switch to exponent
    notation from 10^21 on), and the parser reads "1e" as a value, skips
    the "+", reads 21 as the second coordinate and then misses the second
    coordinate of a second pair: the round trip throws. *)
Theorem roundTrip_fails_on_exponent_notation :
  parseCommands "M1e21,0" = Ok [MoveCommand None (mkPoint (Fin 1 21) (Fin 0 0))]
  /\ commandsToString [MoveCommand None (mkPoint (Fin 1 21) (Fin 0 0))] = Ok "M 1e+21 0"
  /\ roundTrip (num:=dec) "M1e21,0" = Throw (Error "Expected value").
Proof. repeat split; vm_compute; reflexivity. Qed.

(** A round trip that works, for comparison. *)
Lemma roundTrip_example :
  roundTrip (num:=dec) "M0,0l10.03125,0 0,10zm5,5"
  = Ok [MoveCommand None (P 0 0);
        LineCommand (Some (P 0 0)) (mkPoint (Fin 10031 (-3)) (Fin 0 0));
        LineCommand (Some (mkPoint (Fin 10031 (-3)) (Fin 0 0)))
                    (mkPoint (Fin 10031 (-3)) (Fin 1 1));
        ClosePathCommand (Some (mkPoint (Fin 10031 (-3)) (Fin 1 1))) (Some (P 0 0));
        MoveCommand (Some (mkPoint (Fin 10031 (-3)) (Fin 1 1)))
                    (mkPoint (Fin 15031 (-3)) (Fin 15 0))].
Proof. vm_compute. reflexivity. Qed.

(** C5, as stated, fails on "M0,0S1,1 2,2": the first control point of the
    cubic is (1,1), the second control point, and not the end point (2,2). *)
Lemma smooth_cubic_first_control_point_is_not_end :
  parseCommands "M0,0S1,1 2,2"
  = Ok [MoveCommand None (P 0 0);
        BezierCurveCommand (Some (P 0 0)) (P 1 1) (P 1 1) (P 2 2)]
  /\ P 1 1 <> P 2 2.
Proof. split; [vm_compute; reflexivity | discriminate]. Qed.

Lemma smooth_cubic_without_control_point_witness :
  let st := {| rest := "1,1 2,2"; currentPoint := Some (P 0 0); currentToken := None;
               commands := [MoveCommand None (P 0 0)]; currentControlPoint := None;
               lastMovePoint := Some (P 0 0) |} in
  exists st',
    smoothBezierBody false tt st = Ok (tt, st')
    /\ exists cp2 end_,
         commands st' = (commands st ++ [BezierCurveCommand (currentPoint st) cp2 cp2 end_])%list
         /\ currentControlPoint st' = Some cp2
         /\ currentPoint st' = Some end_.
Proof.
  intros st. eexists. split; [vm_compute; reflexivity |].
  apply (smooth_cubic_without_control_point false st); [reflexivity | vm_compute; reflexivity].
Defined.

(** C6, at the failing input: the arc parameter 1.23456 is printed as it
    is, and the seven parameters come out as one comma-separated token; the
    same number as a coordinate of a Line is rounded to 1.235. *)
Theorem arc_parameters_are_not_rounded :
  commandsToString
    [MoveCommand None (P 0 0);
     EllipticalArcCommand (Fin 0 0) (Fin 0 0) (Fin 123456 (-5)) (Fin 1 0)
                          (Fin 0 0) (Fin 0 0) (Fin 1 0) (Fin 1 1) (Fin 1 1)]
  = Ok "M 0 0 A 1.23456,1,0,0,1,10,10"
  /\ commandsToString
       [MoveCommand None (P 0 0);
        LineCommand (Some (P 0 0)) (mkPoint (Fin 123456 (-5)) (Fin 1 0))]
     = Ok "M 0 0 L 1.235 1".
Proof. split; vm_compute; reflexivity. Qed.

(** C7, as stated, fails on "m1,2": a lower-case m as first command throws. *)
Lemma relative_move_first_throws :
  parseCommands (num:=dec) "m1,2"
  = Throw (Error "Current point must be set for a relative command").
Proof. vm_compute. reflexivity. Qed.

Lemma first_move_run_witness :
  let pts := [P 1 2; P 3 4; P 5 6] in
  pairsOf (fst (valuesOf (num:=dec) "1,2 3,4 5,6z")) = Some pts
  /\ (exists st',
         step (initial "M1,2 3,4 5,6z") = Ok (tt, st')
         /\ commands st' = [MoveCommand None (P 1 2);
                            LineCommand (Some (P 1 2)) (P 3 4);
                            LineCommand (Some (P 3 4)) (P 5 6)]
         /\ rest st' = "z")
  /\ (forall cmds, parseCommands "M1,2 3,4 5,6z" = Ok cmds ->
                   exists more, cmds = ([MoveCommand None (P 1 2);
                                         LineCommand (Some (P 1 2)) (P 3 4);
                                         LineCommand (Some (P 3 4)) (P 5 6)] ++ more)%list)
  /\ parseCommands "M1,2 3,4" = Ok [MoveCommand None (P 1 2);
                                    LineCommand (Some (P 1 2)) (P 3 4)]
  /\ parseCommands (num:=dec) "M1,2 3" = Throw (Error "Expected value")
  /\ parseCommands (num:=dec) " m1,2"
     = Throw (Error "Current point must be set for a relative command").
Proof.
  intros pts. split; [vm_compute; reflexivity |].
  pose proof (first_move_run (num:=dec) "M1,2 3,4 5,6z" AbsoluteCommand "M" "1,2 3,4 5,6z"
                eq_refl eq_refl) as H1.
  pose proof (first_move_run (num:=dec) "M1,2 3,4" AbsoluteCommand "M" "1,2 3,4"
                eq_refl eq_refl) as H2.
  pose proof (first_move_run (num:=dec) "M1,2 3" AbsoluteCommand "M" "1,2 3"
                eq_refl eq_refl) as H3.
  pose proof (first_move_run (num:=dec) " m1,2" RelativeCommand "m" "1,2"
                eq_refl eq_refl) as H4.
  cbv beta iota delta [Ascii.eqb Bool.eqb] in H1, H2, H3, H4.
  change (pairsOf (fst (valuesOf (num:=dec) "1,2 3,4 5,6z"))) with (Some pts) in H1.
  change (snd (valuesOf (num:=dec) "1,2 3,4 5,6z")) with "z" in H1.
  change (pairsOf (fst (valuesOf (num:=dec) "1,2 3,4"))) with (Some [P 1 2; P 3 4]) in H2.
  change (snd (valuesOf (num:=dec) "1,2 3,4")) with "" in H2.
  change (pairsOf (fst (valuesOf (num:=dec) "1,2 3"))) with (@None (list (@Point dec))) in H3.
  cbv iota in H1, H2, H3.
  destruct H1 as (Hstep & _ & Hpre). destruct H2 as (_ & Hall & _).
  split; [exact Hstep |]. split; [exact Hpre |]. split; [exact (Hall eq_refl) |].
  split; [exact H3 | exact H4].
Defined.

(** C8, at the failing input "M0,0Q1,0 2,2ZT5,5": the Z between the Q and
    the T leaves the control point (1,0) of the Q in the slot, so the T is
    given its reflection (3,4) through (2,2) as control point, where a
    cleared slot would have given it the end point (5,5), as after the L of
    "M0,0Q1,0 2,2L2,2T5,5". *)
Theorem close_does_not_clear_control_point :
  parseCommands "M0,0Q1,0 2,2ZT5,5"
  = Ok [MoveCommand None (P 0 0);
        QuadraticCurveCommand (Some (P 0 0)) (P 1 0) (P 2 2);
        ClosePathCommand (Some (P 2 2)) (Some (P 0 0));
        QuadraticCurveCommand (Some (P 2 2)) (P 3 4) (P 5 5)]
  /\ parseCommands "M0,0Q1,0 2,2L2,2T5,5"
     = Ok [MoveCommand None (P 0 0);
           QuadraticCurveCommand (Some (P 0 0)) (P 1 0) (P 2 2);
           LineCommand (Some (P 2 2)) (P 2 2);
           QuadraticCurveCommand (Some (P 2 2)) (P 5 5) (P 5 5)].
Proof. split; vm_compute; reflexivity. Qed.

(** ** Runs for the further properties of the parser *)

Lemma parseCommands_links_commands_witness :
  let cmds := [MoveCommand None (P 0 0);
               LineCommand (Some (P 0 0)) (P 1 1);
               ClosePathCommand (Some (P 1 1)) (Some (P 0 0));
               LineCommand (Some (P 1 1)) (P 3 3)] in
  parseCommands "M0,0L1,1zl2,2" = Ok cmds
  /\ linked None None cmds
  /\ match cmds with
     | [] => True
     | cmd :: _ => isMoveCommand cmd = true
     end.
Proof.
  intros cmds. split; [vm_compute; reflexivity |].
  apply (parseCommands_links_commands "M0,0L1,1zl2,2" cmds). vm_compute. reflexivity.
Defined.

Lemma leading_separators_are_skipped_witness :
  allChars isSkipped " ,;" = true
  /\ parseCommands (num:=dec) (" ,;" ++ "M1,2") = parseCommands "M1,2".
Proof.
  split; [reflexivity |].
  apply leading_separators_are_skipped; [reflexivity | discriminate].
Defined.

Lemma unknown_letters_are_ignored_witness :
  parseCommands (num:=dec) "BM1,2" = parseCommands "M1,2".
Proof. apply (unknown_letters_are_ignored "B" "M1,2"); reflexivity. Defined.

Lemma parseCommands_expects_command_witness :
  parseCommands (num:=dec) " 1,2M3,4" = Throw (Error "Expected command").
Proof.
  apply (parseCommands_expects_command " 1,2M3,4" "1,2M3,4" Value);
    [discriminate | reflexivity | left; reflexivity].
Defined.

Lemma first_command_needs_current_point_witness :
  parseCommands (num:=dec) " l1,2" = Throw (Error "Current point does not exist").
Proof.
  apply (first_command_needs_current_point " l1,2" "1,2" RelativeCommand "l"); reflexivity.
Defined.

Lemma value_scan_stops_witness :
  scanValue true false ("1" ++ "." ++ "5" ++ "." ++ " 2") = ("1" ++ "." ++ "5", "." ++ " 2")
  /\ ("1" <> "" -> scanValue true false ("1" ++ "-" ++ " 2") = ("1", "-" ++ " 2"))
  /\ ("1" <> "" -> scanValue true false ("1" ++ "e+" ++ " 2") = ("1" ++ "e", "+" ++ " 2"))
  /\ (terminated " 2" = true ->
      scanValue true false ("-" ++ "1" ++ "e-" ++ "5" ++ " 2")
      = ("-" ++ "1" ++ "e-" ++ "5", " 2")).
Proof. apply (value_scan_stops "1" "5" " 2"); reflexivity. Defined.

Lemma smooth_cubic_reflects_control_point_witness :
  let st := {| rest := "4,1 5,5"; currentPoint := Some (P 2 2); currentToken := None;
               commands := [MoveCommand None (P 2 2)];
               currentControlPoint := Some (P 1 0); lastMovePoint := Some (P 2 2) |} in
  exists st',
    smoothBezierBody false tt st = Ok (tt, st')
    /\ exists cur cp2 end_,
         currentPoint st = Some cur
         /\ commands st'
            = (commands st ++ [BezierCurveCommand (Some cur) (reflect cur (P 1 0)) cp2 end_])%list
         /\ currentControlPoint st' = Some cp2
         /\ currentPoint st' = Some end_.
Proof.
  intros st. eexists. split; [vm_compute; reflexivity |].
  apply (smooth_cubic_reflects_control_point false st); [reflexivity | vm_compute; reflexivity].
Defined.

Lemma smooth_quadratic_control_point_witness :
  let st := {| rest := "5,5"; currentPoint := Some (P 2 2); currentToken := None;
               commands := [MoveCommand None (P 2 2)];
               currentControlPoint := Some (P 1 0); lastMovePoint := Some (P 2 2) |} in
  exists st',
    smoothQuadraticBody false tt st = Ok (tt, st')
    /\ exists cp end_,
         commands st' = (commands st ++ [QuadraticCurveCommand (currentPoint st) cp end_])%list
         /\ currentControlPoint st' = Some cp
         /\ currentPoint st' = Some end_
         /\ match currentControlPoint st with
            | Some ctl => exists cur, currentPoint st = Some cur /\ cp = reflect cur ctl
            | None => cp = end_
            end.
Proof.
  intros st. eexists. split; [vm_compute; reflexivity |].
  apply (smooth_quadratic_control_point false st). vm_compute. reflexivity.
Defined.

Lemma axis_line_keeps_other_coordinate_witness :
  let st := {| rest := "5"; currentPoint := Some (P 2 3); currentToken := None;
               commands := [MoveCommand None (P 2 3)];
               currentControlPoint := None; lastMovePoint := Some (P 2 3) |} in
  exists st',
    horizontalBody true tt st = Ok (tt, st')
    /\ exists cur v,
         let moved := fun old => if true then jsAdd (parseFloat v) old else parseFloat v in
         let end_ := if true then mkPoint (moved (x cur)) (y cur)
                     else mkPoint (x cur) (moved (y cur)) in
         currentPoint st = Some cur
         /\ commands st' = (commands st ++ [LineCommand (Some cur) end_])%list
         /\ currentPoint st' = Some end_.
Proof.
  intros st. eexists. split; [vm_compute; reflexivity |].
  apply (axis_line_keeps_other_coordinate true true st). vm_compute. reflexivity.
Defined.

Lemma relative_cubic_offsets_witness :
  let st := {| rest := "1,0 2,0 3,1"; currentPoint := Some (P 2 3); currentToken := None;
               commands := [MoveCommand None (P 2 3)];
               currentControlPoint := None; lastMovePoint := Some (P 2 3) |} in
  exists st',
    bezierBody true tt st = Ok (tt, st')
    /\ exists cur cp1 cp2 end_,
         currentPoint st = Some cur
         /\ offsetFrom cur cp1 /\ offsetFrom cur cp2 /\ offsetFrom cur end_
         /\ commands st' = (commands st ++ [BezierCurveCommand (Some cur) cp1 cp2 end_])%list
         /\ currentPoint st' = Some end_.
Proof.
  intros st. eexists. split; [vm_compute; reflexivity |].
  apply (relative_cubic_offsets st). vm_compute. reflexivity.
Defined.

Lemma arc_round_witness :
  let st := {| rest := "5,5 0 0 1 1,2"; currentPoint := Some (P 2 3); currentToken := None;
               commands := [MoveCommand None (P 2 3)];
               currentControlPoint := Some (P 1 0); lastMovePoint := Some (P 2 3) |} in
  exists st',
    arcBody true tt st = Ok (tt, st')
    /\ exists cur rx ry rot large sweep end_,
         currentPoint st = Some cur
         /\ (if true then offsetFrom cur end_ else absolute end_)
         /\ commands st'
            = (commands st
               ++ [EllipticalArcCommand (x cur) (y cur)
                     (parseFloat rx) (parseFloat ry) (parseFloat rot)
                     (parseFloat large) (parseFloat sweep) (x end_) (y end_)])%list
         /\ currentPoint st' = Some end_
         /\ currentControlPoint st' = None.
Proof.
  intros st. eexists. split; [vm_compute; reflexivity |].
  apply (arc_round true st). vm_compute. reflexivity.
Defined.

Lemma commandsToString_app_witness :
  exists sa sb,
    commandsToString [MoveCommand None (P 0 0)] = Ok sa
    /\ commandsToString [LineCommand (Some (P 0 0)) (P 1 1); ClosePathCommand None None]
       = Ok sb
    /\ commandsToString
         ([MoveCommand None (P 0 0)]
          ++ [LineCommand (Some (P 0 0)) (P 1 1); ClosePathCommand None None])%list
       = Ok (sa ++ " " ++ sb).
Proof. apply commandsToString_app; discriminate. Defined.

Lemma trailing_separators_keep_commands_witness :
  allChars isSkipped " ," = true
  /\ match parseCommands (num:=dec) "M0,0L1,1" with
     | Ok cmds =>
         parseCommands ("M0,0L1,1" ++ " ,") = Ok cmds
         \/ parseCommands (num:=dec) ("M0,0L1,1" ++ " ,") = Throw (Error "Expected command")
     | Throw e => parseCommands ("M0,0L1,1" ++ " ,") = Throw e
     | OutOfFuel => True
     end.
Proof.
  split; [reflexivity |].
  apply (trailing_separators_keep_commands " ," eq_refl "M0,0L1,1").
Defined.

Lemma roundTrip_of_plain_numbers_witness :
  let s := "M0,0l10.5,0 0,10a2.5,2.5 0 0 1 -5,5z" in
  let cmds := [MoveCommand None (P 0 0);
               LineCommand (Some (P 0 0)) (mkPoint (Fin 105 (-1)) (Fin 0 0));
               LineCommand (Some (mkPoint (Fin 105 (-1)) (Fin 0 0)))
                           (mkPoint (Fin 105 (-1)) (Fin 1 1));
               EllipticalArcCommand (Fin 105 (-1)) (Fin 1 1) (Fin 25 (-1)) (Fin 25 (-1))
                                    (Fin 0 0) (Fin 0 0) (Fin 1 0)
                                    (Fin 55 (-1)) (Fin 15 0);
               ClosePathCommand (Some (mkPoint (Fin 55 (-1)) (Fin 15 0)))
                                (Some (P 0 0))] in
  parseCommands s = Ok cmds
  /\ forallb plainCommand cmds = true
  /\ exists cmds',
       roundTrip s = Ok cmds'
       /\ replay None None cmds = Some cmds'
       /\ map svgChar cmds' = map svgChar cmds.
Proof.
  intros s cmds. split; [vm_compute; reflexivity |]. split; [vm_compute; reflexivity |].
  apply (roundTrip_of_plain_numbers s cmds); vm_compute; reflexivity.
Defined.

Lemma close_keeps_control_point_witness :
  let st := {| rest := ""; currentPoint := Some (P 2 2); currentToken := None;
               commands := [MoveCommand None (P 0 0);
                            QuadraticCurveCommand (Some (P 0 0)) (P 1 0) (P 2 2)];
               currentControlPoint := Some (P 1 0); lastMovePoint := Some (P 0 0) |} in
  exists st',
    command "z" true st = Ok (tt, st')
    /\ currentControlPoint st' = currentControlPoint st
    /\ currentPoint st' = currentPoint st
    /\ commands st'
       = (commands st ++ [ClosePathCommand (currentPoint st) (lastMovePoint st)])%list.
Proof.
  intros st. eexists. split; [vm_compute; reflexivity |].
  apply (close_keeps_control_point "z" true st); [reflexivity | vm_compute; reflexivity].
Defined.

Lemma line_like_rounds_clear_control_point_witness :
  let st := {| rest := "5,5"; currentPoint := Some (P 2 2); currentToken := None;
               commands := [MoveCommand None (P 0 0);
                            QuadraticCurveCommand (Some (P 0 0)) (P 1 0) (P 2 2)];
               currentControlPoint := Some (P 1 0); lastMovePoint := Some (P 0 0) |} in
  exists st',
    lineBody false tt st = Ok (tt, st') /\ currentControlPoint st' = None.
Proof.
  intros st. eexists. split; [vm_compute; reflexivity |].
  apply (line_like_rounds_clear_control_point false st _ true).
  right. left. vm_compute. reflexivity.
Defined.

End ParserRuns.

(* ===================================================================== *)
(** * Properties of AutoAwesome                                           *)
(* ===================================================================== *)

Section Selection.

Import AutoAwesome.
Local Open Scope list_scope.

Context {Path SubPath Command Point num : Type}
        `{Collaborators Path SubPath Command Point num}.

#[local] Abbreviation Info := (@AlignmentInfo Path Command num).
#[local] Abbreviation sc info := (score (alignment info)).

Lemma bestAlignment_snoc (seen : list Info) (acc curr : Info) :
  bestAlignment seen = Some acc ->
  bestAlignment (seen ++ [curr]) = Some (higherScore acc curr).
Proof.
  unfold bestAlignment, reduce. destruct seen as [| a0 s]; [discriminate |].
  intros [= <-]. cbn [app]. rewrite fold_left_app. reflexivity.
Qed.

(** The state of the reduce after the candidates [seen]: [acc] is the one
    held, every candidate after it in [seen] lost against it, and it was
    not beaten by what the reduce held before it. *)
Lemma higherScore_fold (all l seen : list Info) (acc : Info) :
  (forall i, In i (seen ++ l) -> In i all) ->
  (exists before after,
      seen = before ++ acc :: after
      /\ bestAlignment seen = Some acc
      /\ (forall i, In i after -> gt (sc acc) (sc i) = true)
      /\ (forall prev, bestAlignment before = Some prev -> gt (sc prev) (sc acc) = false)
      /\ (scoresOrdered all -> forall i, In i before -> gt (sc i) (sc acc) = false)) ->
  exists before after,
    seen ++ l = before ++ fold_left higherScore l acc :: after
    /\ bestAlignment (seen ++ l) = Some (fold_left higherScore l acc)
    /\ (forall i, In i after -> gt (sc (fold_left higherScore l acc)) (sc i) = true)
    /\ (forall prev, bestAlignment before = Some prev ->
                     gt (sc prev) (sc (fold_left higherScore l acc)) = false)
    /\ (scoresOrdered all ->
        forall i, In i before -> gt (sc i) (sc (fold_left higherScore l acc)) = false).
Proof.
  revert seen acc. induction l as [| curr l IH];
    intros seen acc Hall (before & after & Hs & Hbest & Ha & Hp & Hb).
  - exists before, after. rewrite app_nil_r. auto.
  - cbn [fold_left]. replace (seen ++ curr :: l) with ((seen ++ [curr]) ++ l) in *
      by (rewrite <- app_assoc; reflexivity).
    apply IH; [exact Hall |].
    pose proof (bestAlignment_snoc seen acc curr Hbest) as Hsnoc.
    assert (Hacc : In acc all).
    { apply Hall. subst seen. rewrite !in_app_iff. left. left. right. left. reflexivity. }
    assert (Hcurr : In curr all).
    { apply Hall. rewrite !in_app_iff. left. right. left. reflexivity. }
    unfold higherScore in *.
    destruct (gt (sc acc) (sc curr)) eqn:E.
    + exists before, (after ++ [curr]). subst seen. repeat split.
      * rewrite <- app_assoc. reflexivity.
      * exact Hsnoc.
      * intros i Hi. apply in_app_or in Hi. destruct Hi as [Hi | [<- | []]]; auto.
      * exact Hp.
      * exact Hb.
    + exists seen, []. repeat split.
      * exact Hsnoc.
      * intros i [].
      * intros prev Hprev. rewrite Hbest in Hprev. injection Hprev as <-. exact E.
      * intros Hord i Hi. pose proof Hord as (Ht & Hn).
        assert (Hiall : In i all).
        { apply Hall. rewrite !in_app_iff. left. left. exact Hi. }
        subst seen. apply in_app_or in Hi. destruct Hi as [Hi | [<- | Hi]].
        -- apply (Hn i acc curr Hiall Hacc Hcurr); [apply Hb; assumption | exact E].
        -- exact E.
        -- destruct (gt (sc i) (sc curr)) eqn:E'; [| reflexivity].
           rewrite (Ht acc i curr Hacc Hiall Hcurr (Ha i Hi) E') in E. discriminate.
Qed.

(** A score that compares false both ways (NaN does) hides a higher score
    that came before it: the reduce drops the first candidate for the
    second, and the second for the third, which the first beats. *)
Lemma incomparable_score_hides_a_higher_one (a b c : Info) :
  gt (sc a) (sc b) = false ->
  gt (sc b) (sc c) = false ->
  gt (sc a) (sc c) = true ->
  bestAlignment [a; b; c] = Some c.
Proof.
  intros Hab Hbc _. unfold bestAlignment, reduce, higherScore. cbn [fold_left].
  rewrite Hab, Hbc. reflexivity.
Qed.

(** C3, as amended: the reduce keeps the candidate it holds only against a
    strictly lower score.  Every candidate generated after the one kept
    scores strictly lower than it, and the candidate that the reduce held
    before it (the one kept from the candidates generated earlier) does not
    score higher.  Where [>] orders the scores as it orders numbers that
    are not NaN, no earlier candidate scores higher than the one kept: it
    has the highest score and is the last generated of those that have
    it. *)
Theorem bestAlignment_is_last_highest (infos : list Info) :
  infos <> [] ->
  exists before best after,
    bestAlignment infos = Some best
    /\ infos = before ++ best :: after
    /\ (forall i, In i after -> gt (score (alignment best)) (score (alignment i)) = true)
    /\ (forall prev, bestAlignment before = Some prev ->
                     gt (score (alignment prev)) (score (alignment best)) = false)
    /\ (scoresOrdered infos ->
        forall i, In i before -> gt (score (alignment i)) (score (alignment best)) = false).
Proof.
  intros Hne. destruct infos as [| a l]; [congruence |].
  destruct (higherScore_fold (a :: l) l [a] a) as (before & after & Hs & Hbest & Ha & Hp & Hb).
  { intros i Hi. exact Hi. }
  { exists [], []. split; [reflexivity |]. split; [reflexivity |].
    split; [intros i [] |]. split; [discriminate |]. intros _ i []. }
  exists before, (fold_left higherScore l a), after.
  split; [exact Hbest |]. split; [exact Hs |]. split; [exact Ha |]. split; assumption.
Qed.

End Selection.

Section Candidates.

Import AutoAwesome.
Local Open Scope list_scope.

Context {Path SubPath Command Point num : Type}
        `{Collaborators Path SubPath Command Point num}.

Lemma elem_shiftedPaths (subIdx : nat) (p : Path) (sp : SubPath) (q : Path) :
  getSubPath p subIdx = Some sp ->
  exists l,
    shiftedPaths subIdx p = Some l
    /\ (In q l <->
        q = p \/ (isClosed sp = true
                  /\ exists i, 1 <= i /\ i + 1 < length (getCommands sp)
                               /\ q = shiftSubPathBack subIdx i p)).
Proof.
  intros Hsp. unfold shiftedPaths. rewrite Hsp. simpl. eexists. split; [reflexivity |].
  split.
  - intros [<- | Hin]; [left; reflexivity | right].
    destruct (isClosed sp); [| destruct Hin].
    apply in_map_iff in Hin. destruct Hin as (i & <- & Hi). apply in_seq in Hi.
    split; [reflexivity |]. exists i. repeat split; lia.
  - intros [-> | (Hc & i & H1 & H2 & ->)]; [left; reflexivity | right].
    rewrite Hc. apply in_map_iff. exists i. split; [reflexivity |].
    apply in_seq. lia.
Qed.

(** C4, as amended: the candidates are the original from-path and, when its
    subpath is closed, its shifts by 1 .. length - 2, followed by the
    reversal and, when the reversal's subpath is closed, the shifts of the
    reversal by 1 .. length - 2: the rotations of the original are
    candidates too. *)
Theorem fromPaths_candidates (subIdx : nat) (from : Path) (sp rsp : SubPath) :
  getSubPath from subIdx = Some sp ->
  getSubPath (reverseSubPath subIdx from) subIdx = Some rsp ->
  exists paths,
    fromPaths subIdx from = Some paths
    /\ forall q,
         In q paths <->
         q = from
         \/ (isClosed sp = true
             /\ exists i, 1 <= i /\ i + 1 < length (getCommands sp)
                          /\ q = shiftSubPathBack subIdx i from)
         \/ q = reverseSubPath subIdx from
         \/ (isClosed rsp = true
             /\ exists i, 1 <= i /\ i + 1 < length (getCommands rsp)
                          /\ q = shiftSubPathBack subIdx i (reverseSubPath subIdx from)).
Proof.
  intros Hsp Hrsp. unfold fromPaths.
  destruct (elem_shiftedPaths subIdx from sp from Hsp) as (l1 & E1 & _).
  destruct (elem_shiftedPaths subIdx _ rsp from Hrsp) as (l2 & E2 & _).
  rewrite E1, E2. simpl. eexists. split; [reflexivity |].
  intros q.
  destruct (elem_shiftedPaths subIdx from sp q Hsp) as (l1' & E1' & H1).
  destruct (elem_shiftedPaths subIdx _ rsp q Hrsp) as (l2' & E2' & H2).
  rewrite E1 in E1'. rewrite E2 in E2'. inversion E1'; inversion E2'; subst l1' l2'.
  rewrite in_app_iff, H1, H2. tauto.
Qed.

End Candidates.

Section Frame.

Import AutoAwesome.
Local Open Scope list_scope.

Context {Path SubPath Command Point num : Type}
        `{Collaborators Path SubPath Command Point num}.

(** The contract of the mutator that the frame property rests on: an edit
    addressed to one subpath leaves the other subpaths as they are. *)
Hypothesis reverse_frame :
  forall subIdx p, othersUnchanged subIdx p (reverseSubPath subIdx p).
Hypothesis shift_frame :
  forall subIdx i p, othersUnchanged subIdx p (shiftSubPathBack subIdx i p).
Hypothesis split_frame :
  forall subIdx cmdIdx ts p, othersUnchanged subIdx p (splitCommand subIdx cmdIdx ts p).
Hypothesis convert_frame :
  forall subIdx cmdIdx ch p, othersUnchanged subIdx p (convertCommand subIdx cmdIdx ch p).

#[local] Abbreviation Info := (@AlignmentInfo Path Command num).

Lemma othersUnchanged_refl subIdx (p : Path) : othersUnchanged subIdx p p.
Proof. intros j _. reflexivity. Qed.

Lemma othersUnchanged_trans subIdx (p q r : Path) :
  othersUnchanged subIdx p q -> othersUnchanged subIdx q r -> othersUnchanged subIdx p r.
Proof. intros H1 H2 j Hj. rewrite (H2 j Hj). apply H1. exact Hj. Qed.

Lemma shiftedPaths_frame subIdx (p : Path) l q :
  shiftedPaths subIdx p = Some l -> In q l -> othersUnchanged subIdx p q.
Proof.
  unfold shiftedPaths. intros Hl Hin.
  destruct (getSubPath p subIdx) as [sp |]; [| discriminate]. simpl in Hl.
  inversion Hl; subst l; clear Hl. destruct Hin as [<- | Hin].
  - apply othersUnchanged_refl.
  - destruct (isClosed sp); [| destruct Hin].
    apply in_map_iff in Hin. destruct Hin as (i & <- & _). apply shift_frame.
Qed.

Lemma fromPaths_frame subIdx (from : Path) l q :
  fromPaths subIdx from = Some l -> In q l -> othersUnchanged subIdx from q.
Proof.
  unfold fromPaths. intros Hl Hin.
  destruct (shiftedPaths subIdx from) as [l1 |] eqn:E1; [| discriminate]. simpl in Hl.
  destruct (shiftedPaths subIdx (reverseSubPath subIdx from)) as [l2 |] eqn:E2;
    [| discriminate].
  simpl in Hl. inversion Hl; subst l; clear Hl.
  apply in_app_or in Hin. destruct Hin as [Hin | Hin].
  - eapply shiftedPaths_frame; eassumption.
  - eapply othersUnchanged_trans; [apply reverse_frame |].
    eapply shiftedPaths_frame; eassumption.
Qed.

Lemma alignmentInfos_paths subIdx paths (to : Path) (infos : list Info) info :
  alignmentInfos subIdx paths to = Some infos -> In info infos ->
  In (generatedFromPath info) paths.
Proof.
  unfold alignmentInfos. intros Hm Hin. apply mapM_Some in Hm.
  induction Hm as [| p i ps infos0 Hp Hm IH]; [destruct Hin |].
  destruct Hin as [<- | Hin]; [left | right; apply IH; exact Hin].
  destruct (getSubPath p subIdx); [| discriminate]. simpl in Hp.
  destruct (getSubPath to subIdx); [| discriminate]. simpl in Hp.
  inversion Hp. reflexivity.
Qed.

Lemma fold_higherScore_In (l : list Info) (a : Info) :
  In (fold_left higherScore l a) (a :: l).
Proof.
  revert a. induction l as [| c l IH]; intros a; [left; reflexivity |].
  cbn [fold_left]. unfold higherScore at 2.
  destruct (gt (score (alignment a)) (score (alignment c))).
  - destruct (IH a) as [E | Hin]; [left; exact E | right; right; exact Hin].
  - right. apply IH.
Qed.

Lemma bestAlignment_In (infos : list Info) best :
  bestAlignment infos = Some best -> In best infos.
Proof.
  destruct infos as [| a l]; [discriminate |]. unfold bestAlignment, reduce.
  intros E. inversion E. apply fold_higherScore_In.
Qed.

Lemma fold_splitCommand_frame subIdx (ops : list (SplitOp num)) (p : Path) :
  othersUnchanged subIdx p
    (fold_left (fun mutator op => splitCommand subIdx (opCmdIdx op) (opTs op) mutator) ops p).
Proof.
  revert p. induction ops as [| op ops IH]; intros p; [apply othersUnchanged_refl |].
  cbn [fold_left]. eapply othersUnchanged_trans; [apply split_frame | apply IH].
Qed.

Lemma applySplitsFn_frame subIdx (p : Path) groups p' :
  applySplitsFn subIdx p groups = Some p' -> othersUnchanged subIdx p p'.
Proof.
  unfold applySplitsFn. intros Hrun.
  destruct (getSubPath p subIdx) as [sp |]; [| discriminate]. simpl in Hrun.
  destruct (mapM _ _) as [ops |]; [| discriminate]. simpl in Hrun.
  inversion Hrun. apply fold_splitCommand_frame.
Qed.

Lemma autoConvertFrom_frame subIdx cmdIdx fromCmds (to fromMutator toMutator f' t' : Path) :
  autoConvertFrom subIdx cmdIdx fromCmds to fromMutator toMutator = Some (f', t') ->
  othersUnchanged subIdx fromMutator f' /\ othersUnchanged subIdx toMutator t'.
Proof.
  revert cmdIdx fromMutator toMutator.
  induction fromCmds as [| fromCmd rest IH]; intros cmdIdx fm tm Hrun; cbn [autoConvertFrom] in Hrun.
  - inversion Hrun; subst. split; apply othersUnchanged_refl.
  - destruct (getCommand to subIdx cmdIdx) as [toCmd |]; [| discriminate]. simpl in Hrun.
    destruct (String.eqb _ _); [apply IH in Hrun; exact Hrun |].
    destruct (canConvertTo fromCmd _).
    { apply IH in Hrun. destruct Hrun as (Hf & Ht). split; [| exact Ht].
      eapply othersUnchanged_trans; [apply convert_frame | exact Hf]. }
    destruct (canConvertTo toCmd _).
    { apply IH in Hrun. destruct Hrun as (Hf & Ht). split; [exact Hf |].
      eapply othersUnchanged_trans; [apply convert_frame | exact Ht]. }
    apply IH in Hrun. exact Hrun.
Qed.

Lemma autoFixSubPath_frame subIdx (from to f' t' : Path) :
  autoFixSubPath subIdx from to = Some (f', t') ->
  othersUnchanged subIdx from f' /\ othersUnchanged subIdx to t'.
Proof.
  unfold autoFixSubPath, splitResults. intros Hrun.
  destruct (fromPaths subIdx from) as [paths |] eqn:Ep; [| discriminate]. simpl in Hrun.
  destruct (alignmentInfos subIdx paths to) as [infos |] eqn:Ei; [| discriminate].
  simpl in Hrun.
  destruct (bestAlignment infos) as [best |] eqn:Eb; [| discriminate]. simpl in Hrun.
  destruct (applySplitsFn subIdx (generatedFromPath best) _) as [fr |] eqn:Ef;
    [| discriminate].
  simpl in Hrun.
  destruct (applySplitsFn subIdx to _) as [tr |] eqn:Et; [| discriminate]. simpl in Hrun.
  unfold autoConvert in Hrun.
  destruct (getSubPath fr subIdx) as [fsp |]; [| discriminate]. simpl in Hrun.
  apply autoConvertFrom_frame in Hrun. destruct Hrun as (Hf & Ht).
  apply applySplitsFn_frame in Ef, Et.
  apply bestAlignment_In in Eb.
  pose proof (alignmentInfos_paths _ _ _ _ _ Ei Eb) as Hin.
  pose proof (fromPaths_frame _ _ _ _ Ep Hin) as Hcand.
  split.
  - eapply othersUnchanged_trans; [exact Hcand |].
    eapply othersUnchanged_trans; eassumption.
  - eapply othersUnchanged_trans; eassumption.
Qed.

Lemma autoFixStep_frame subIdx (fromPath toPath f' t' : Path) :
  autoFixStep subIdx fromPath toPath = Some (f', t') ->
  othersUnchanged subIdx fromPath f' /\ othersUnchanged subIdx toPath t'.
Proof.
  unfold autoFixStep. intros Hrun.
  destruct (getSubPath fromPath subIdx) as [fsp |]; [| discriminate]. simpl in Hrun.
  destruct (getSubPath toPath subIdx) as [tsp |]; [| discriminate]. simpl in Hrun.
  destruct (_ <=? _)%nat.
  - apply autoFixSubPath_frame. exact Hrun.
  - destruct (autoFixSubPath subIdx toPath fromPath) as [[a b] |] eqn:E; [| discriminate].
    simpl in Hrun. inversion Hrun; subst. apply autoFixSubPath_frame in E. tauto.
Qed.

Lemma autoFixLoop_frame subIdxs (fromPath toPath f' t' : Path) j :
  autoFixLoop subIdxs fromPath toPath = Some (f', t') ->
  ~ In j subIdxs ->
  getSubPaths f' !! j = getSubPaths fromPath !! j
  /\ getSubPaths t' !! j = getSubPaths toPath !! j.
Proof.
  revert fromPath toPath. induction subIdxs as [| subIdx rest IH];
    intros fromPath toPath Hrun Hj; cbn [autoFixLoop] in Hrun.
  - inversion Hrun. split; reflexivity.
  - destruct (autoFixStep subIdx fromPath toPath) as [[f1 t1] |] eqn:E; [| discriminate].
    simpl in Hrun. apply autoFixStep_frame in E. destruct E as (Hf & Ht).
    apply IH in Hrun; [| intros Hin; apply Hj; right; exact Hin].
    destruct Hrun as (Hf' & Ht').
    assert (j <> subIdx) as Hne by (intros ->; apply Hj; left; reflexivity).
    rewrite Hf', Ht', (Hf j Hne), (Ht j Hne). split; reflexivity.
Qed.

(** [autoFix] walks the indices below the smaller of the two subpath
    counts, so under the frame contract the subpaths from that count on are
    those of the input paths. *)
Lemma autoFix_frame (fromPath toPath from' to' : Path) (j : nat) :
  autoFix fromPath toPath = Some (from', to') ->
  Nat.min (length (getSubPaths fromPath)) (length (getSubPaths toPath)) <= j ->
  getSubPaths from' !! j = getSubPaths fromPath !! j
  /\ getSubPaths to' !! j = getSubPaths toPath !! j.
Proof.
  unfold autoFix. intros Hrun Hj.
  eapply autoFixLoop_frame; [exact Hrun |].
  intros Hin. apply in_seq in Hin. lia.
Qed.

End Frame.

Section ExtraSubPaths.

Import AutoAwesome Container.
Local Open Scope list_scope.

Context {SubPath Command Point num : Type} (M : Parts SubPath Command Point num).

(** In the container an edit addressed to [subIdx] leaves the subpaths at
    the other indices in place. *)
Lemma container_frame (f : SubPath -> SubPath) (subIdx : nat) (p : list SubPath) :
  othersUnchanged (H := container M) subIdx p (alter f subIdx p).
Proof.
  intros j Hj. cbn. apply list_lookup_alter_ne. congruence.
Qed.


End ExtraSubPaths.


Section Conversion.

Import AutoAwesome.
Local Open Scope list_scope.

Context {Path SubPath Command Point num : Type}
        `{Collaborators Path SubPath Command Point num}.

(** The contract of the mutator that the conversion pass rests on: after
    [convertCommand(subIdx, cmdIdx, ch)] the command at [cmdIdx] has kind
    [ch] and the other commands of the subpath keep theirs. *)
Hypothesis convert_kinds :
  forall subIdx cmdIdx ch (p : Path) ks,
    kindsAt p subIdx = Some ks -> cmdIdx < length ks ->
    kindsAt (convertCommand subIdx cmdIdx ch p) subIdx = Some (<[cmdIdx := ch]> ks).

Lemma getCommand_commandsAt (p : Path) subIdx cmds cmdIdx :
  commandsAt p subIdx = Some cmds -> getCommand p subIdx cmdIdx = cmds !! cmdIdx.
Proof.
  unfold commandsAt, getCommand. destruct (getSubPath p subIdx) as [sp |]; [| discriminate].
  simpl. intros E. inversion E. reflexivity.
Qed.

Lemma kindsAfterConvert_agree (a b : Command) :
  fst (kindsAfterConvert a b) = snd (kindsAfterConvert a b) <-> convertiblePair a b.
Proof.
  unfold kindsAfterConvert, convertiblePair.
  destruct (String.eqb (getSvgChar a) (getSvgChar b)) eqn:Eeq.
  - apply String.eqb_eq in Eeq. cbn. tauto.
  - apply String.eqb_neq in Eeq.
    destruct (canConvertTo a (getSvgChar b)); [cbn; tauto |].
    destruct (canConvertTo b (getSvgChar a)); [cbn; tauto |].
    cbn. split; [contradiction | intros [E | [E | E]]; [contradiction | discriminate ..]].
Qed.

(** The loop of [autoConvert] from command [k] on: the commands before [k]
    have the kinds the pass gives them, the others still have their own. *)
Lemma autoConvertFrom_kinds subIdx (to : Path) (cf ct : list Command) :
  commandsAt to subIdx = Some ct ->
  length cf = length ct ->
  forall rest pre k (fm tm : Path) kf kt,
    k = length pre ->
    cf = pre ++ rest ->
    kindsAt fm subIdx = Some kf ->
    kindsAt tm subIdx = Some kt ->
    length kf = length cf ->
    length kt = length cf ->
    (forall j a b, j < k -> cf !! j = Some a -> ct !! j = Some b ->
                   kf !! j = Some (fst (kindsAfterConvert a b))
                   /\ kt !! j = Some (snd (kindsAfterConvert a b))) ->
    (forall j, k <= j -> kf !! j = getSvgChar <$> cf !! j) ->
    (forall j, k <= j -> kt !! j = getSvgChar <$> ct !! j) ->
    exists f' t' kf' kt',
      autoConvertFrom subIdx k rest to fm tm = Some (f', t')
      /\ kindsAt f' subIdx = Some kf'
      /\ kindsAt t' subIdx = Some kt'
      /\ length kf' = length cf
      /\ length kt' = length cf
      /\ forall j a b, cf !! j = Some a -> ct !! j = Some b ->
                       kf' !! j = Some (fst (kindsAfterConvert a b))
                       /\ kt' !! j = Some (snd (kindsAfterConvert a b)).
Proof.
  intros Hto Hlen rest.
  induction rest as [| fromCmd rest IH];
    intros pre k fm tm kf kt Hk Hcf Hkf Hkt Lf Lt Hlow Hf Ht; cbn [autoConvertFrom].
  - exists fm, tm, kf, kt. split; [reflexivity |]. split; [exact Hkf |].
    split; [exact Hkt |]. split; [exact Lf |]. split; [exact Lt |].
    intros j a b Ha Hb. apply Hlow; [| exact Ha | exact Hb].
    rewrite app_nil_r in Hcf. subst pre k. eapply lookup_lt_Some. exact Ha.
  - assert (Hfk : cf !! k = Some fromCmd)
      by (rewrite Hcf; apply list_lookup_middle; exact Hk).
    assert (Hklt : k < length cf) by (eapply lookup_lt_Some; exact Hfk).
    destruct (lookup_lt_is_Some_2 ct k) as [toCmd Htk]; [lia |].
    rewrite (getCommand_commandsAt _ _ _ _ Hto), Htk. simpl.
    pose proof (Hf k (Nat.le_refl k)) as Hkfk. rewrite Hfk in Hkfk. simpl in Hkfk.
    pose proof (Ht k (Nat.le_refl k)) as Hktk. rewrite Htk in Hktk. simpl in Hktk.
    assert (Hcf' : cf = (pre ++ [fromCmd]) ++ rest)
      by (rewrite <- app_assoc; exact Hcf).
    assert (Hk' : S k = length (pre ++ [fromCmd]))
      by (rewrite length_app; simpl; lia).
    (* the pair at [k] decides what is passed on *)
    assert (Hnext : forall fm' tm' kf' kt',
               kindsAt fm' subIdx = Some kf' ->
               kindsAt tm' subIdx = Some kt' ->
               length kf' = length cf ->
               length kt' = length cf ->
               (forall j, j <> k -> kf' !! j = kf !! j /\ kt' !! j = kt !! j) ->
               kf' !! k = Some (fst (kindsAfterConvert fromCmd toCmd)) ->
               kt' !! k = Some (snd (kindsAfterConvert fromCmd toCmd)) ->
               exists f' t' kf'' kt'',
                 autoConvertFrom subIdx (S k) rest to fm' tm' = Some (f', t')
                 /\ kindsAt f' subIdx = Some kf''
                 /\ kindsAt t' subIdx = Some kt''
                 /\ length kf'' = length cf
                 /\ length kt'' = length cf
                 /\ forall j a b, cf !! j = Some a -> ct !! j = Some b ->
                                  kf'' !! j = Some (fst (kindsAfterConvert a b))
                                  /\ kt'' !! j = Some (snd (kindsAfterConvert a b))).
    { intros fm' tm' kf' kt' Hkf' Hkt' Lf' Lt' Hsame Hfk' Htk'.
      apply (IH (pre ++ [fromCmd]) (S k) fm' tm' kf' kt'); try assumption.
      - intros j a b Hj Ha Hb. destruct (decide (j = k)) as [-> | Hne].
        + rewrite Hfk in Ha. rewrite Htk in Hb. inversion Ha; inversion Hb; subst.
          split; assumption.
        + destruct (Hsame j Hne) as (-> & ->). apply Hlow; [lia | exact Ha | exact Hb].
      - intros j Hj. destruct (Hsame j) as (-> & _); [lia |]. apply Hf. lia.
      - intros j Hj. destruct (Hsame j) as (_ & ->); [lia |]. apply Ht. lia. }
    unfold kindsAfterConvert in Hnext.
    destruct (String.eqb (getSvgChar fromCmd) (getSvgChar toCmd)) eqn:Eeq.
    { apply (Hnext fm tm kf kt); try assumption. intros j _. split; reflexivity. }
    destruct (canConvertTo fromCmd (getSvgChar toCmd)) eqn:Ec1.
    { apply (Hnext _ tm (<[k := getSvgChar toCmd]> kf) kt); try assumption.
      - apply convert_kinds; [exact Hkf | lia].
      - rewrite length_insert. exact Lf.
      - intros j Hj. rewrite list_lookup_insert_ne by congruence. split; reflexivity.
      - rewrite list_lookup_insert_eq by lia. reflexivity. }
    destruct (canConvertTo toCmd (getSvgChar fromCmd)) eqn:Ec2.
    { apply (Hnext fm _ kf (<[k := getSvgChar fromCmd]> kt)); try assumption.
      - apply convert_kinds; [exact Hkt | lia].
      - rewrite length_insert. exact Lt.
      - intros j Hj. rewrite list_lookup_insert_ne by congruence. split; reflexivity.
      - rewrite list_lookup_insert_eq by lia. reflexivity. }
    apply (Hnext fm tm kf kt); try assumption. intros j _. split; reflexivity.
Qed.

(** The conversion pass on two subpaths with equally many commands: it
    succeeds, and every position has the kinds that the callback gives its
    pair. *)
Lemma autoConvert_kinds subIdx (from to : Path) (cf ct : list Command) :
  commandsAt from subIdx = Some cf ->
  commandsAt to subIdx = Some ct ->
  length cf = length ct ->
  exists f' t' kf kt,
    autoConvert subIdx from to = Some (f', t')
    /\ kindsAt f' subIdx = Some kf
    /\ kindsAt t' subIdx = Some kt
    /\ length kf = length cf
    /\ length kt = length cf
    /\ forall j a b, cf !! j = Some a -> ct !! j = Some b ->
                     kf !! j = Some (fst (kindsAfterConvert a b))
                     /\ kt !! j = Some (snd (kindsAfterConvert a b)).
Proof.
  intros Hfrom Hto Hlen. unfold autoConvert.
  assert (exists sp, getSubPath from subIdx = Some sp /\ getCommands sp = cf) as (sp & Hsp & Hc).
  { unfold commandsAt in Hfrom. destruct (getSubPath from subIdx) as [sp |]; [| discriminate].
    simpl in Hfrom. inversion Hfrom. eauto. }
  rewrite Hsp. simpl. rewrite Hc.
  apply (autoConvertFrom_kinds subIdx to cf ct Hto Hlen cf [] 0 from to
           (map getSvgChar cf) (map getSvgChar ct)).
  - reflexivity.
  - reflexivity.
  - unfold kindsAt. rewrite Hfrom. reflexivity.
  - unfold kindsAt. rewrite Hto. reflexivity.
  - apply length_map.
  - rewrite length_map. symmetry. exact Hlen.
  - intros j a b Hj. lia.
  - intros j _. apply list_lookup_fmap.
  - intros j _. apply list_lookup_fmap.
Qed.

End Conversion.

(* ===================================================================== *)
(** * The gaps of an alignment and the splits that fill them              *)
(* ===================================================================== *)

Section Gaps.

Import AutoAwesome.
Local Open Scope list_scope.

Context {Command : Type}.

#[local] Abbreviation Entry := (option Command).

Lemma numObjs_cons (a : Entry) al :
  numObjs (a :: al) = (if isObj a then 1 else 0) + numObjs al.
Proof. unfold numObjs. cbn [List.filter]. destruct (isObj a); reflexivity. Qed.

Lemma processAlignmentsFrom_lookup (al : list Entry) :
  forall n i info,
    processAlignmentsFrom n al !! i = Some info ->
    exists a,
      al !! i = Some a
      /\ isGap info = negb (isObj a)
      /\ nextCmdIdx info = n + numObjs (take (S i) al)
      /\ isNextGap info = match al !! S i with
                          | Some b => negb (isObj b)
                          | None => false
                          end.
Proof.
  induction al as [| a al IH]; intros n i info Hl; [discriminate |].
  cbn [processAlignmentsFrom] in Hl. destruct i as [| i].
  - cbn in Hl. inversion Hl; subst; clear Hl. exists a. cbn [nextCmdIdx isGap isNextGap].
    split; [reflexivity |]. split; [reflexivity |]. split.
    + change (take 1 (a :: al)) with [a]. rewrite numObjs_cons. unfold isObj, numObjs.
      destruct (bool_decide (is_Some a)); cbn; lia.
    + destruct al; reflexivity.
  - cbn in Hl. apply IH in Hl. destruct Hl as (b & Hb & Hg & Hn & Hx).
    exists b. split; [exact Hb |]. split; [exact Hg |]. split; [| exact Hx].
    rewrite Hn. change (take (S (S i)) (a :: al)) with (a :: take (S i) al).
    rewrite numObjs_cons. unfold isObj. destruct (bool_decide (is_Some a)); cbn; lia.
Qed.

Lemma processAlignmentsFrom_length (al : list Entry) n :
  length (processAlignmentsFrom n al) = length al.
Proof.
  revert n. induction al as [| a al IH]; intros n; [reflexivity |].
  cbn [processAlignmentsFrom length]. rewrite IH. reflexivity.
Qed.

(** X18: [processAlignmentsFn] keeps the length of the alignment, and its
    entry at position [i] says whether the alignment has a gap there,
    whether it has a gap at [i + 1], and how many commands the alignment
    holds up to and including position [i]. *)
Theorem processAlignmentsFn_counts_commands (al : list Entry) :
  length (processAlignmentsFn al) = length al
  /\ forall i info,
       processAlignmentsFn al !! i = Some info ->
       exists a,
         al !! i = Some a
         /\ isGap info = negb (isObj a)
         /\ nextCmdIdx info = numObjs (take (S i) al)
         /\ isNextGap info = match al !! S i with
                             | Some b => negb (isObj b)
                             | None => false
                             end.
Proof.
  split; [apply processAlignmentsFrom_length |].
  intros i info Hl. apply (processAlignmentsFrom_lookup al 0 i info Hl).
Qed.

Lemma filter_isGap_length (al : list Entry) n :
  length (List.filter isGap (processAlignmentsFrom n al)) = numGaps al.
Proof.
  revert n. induction al as [| a al IH]; intros n; [reflexivity |].
  unfold numGaps. cbn [processAlignmentsFrom List.filter isGap].
  fold (isObj a). destruct (isObj a); cbn [negb length]; rewrite IH; reflexivity.
Qed.

(** A streak: gaps that all carry the same counter. *)
#[local] Abbreviation streak :=
  (fun g : list CmdInfo =>
     g <> [] /\ exists k, Forall (fun info => isGap info = true /\ nextCmdIdx info = k) g).

Lemma createGapStreaksFrom_spec (al : list Entry) :
  forall n gs cur,
    (cur = [] \/ exists rest, al = None :: rest) ->
    Forall (fun info => isGap info = true /\ nextCmdIdx info = n) cur ->
    exists new,
      createGapStreaksFrom gs cur (processAlignmentsFrom n al) = gs ++ new
      /\ Forall streak new
      /\ concat new = cur ++ List.filter isGap (processAlignmentsFrom n al).
Proof.
  induction al as [| a al IH]; intros n gs cur Hpre Hcur.
  - destruct Hpre as [-> | (rest & Hr)]; [| discriminate].
    exists []. cbn. rewrite app_nil_r. repeat split. constructor.
  - cbn [processAlignmentsFrom createGapStreaksFrom isGap isNextGap List.filter].
    destruct a as [c |].
    + (* a command: no streak is open *)
      destruct Hpre as [-> | (rest & Hr)]; [| discriminate].
      change (negb (bool_decide (is_Some (Some c)))) with false. cbn [negb].
      destruct (IH (S n) gs [] (or_introl eq_refl) (Forall_nil_2 _)) as (new & E & Hs & Hc).
      exists new. rewrite E. repeat split; assumption.
    + (* a gap *)
      change (negb (bool_decide (is_Some (@None Command)))) with true. cbn [negb].
      set (info := mkCmdInfo true _ n).
      assert (Hcur' : Forall (fun i => isGap i = true /\ nextCmdIdx i = n) (cur ++ [info])).
      { apply Forall_app. split; [exact Hcur |]. constructor; [| constructor].
        split; reflexivity. }
      destruct al as [| b al'].
      * (* the last entry: the streak ends *)
        cbn. exists [cur ++ [info]]. split; [reflexivity |]. split.
        -- constructor; [| constructor]. split; [| exists n; exact Hcur'].
           intros E. apply app_eq_nil in E. destruct E; discriminate.
        -- cbn. rewrite app_nil_r. reflexivity.
      * destruct b as [c |].
        -- (* a command follows: the streak ends *)
           subst info. change (negb (bool_decide (is_Some (Some c)))) with false.
           cbn [negb].
           destruct (IH n (gs ++ [cur ++ [mkCmdInfo true false n]]) []
                       (or_introl eq_refl) (Forall_nil_2 _)) as (new & E & Hs & Hc).
           exists ((cur ++ [mkCmdInfo true false n]) :: new).
           rewrite E, <- app_assoc. split; [reflexivity |]. split.
           ++ constructor; [| exact Hs]. split; [| exists n; exact Hcur'].
              intros E'. apply app_eq_nil in E'. destruct E'; discriminate.
           ++ cbn [concat]. rewrite Hc, <- app_assoc. reflexivity.
        -- (* a gap follows: the streak goes on *)
           subst info. change (negb (bool_decide (is_Some (@None Command)))) with true.
           cbn [negb].
           destruct (IH n gs (cur ++ [mkCmdInfo true true n])
                       (or_intror (ex_intro _ al' eq_refl)) Hcur') as (new & E & Hs & Hc).
           exists new. rewrite E. split; [reflexivity |]. split; [exact Hs |].
           rewrite Hc, <- app_assoc. reflexivity.
Qed.


End Gaps.

Section SplitOps.

Import AutoAwesome.
Local Open Scope list_scope.

Context {Path SubPath Command Point num : Type}
        `{Collaborators Path SubPath Command Point num}.


End SplitOps.


Section Splits.

Import AutoAwesome.
Local Open Scope list_scope.

Context {Path SubPath Command Point num : Type}
        `{Collaborators Path SubPath Command Point num}.

(** The contract of the mutator and of [PathUtil.sortPathOps] that the
    count of commands rests on: a split at a command after the first adds
    one command for each fraction, and sorting the splits keeps them
    all. *)
Hypothesis split_length :
  forall subIdx cmdIdx ts p sp,
    getSubPath p subIdx = Some sp ->
    1 <= cmdIdx < length (getCommands sp) ->
    exists sp',
      getSubPath (splitCommand subIdx cmdIdx ts p) subIdx = Some sp'
      /\ length (getCommands sp') = length (getCommands sp) + length ts.
Hypothesis sort_permutes : forall ops, Permutation (sortPathOps ops) ops.

Lemma numSplits_cons (op : SplitOp num) ops :
  numSplits (op :: ops) = length (opTs op) + numSplits ops.
Proof. reflexivity. Qed.

Lemma numSplits_perm (ops ops' : list (SplitOp num)) :
  Permutation ops ops' -> numSplits ops = numSplits ops'.
Proof.
  intros Hp. unfold numSplits. apply Permutation_list_sum.
  apply Permutation_map. exact Hp.
Qed.

Lemma fold_split_length subIdx n (ops : list (SplitOp num)) :
  forall p sp,
    getSubPath p subIdx = Some sp ->
    n <= length (getCommands sp) ->
    Forall (fun op => 1 <= opCmdIdx op < n) ops ->
    exists sp',
      getSubPath (fold_left (fun mutator op =>
                               splitCommand subIdx (opCmdIdx op) (opTs op) mutator)
                            ops p) subIdx = Some sp'
      /\ length (getCommands sp') = length (getCommands sp) + numSplits ops.
Proof.
  induction ops as [| op ops IH]; intros p sp Hsp Hn Hall.
  - exists sp. split; [exact Hsp |]. unfold numSplits. cbn. lia.
  - inversion Hall as [| ? ? Hop Hall']; subst.
    destruct (split_length subIdx (opCmdIdx op) (opTs op) p sp Hsp) as (sp1 & Hsp1 & Hl1);
      [lia |].
    destruct (IH _ sp1 Hsp1) as (sp' & Hsp' & Hl'); [lia | exact Hall' |].
    exists sp'. split; [exact Hsp' |]. rewrite numSplits_cons. lia.
Qed.

Lemma mapM_splitOpOf subIdx n (groups : list (list CmdInfo)) :
  2 <= n ->
  Forall (fun g => g <> []) groups ->
  exists ops : list (SplitOp num),
    mapM (splitOpOf subIdx n) groups = Some ops
    /\ Forall (fun op => 1 <= opCmdIdx op < n) ops
    /\ numSplits ops = length (concat groups).
Proof.
  intros Hn. induction groups as [| g groups IH]; intros Hall.
  - exists []. repeat split. constructor.
  - inversion Hall as [| ? ? Hg Hall']; subst.
    destruct (IH Hall') as (ops & E & Hr & Hs).
    destruct (last g) as [lastInfo |] eqn:El; [| apply last_None in El; congruence].
    assert (Hop : exists op, splitOpOf subIdx n g = Some op
                             /\ opCmdIdx op
                                = Z.to_nat (clamp (Z.of_nat (nextCmdIdx lastInfo)) 1
                                                  (Z.of_nat n - 1))
                             /\ length (opTs op) = length g).
    { unfold splitOpOf. rewrite El. cbn. eexists. split; [reflexivity |].
      split; [reflexivity | apply length_imap]. }
    destruct Hop as (op & Hop & Hidx & Hts).
    assert (Em : mapM (splitOpOf subIdx n) (g :: groups) = Some (op :: ops))
      by (cbn [mapM]; rewrite Hop; cbn; rewrite E; reflexivity).
    exists (op :: ops). split; [exact Em |]. split.
    + constructor; [| exact Hr]. rewrite Hidx. unfold clamp.
      repeat match goal with
             | |- context [(?a <=? ?b)%Z] => destruct (Z.leb_spec a b)
             | |- context [(?a >=? ?b)%Z] => destruct (Z.geb_spec a b)
             end; lia.
    + rewrite numSplits_cons. cbn [concat]. rewrite Hts, length_app, Hs.
      reflexivity.
Qed.

Lemma length_concat_reverse {A} (l : list (list A)) :
  length (concat (reverse l)) = length (concat l).
Proof.
  induction l as [| x l IH]; [reflexivity |].
  rewrite reverse_cons, concat_app, length_app, IH. cbn [concat].
  rewrite !length_app. cbn [length]. lia.
Qed.

Lemma applySplitsFn_length subIdx (path : Path) (sp : SubPath) (al : list (option Command)) :
  getSubPath path subIdx = Some sp ->
  2 <= length (getCommands sp) ->
  exists path' sp',
    applySplitsFn subIdx path (createGapStreaksFn (processAlignmentsFn al)) = Some path'
    /\ getSubPath path' subIdx = Some sp'
    /\ length (getCommands sp') = length (getCommands sp) + numGaps al.
Proof.
  intros Hsp Hn. unfold applySplitsFn. rewrite Hsp. cbn.
  unfold createGapStreaksFn, processAlignmentsFn.
  destruct (createGapStreaksFrom_spec al 0 [] [] (or_introl eq_refl) (Forall_nil_2 _))
    as (groups & -> & Hs & Hc).
  cbn [app] in *.
  destruct (mapM_splitOpOf subIdx (length (getCommands sp)) (reverse groups) Hn)
    as (ops & -> & Hr & Hnum).
  { apply Forall_reverse. eapply Forall_impl; [exact Hs |]. intros g Hg. apply Hg. }
  cbn.
  destruct (fold_split_length subIdx (length (getCommands sp)) (sortPathOps ops) path sp Hsp)
    as (sp' & Hsp' & Hl); [lia | |].
  { eapply Permutation_Forall; [| exact Hr]. symmetry. apply sort_permutes. }
  eexists _, sp'. split; [reflexivity |]. split; [exact Hsp' |].
  rewrite Hl, (numSplits_perm _ _ (sort_permutes ops)), Hnum, length_concat_reverse, Hc.
  cbn [app]. rewrite filter_isGap_length. reflexivity.
Qed.

(** X21: the splits make the two subpaths as long as the alignment.  Under
    the contract above, where each side of the alignment holds the commands
    of its subpath (as many non-gap entries as the subpath has commands),
    the two sides are equally long and both subpaths have two commands or
    more, the two calls of [applySplitsFn] succeed and leave subpaths with
    as many commands as the alignment has entries, so with equally
    many. *)
Theorem splits_equalise_lengths subIdx (fromPath to : Path) (spf spt : SubPath)
    (al : Alignments Command num) :
  getSubPath fromPath subIdx = Some spf ->
  getSubPath to subIdx = Some spt ->
  2 <= length (getCommands spf) ->
  2 <= length (getCommands spt) ->
  length (AutoAwesome.from al) = length (AutoAwesome.to al) ->
  numObjs (AutoAwesome.from al) = length (getCommands spf) ->
  numObjs (AutoAwesome.to al) = length (getCommands spt) ->
  exists fromPathResult toPathResult cf ct,
    applySplitsFn subIdx fromPath
      (createGapStreaksFn (processAlignmentsFn (AutoAwesome.from al))) = Some fromPathResult
    /\ applySplitsFn subIdx to
         (createGapStreaksFn (processAlignmentsFn (AutoAwesome.to al))) = Some toPathResult
    /\ commandsAt fromPathResult subIdx = Some cf
    /\ commandsAt toPathResult subIdx = Some ct
    /\ length cf = length (AutoAwesome.from al)
    /\ length ct = length cf.
Proof.
  intros Hf Ht Hnf Hnt Hlen Hof Hot.
  destruct (applySplitsFn_length subIdx fromPath spf (AutoAwesome.from al) Hf Hnf)
    as (f' & spf' & Ef & Hspf' & Hlf).
  destruct (applySplitsFn_length subIdx to spt (AutoAwesome.to al) Ht Hnt)
    as (t' & spt' & Et & Hspt' & Hlt).
  exists f', t', (getCommands spf'), (getCommands spt').
  split; [exact Ef |]. split; [exact Et |].
  unfold commandsAt. rewrite Hspf', Hspt'. split; [reflexivity |]. split; [reflexivity |].
  pose proof (filter_length isObj (AutoAwesome.from al)) as Hpf.
  pose proof (filter_length isObj (AutoAwesome.to al)) as Hpt.
  unfold numObjs, numGaps in *. lia.
Qed.

End Splits.

Section Compatible.

Import AutoAwesome.
Local Open Scope list_scope.

Context {Path SubPath Command Point num : Type}
        `{Collaborators Path SubPath Command Point num}.

#[local] Abbreviation Info := (@AlignmentInfo Path Command num).

Lemma autoConvertFrom_same_kinds subIdx (to : Path) (ct : list Command) :
  commandsAt to subIdx = Some ct ->
  forall (fromCmds : list Command) cmdIdx (fromMutator toMutator : Path),
    (forall j a, fromCmds !! j = Some a ->
                 exists b, ct !! (cmdIdx + j) = Some b /\ getSvgChar a = getSvgChar b) ->
    autoConvertFrom subIdx cmdIdx fromCmds to fromMutator toMutator
    = Some (fromMutator, toMutator).
Proof.
  intros Hct. induction fromCmds as [| a rest IH]; intros cmdIdx fm tm Hsame; [reflexivity |].
  cbn [autoConvertFrom].
  destruct (Hsame 0 a eq_refl) as (b & Hb & Hk). rewrite Nat.add_0_r in Hb.
  rewrite (getCommand_commandsAt to subIdx ct cmdIdx Hct), Hb. cbn.
  rewrite Hk, String.eqb_refl. apply IH.
  intros j a' Ha'. destruct (Hsame (S j) a' Ha') as (b' & Hb' & Hk').
  exists b'. split; [| exact Hk']. rewrite <- Hb'. f_equal. lia.
Qed.

(** X22: on two paths whose subpaths already agree in kind, command by
    command, [autoConvert] converts nothing: it returns the two paths as
    they are. *)
Theorem autoConvert_of_same_kinds subIdx (from to : Path) (cf ct : list Command) :
  commandsAt from subIdx = Some cf ->
  commandsAt to subIdx = Some ct ->
  (forall j a, cf !! j = Some a -> exists b, ct !! j = Some b /\ getSvgChar a = getSvgChar b) ->
  autoConvert subIdx from to = Some (from, to).
Proof.
  intros Hcf Hct Hsame. unfold autoConvert.
  unfold commandsAt in Hcf. destruct (getSubPath from subIdx) as [sp |]; [| discriminate].
  cbn in Hcf. inversion Hcf; subst. cbn.
  apply (autoConvertFrom_same_kinds subIdx to ct Hct). exact Hsame.
Qed.

Lemma shiftedPaths_head subIdx (p : Path) l :
  shiftedPaths subIdx p = Some l -> exists l', l = p :: l'.
Proof.
  unfold shiftedPaths. destruct (getSubPath p subIdx); [| discriminate].
  cbn. intros E. inversion E. eauto.
Qed.

Lemma alignmentInfos_In subIdx paths (to : Path) (infos : list Info) info :
  alignmentInfos subIdx paths to = Some infos -> In info infos ->
  exists fromSp toSp,
    getSubPath (generatedFromPath info) subIdx = Some fromSp
    /\ getSubPath to subIdx = Some toSp
    /\ alignment info = align (getCommands fromSp) (getCommands toSp) getScoreFn.
Proof.
  unfold alignmentInfos. intros Hm Hin. apply mapM_Some in Hm.
  induction Hm as [| p i ps infos0 Hp Hm IH]; [destruct Hin |].
  destruct Hin as [<- | Hin]; [| apply IH; exact Hin].
  destruct (getSubPath p subIdx) as [fromSp |] eqn:Ef; [| discriminate]. cbn in Hp.
  destruct (getSubPath to subIdx) as [toSp |]; [| discriminate]. cbn in Hp.
  inversion Hp; subst. cbn [generatedFromPath alignment fst snd]. eauto.
Qed.

(** X23: the [reduce] of the alignment selection never meets an empty
    array: the candidates always hold the from-path itself, so whenever the
    candidates and their alignments are built, an alignment is selected,
    and it is the alignment of one of the candidates with the target. *)
Theorem selected_alignment_is_of_a_candidate subIdx (from to : Path)
    (paths : list Path) (infos : list Info) :
  fromPaths subIdx from = Some paths ->
  alignmentInfos subIdx paths to = Some infos ->
  In from paths
  /\ exists best fromSp toSp,
       bestAlignment infos = Some best
       /\ In (generatedFromPath best) paths
       /\ getSubPath (generatedFromPath best) subIdx = Some fromSp
       /\ getSubPath to subIdx = Some toSp
       /\ alignment best = align (getCommands fromSp) (getCommands toSp) getScoreFn.
Proof.
  intros Hp Hi.
  assert (Hin : In from paths).
  { unfold fromPaths in Hp.
    destruct (shiftedPaths subIdx from) as [l1 |] eqn:E1; [| discriminate].
    destruct (shiftedPaths_head _ _ _ E1) as (l1' & ->). cbn in Hp.
    destruct (shiftedPaths subIdx (reverseSubPath subIdx from)); [| discriminate].
    cbn in Hp. inversion Hp. left. reflexivity. }
  split; [exact Hin |].
  assert (Hne : infos <> []).
  { intros ->. unfold alignmentInfos in Hi. apply length_mapM in Hi.
    destruct paths; [destruct Hin | discriminate]. }
  destruct infos as [| a l]; [congruence |].
  assert (Hb : bestAlignment (a :: l) = Some (fold_left higherScore l a)) by reflexivity.
  pose proof (bestAlignment_In _ _ Hb) as Hbin.
  pose proof (alignmentInfos_paths _ _ _ _ _ Hi Hbin) as Hpin.
  destruct (alignmentInfos_In _ _ _ _ _ Hi Hbin) as (fromSp & toSp & Hf & Ht & Eb).
  exists (fold_left higherScore l a), fromSp, toSp. repeat split; assumption.
Qed.

(** X24: on a path without subpaths [autoFix] has nothing to reconcile: it
    returns the two paths as they are. *)
Theorem autoFix_without_subpaths (fromPath toPath : Path) :
  getSubPaths fromPath = [] \/ getSubPaths toPath = [] ->
  autoFix fromPath toPath = Some (fromPath, toPath).
Proof.
  intros [E | E]; unfold autoFix; rewrite E; cbn [length];
    rewrite ?Nat.min_0_l, ?Nat.min_0_r; reflexivity.
Qed.

(** X25: the score of a pair of commands does not depend on their order,
    provided the distance of [MathUtil] does not: the test for a mismatch
    asks the same of both commands. *)
Theorem getScoreFn_symmetric (a b : Command) :
  (forall p q : Point, distance p q = distance q p) ->
  getScoreFn a b = getScoreFn b a.
Proof.
  intros Hd. unfold getScoreFn.
  rewrite (String.eqb_sym (getSvgChar b) (getSvgChar a)), (Hd (getEnd b) (getEnd a)).
  destruct (String.eqb (getSvgChar a) (getSvgChar b)),
    (canConvertTo a (getSvgChar b)), (canConvertTo b (getSvgChar a)); reflexivity.
Qed.

End Compatible.


Section KindsAfterFix.

Import AutoAwesome.
Local Open Scope list_scope.

Context {Path SubPath Command Point num : Type}
        `{Collaborators Path SubPath Command Point num}.

(** What [autoFixSubPath] relies on in its collaborators, none of which is
    among the sources.
    - The mutator: a reversal and a shift of a closed subpath keep the
      subpath and the number of its commands; a split at a command after
      the first adds one command for each fraction; a conversion gives the
      command it is addressed to the kind asked for and leaves the kinds of
      the others.
    - [PathUtil.sortPathOps] keeps the splits it sorts.
    - The aligner returns two sides of one length, each holding the
      commands of its input, one entry for each. *)
Hypothesis reverse_count :
  forall subIdx p sp,
    getSubPath p subIdx = Some sp ->
    exists sp',
      getSubPath (reverseSubPath subIdx p) subIdx = Some sp'
      /\ length (getCommands sp') = length (getCommands sp).
Hypothesis shift_count :
  forall subIdx i p sp,
    getSubPath p subIdx = Some sp ->
    1 <= i -> i + 1 < length (getCommands sp) ->
    exists sp',
      getSubPath (shiftSubPathBack subIdx i p) subIdx = Some sp'
      /\ length (getCommands sp') = length (getCommands sp).
Hypothesis split_length :
  forall subIdx cmdIdx ts p sp,
    getSubPath p subIdx = Some sp ->
    1 <= cmdIdx < length (getCommands sp) ->
    exists sp',
      getSubPath (splitCommand subIdx cmdIdx ts p) subIdx = Some sp'
      /\ length (getCommands sp') = length (getCommands sp) + length ts.
Hypothesis convert_kinds :
  forall subIdx cmdIdx ch (p : Path) ks,
    kindsAt p subIdx = Some ks -> cmdIdx < length ks ->
    kindsAt (convertCommand subIdx cmdIdx ch p) subIdx = Some (<[cmdIdx := ch]> ks).
Hypothesis sort_permutes : forall ops, Permutation (sortPathOps ops) ops.
Hypothesis align_wellformed :
  forall (a b : list Command) (f : Command -> Command -> num),
    length (AutoAwesome.from (align a b f)) = length (AutoAwesome.to (align a b f))
    /\ numObjs (AutoAwesome.from (align a b f)) = length a
    /\ numObjs (AutoAwesome.to (align a b f)) = length b.

#[local] Abbreviation Info := (@AlignmentInfo Path Command num).

Lemma shiftedPaths_count subIdx (p : Path) (sp : SubPath) :
  getSubPath p subIdx = Some sp ->
  exists l,
    shiftedPaths subIdx p = Some l
    /\ forall q, In q l ->
                 exists sq, getSubPath q subIdx = Some sq
                            /\ length (getCommands sq) = length (getCommands sp).
Proof.
  intros Hsp. destruct (elem_shiftedPaths subIdx p sp p Hsp) as (l & El & _).
  exists l. split; [exact El |]. intros q Hq.
  destruct (elem_shiftedPaths subIdx p sp q Hsp) as (l' & El' & Hin).
  rewrite El in El'. inversion El'; subst l'. apply Hin in Hq.
  destruct Hq as [-> | (_ & i & H1 & H2 & ->)]; [eauto |].
  apply shift_count; assumption.
Qed.

(** Every candidate holds the subpath, with as many commands as the
    original has. *)
Lemma fromPaths_count subIdx (from : Path) (sf : SubPath) :
  getSubPath from subIdx = Some sf ->
  exists paths,
    fromPaths subIdx from = Some paths
    /\ forall q, In q paths ->
                 exists sq, getSubPath q subIdx = Some sq
                            /\ length (getCommands sq) = length (getCommands sf).
Proof.
  intros Hsf. unfold fromPaths.
  destruct (shiftedPaths_count subIdx from sf Hsf) as (l1 & E1 & H1).
  destruct (reverse_count subIdx from sf Hsf) as (rsp & Hrsp & Lr).
  destruct (shiftedPaths_count subIdx _ rsp Hrsp) as (l2 & E2 & H2).
  rewrite E1, E2. cbn. eexists. split; [reflexivity |].
  intros q Hq. apply in_app_or in Hq. destruct Hq as [Hq | Hq]; [apply H1; exact Hq |].
  destruct (H2 q Hq) as (sq & Hsq & Lq). exists sq. split; [exact Hsq | lia].
Qed.

Lemma alignmentInfos_succeeds subIdx (paths : list Path) (to : Path) (st : SubPath) :
  getSubPath to subIdx = Some st ->
  (forall q, In q paths -> exists sq, getSubPath q subIdx = Some sq) ->
  exists infos : list Info, alignmentInfos subIdx paths to = Some infos.
Proof.
  intros Hst. unfold alignmentInfos. induction paths as [| q paths IH]; intros Hall.
  - exists []. reflexivity.
  - destruct (Hall q (or_introl eq_refl)) as (sq & Hsq).
    destruct IH as (infos & E); [intros q' Hq'; apply Hall; right; exact Hq' |].
    cbn [mapM]. rewrite E, Hsq. cbn. rewrite Hst. cbn. eauto.
Qed.

(** After the gaps of the selected alignment have been filled, the two
    subpaths have equally many commands. *)
Lemma splitResults_lengths subIdx (from to : Path) (sf st : SubPath) :
  getSubPath from subIdx = Some sf ->
  getSubPath to subIdx = Some st ->
  2 <= length (getCommands sf) ->
  2 <= length (getCommands st) ->
  exists fromPathResult toPathResult cf ct,
    splitResults subIdx from to = Some (fromPathResult, toPathResult)
    /\ commandsAt fromPathResult subIdx = Some cf
    /\ commandsAt toPathResult subIdx = Some ct
    /\ length cf = length ct.
Proof.
  intros Hsf Hst Lf Lt. unfold splitResults.
  destruct (fromPaths_count subIdx from sf Hsf) as (paths & Ep & Hcount).
  rewrite Ep. cbn.
  destruct (alignmentInfos_succeeds subIdx paths to st Hst) as (infos & Ei).
  { intros q Hq. destruct (Hcount q Hq) as (sq & Hsq & _). eauto. }
  rewrite Ei. cbn.
  assert (Hne : infos <> []).
  { intros ->. unfold alignmentInfos in Ei. apply length_mapM in Ei.
    unfold fromPaths in Ep.
    destruct (shiftedPaths subIdx from) as [l1 |] eqn:E1; [| discriminate].
    destruct (shiftedPaths_head _ _ _ E1) as (l1' & ->). cbn in Ep.
    destruct (shiftedPaths subIdx (reverseSubPath subIdx from)); [| discriminate].
    cbn in Ep. inversion Ep; subst paths. discriminate. }
  destruct infos as [| i0 infos]; [congruence |].
  assert (Eb : bestAlignment (i0 :: infos) = Some (fold_left higherScore infos i0))
    by reflexivity.
  rewrite Eb. cbn. set (best := fold_left higherScore infos i0) in *.
  pose proof (bestAlignment_In _ _ Eb) as Hbin.
  pose proof (alignmentInfos_paths _ _ _ _ _ Ei Hbin) as Hpin.
  destruct (alignmentInfos_In _ _ _ _ _ Ei Hbin) as (fromSp & toSp & Hf & Ht & Ea).
  rewrite Hst in Ht. inversion Ht; subst toSp; clear Ht.
  destruct (Hcount _ Hpin) as (sq & Hsq & Lq). rewrite Hf in Hsq. inversion Hsq; subst sq.
  destruct (align_wellformed (getCommands fromSp) (getCommands st) getScoreFn)
    as (Hlen & Hof & Hot).
  rewrite <- Ea in Hlen, Hof, Hot.
  destruct (applySplitsFn_length split_length sort_permutes subIdx (generatedFromPath best)
              fromSp (AutoAwesome.from (alignment best)) Hf)
    as (f' & spf' & Ef & Hspf' & Hlf); [lia |].
  destruct (applySplitsFn_length split_length sort_permutes subIdx to st
              (AutoAwesome.to (alignment best)) Hst Lt)
    as (t' & spt' & Et & Hspt' & Hlt).
  rewrite Ef. cbn. rewrite Et. cbn.
  exists f', t', (getCommands spf'), (getCommands spt').
  split; [reflexivity |]. unfold commandsAt. rewrite Hspf', Hspt'.
  split; [reflexivity |]. split; [reflexivity |].
  pose proof (filter_length isObj (AutoAwesome.from (alignment best))) as Hpf.
  pose proof (filter_length isObj (AutoAwesome.to (alignment best))) as Hpt.
  unfold numObjs, numGaps in *. lia.
Qed.

(** C2, as amended: given collaborators as above and two subpaths of two
    commands or more, [autoFixSubPath] returns.  Filling the gaps of the
    selected alignment leaves the two subpaths with equally many commands,
    and the conversion pass then gives every position the kinds that its
    callback gives the pair of commands there: the two returned subpaths
    have equally many commands, and their kinds at a position are the same
    exactly when the pair that the splits left there is of one kind or
    converts one way or the other; a pair that converts in neither
    direction keeps its two kinds.  Where every pair is convertible the two
    kind sequences are identical. *)
Theorem autoFixSubPath_kinds subIdx (from to : Path) (sf st : SubPath) :
  getSubPath from subIdx = Some sf ->
  getSubPath to subIdx = Some st ->
  2 <= length (getCommands sf) ->
  2 <= length (getCommands st) ->
  exists fromPathResult toPathResult cf ct from' to' kf kt,
    splitResults subIdx from to = Some (fromPathResult, toPathResult)
    /\ commandsAt fromPathResult subIdx = Some cf
    /\ commandsAt toPathResult subIdx = Some ct
    /\ autoFixSubPath subIdx from to = Some (from', to')
    /\ kindsAt from' subIdx = Some kf
    /\ kindsAt to' subIdx = Some kt
    /\ length kf = length kt
    /\ length kf = length cf
    /\ length cf = length ct
    /\ (forall j a b,
          cf !! j = Some a -> ct !! j = Some b ->
          kf !! j = Some (fst (kindsAfterConvert a b))
          /\ kt !! j = Some (snd (kindsAfterConvert a b))
          /\ (kf !! j = kt !! j <-> convertiblePair a b))
    /\ ((forall j a b, cf !! j = Some a -> ct !! j = Some b -> convertiblePair a b) ->
        kf = kt).
Proof.
  intros Hsf Hst Lf Lt.
  destruct (splitResults_lengths subIdx from to sf st Hsf Hst Lf Lt)
    as (fr & tr & cf & ct & Es & Hcf & Hct & Hlen).
  destruct (autoConvert_kinds convert_kinds subIdx fr tr cf ct Hcf Hct Hlen)
    as (f' & t' & kf & kt & Ec & Hkf & Hkt & Lkf & Lkt & Hk).
  exists fr, tr, cf, ct, f', t', kf, kt.
  assert (Hpos : forall j a b,
             cf !! j = Some a -> ct !! j = Some b ->
             kf !! j = Some (fst (kindsAfterConvert a b))
             /\ kt !! j = Some (snd (kindsAfterConvert a b))
             /\ (kf !! j = kt !! j <-> convertiblePair a b)).
  { intros j a b Ha Hb. destruct (Hk j a b Ha Hb) as (E1 & E2).
    split; [exact E1 |]. split; [exact E2 |]. rewrite E1, E2.
    rewrite <- kindsAfterConvert_agree. split; [intros E; inversion E; reflexivity | congruence]. }
  split; [exact Es |]. split; [exact Hcf |]. split; [exact Hct |].
  split; [unfold autoFixSubPath; rewrite Es; exact Ec |].
  split; [exact Hkf |]. split; [exact Hkt |].
  split; [lia |]. split; [exact Lkf |]. split; [exact Hlen |]. split; [exact Hpos |].
  intros Hall. apply list_eq. intros j.
  destruct (cf !! j) as [a |] eqn:Ha.
  - destruct (lookup_lt_is_Some_2 ct j) as [b Hb];
      [rewrite <- Hlen; eapply lookup_lt_Some; exact Ha |].
    destruct (Hpos j a b Ha Hb) as (_ & _ & Hiff). apply Hiff. eapply Hall; eassumption.
  - apply lookup_ge_None_1 in Ha. rewrite !lookup_ge_None_2; [reflexivity | lia | lia].
Qed.

End KindsAfterFix.


(* ===================================================================== *)
(** * Runs of AutoAwesome on polygons                                     *)
(* ===================================================================== *)

Section PolygonRuns.

Import AutoAwesome Polygons.
Local Open Scope list_scope.

#[local] Abbreviation PPath := (list (list Cmd)).

(** ** The polygon instance keeps the contract of the mutator *)

Lemma alter_frame (f : list Cmd -> list Cmd) subIdx (p : PPath) :
  othersUnchanged subIdx p (alter f subIdx p).
Proof.
  intros j Hj. simpl. apply list_lookup_alter_ne. congruence.
Qed.

Lemma map_kind_convertCmds cmdIdx ch (cmds : list Cmd) :
  map kind (convertCmds cmdIdx ch cmds) = <[cmdIdx := ch]> (map kind cmds).
Proof.
  unfold convertCmds. revert cmdIdx.
  induction cmds as [| c cmds IH]; intros [| i]; simpl; try reflexivity.
  f_equal. apply IH.
Qed.

Lemma polygons_convert_kinds subIdx cmdIdx ch (p : PPath) ks :
  kindsAt p subIdx = Some ks -> cmdIdx < length ks ->
  kindsAt (convertCommand subIdx cmdIdx ch p) subIdx = Some (<[cmdIdx := ch]> ks).
Proof.
  unfold kindsAt, commandsAt, getSubPath. simpl. intros Hks _.
  rewrite list_lookup_alter_eq. destruct (p !! subIdx) as [cmds |]; [| discriminate].
  simpl in *. inversion Hks; subst. rewrite map_kind_convertCmds. reflexivity.
Qed.

Lemma gtQ_trans (a b c : Q) :
  negb (Qle_bool a b) = true -> negb (Qle_bool b c) = true -> negb (Qle_bool a c) = true.
Proof.
  rewrite !negb_true_iff. intros Hab Hbc.
  destruct (Qle_bool a c) eqn:E; [| reflexivity].
  apply Qle_bool_iff in E.
  assert (~ (a <= b)%Q) as Nab by (rewrite <- Qle_bool_iff; congruence).
  assert (~ (b <= c)%Q) as Nbc by (rewrite <- Qle_bool_iff; congruence).
  apply Qnot_le_lt in Nab, Nbc. exfalso.
  apply (Qlt_irrefl c). eapply Qlt_le_trans; [exact Nbc |].
  eapply Qle_trans; [apply Qlt_le_weak; exact Nab | exact E].
Qed.

Lemma ngtQ_trans (a b c : Q) :
  negb (Qle_bool a b) = false -> negb (Qle_bool b c) = false -> negb (Qle_bool a c) = false.
Proof.
  rewrite !negb_false_iff, !Qle_bool_iff. apply Qle_trans.
Qed.

(** ** Alignment selection (C3) *)

(** C3, as stated, fails on the segment (0,0)-(8,0) aligned with a point at
    (4,4): the segment and its reversal are the two candidates, they score
    the same, and the reversal, generated second, is the one kept. *)
Lemma tie_keeps_the_later_candidate :
  exists i1 i2 : @AlignmentInfo PPath Cmd Q,
    (paths ← fromPaths 0 [segment]; alignmentInfos 0 paths [dot]) = Some [i1; i2]
    /\ generatedFromPath i1 = [segment]
    /\ generatedFromPath i2 = reverseSubPath 0 [segment]
    /\ [segment] <> reverseSubPath 0 [segment]
    /\ score (alignment i1) = score (alignment i2)
    /\ bestAlignment [i1; i2] = Some i2.
Proof.
  do 2 eexists. split; [vm_compute; reflexivity |].
  repeat split; try (vm_compute; reflexivity). vm_compute. discriminate.
Qed.

Lemma bestAlignment_is_last_highest_witness :
  let infos : list (@AlignmentInfo PPath Cmd Q) :=
    [([segment], mkAlignments [] [] (1 # 2)%Q);
     ([square], mkAlignments [] [] (3 # 4)%Q);
     ([triangle], mkAlignments [] [] (3 # 4)%Q);
     ([dot], mkAlignments [] [] (1 # 4)%Q)] in
  infos <> []
  /\ scoresOrdered infos
  /\ exists before best after,
       bestAlignment infos = Some best
       /\ infos = before ++ best :: after
       /\ (forall i, In i after -> gt (score (alignment best)) (score (alignment i)) = true)
       /\ (forall prev, bestAlignment before = Some prev ->
                        gt (score (alignment prev)) (score (alignment best)) = false)
       /\ (forall i, In i before -> gt (score (alignment i)) (score (alignment best)) = false).
Proof.
  intros infos. split; [discriminate |].
  assert (Hord : scoresOrdered infos).
  { split; intros a b c _ _ _; [apply gtQ_trans | apply ngtQ_trans]. }
  split; [exact Hord |].
  destruct (@bestAlignment_is_last_highest _ _ _ _ _ polygons infos)
    as (before & best & after & Hbest & Hs & Ha & Hp & Hb); [discriminate |].
  exists before, best, after. repeat split; auto.
Defined.

(** ** Candidate generation (C4) *)

Lemma shift_of_reversed_square (i : nat) :
  shiftSubPathBack 0 i (reverseSubPath 0 [square]) <> shiftSubPathBack 0 1 [square].
Proof.
  simpl. unfold shiftCmds.
  change (length (removelast (map endPt (reverseCmds square)))) with 4.
  pose proof (Nat.mod_upper_bound i 4 ltac:(lia)) as Hlt.
  destruct (i mod 4) as [| [| [| [| k]]]]; try lia; vm_compute; discriminate.
Qed.

(** C4, as stated, fails on a square: its rotation by one place is a
    candidate, and it is neither the square, nor its reversal, nor a
    rotation of the reversal; it is not among the candidates that the claim
    lists. *)
Lemma rotation_of_the_original_is_a_candidate :
  let p := shiftSubPathBack 0 1 [square] in
  (exists paths, fromPaths 0 [square] = Some paths /\ In p paths)
  /\ (exists stated, statedFromPaths 0 [square] = Some stated /\ ~ In p stated)
  /\ p <> [square]
  /\ p <> reverseSubPath 0 [square]
  /\ forall i, p <> shiftSubPathBack 0 i (reverseSubPath 0 [square]).
Proof.
  intros p. split; [| split; [| split; [| split]]].
  - eexists. split; [vm_compute; reflexivity |]. right. left. reflexivity.
  - eexists. split; [vm_compute; reflexivity |].
    intros Hin. repeat (destruct Hin as [Hin | Hin]; [vm_compute in Hin; discriminate |]).
    exact Hin.
  - vm_compute. discriminate.
  - vm_compute. discriminate.
  - intros i E. apply (shift_of_reversed_square i). symmetry. exact E.
Qed.

Lemma fromPaths_candidates_witness :
  getSubPath [square] 0 = Some square
  /\ getSubPath (reverseSubPath 0 [square]) 0 = Some (reverseCmds square)
  /\ exists paths,
       fromPaths 0 [square] = Some paths
       /\ forall q,
            In q paths <->
            q = [square]
            \/ (isClosed square = true
                /\ exists i, 1 <= i /\ i + 1 < length (getCommands square)
                             /\ q = shiftSubPathBack 0 i [square])
            \/ q = reverseSubPath 0 [square]
            \/ (isClosed (reverseCmds square) = true
                /\ exists i, 1 <= i /\ i + 1 < length (getCommands (reverseCmds square))
                             /\ q = shiftSubPathBack 0 i (reverseSubPath 0 [square])).
Proof.
  split; [reflexivity |]. split; [reflexivity |].
  apply (@fromPaths_candidates _ _ _ _ _ polygons 0 [square] square (reverseCmds square));
    reflexivity.
Defined.

(** ** The conversion pass (C2) *)

(** C2, as stated, fails on an arc aligned with a line: arcs and lines
    convert in neither direction, and the two returned subpaths keep the
    kinds M A A and M L L. *)
Lemma arc_and_line_stay_mismatched :
  exists from' to',
    autoFixSubPath 0 [arcPath] [linePath] = Some (from', to')
    /\ kindsAt from' 0 = Some ["M"; "A"; "A"]
    /\ kindsAt to' 0 = Some ["M"; "L"; "L"]
    /\ kindsAt from' 0 <> kindsAt to' 0.
Proof.
  do 2 eexists. split; [vm_compute; reflexivity |].
  repeat split; try (vm_compute; reflexivity). vm_compute. discriminate.
Qed.

(** ** The frame of autoFix (C10) *)


End PolygonRuns.

(* ===================================================================== *)
(** * Runs of the gap filling and of the conversion on polygons           *)
(* ===================================================================== *)

Section GapRuns.

Import AutoAwesome Polygons.
Local Open Scope list_scope.

#[local] Abbreviation PPath := (list (list Cmd)).

(** ** The polygon instance keeps the contract of the splits *)

Lemma length_splitCmds cmdIdx (ts : list Q) (cmds : list Cmd) :
  1 <= cmdIdx < length cmds ->
  length (splitCmds cmdIdx ts cmds) = length cmds + length ts.
Proof.
  intros Hi. unfold splitCmds. destruct cmdIdx as [| k]; [lia |].
  destruct (cmds !! (S k - 1)) as [prev |] eqn:E1;
    [| apply lookup_ge_None in E1; lia].
  destruct (cmds !! S k) as [c |] eqn:E2; [| apply lookup_ge_None in E2; lia].
  rewrite !length_app, length_take, length_map. cbn [length]. rewrite length_drop. lia.
Qed.

Lemma polygons_split_length subIdx cmdIdx (ts : list Q) (p : PPath) (sp : list Cmd) :
  getSubPath p subIdx = Some sp ->
  1 <= cmdIdx < length (getCommands sp) ->
  exists sp',
    getSubPath (splitCommand subIdx cmdIdx ts p) subIdx = Some sp'
    /\ length (getCommands sp') = length (getCommands sp) + length ts.
Proof.
  unfold getSubPath. cbn. intros Hsp Hi.
  exists (splitCmds cmdIdx ts sp). rewrite list_lookup_alter_eq, Hsp.
  split; [reflexivity |]. apply length_splitCmds. exact Hi.
Qed.

Lemma insertOp_permutes (op : SplitOp Q) ops : Permutation (insertOp op ops) (op :: ops).
Proof.
  induction ops as [| o ops IH]; cbn [insertOp]; [reflexivity |].
  destruct (opCmdIdx o <? opCmdIdx op)%nat; [reflexivity |].
  rewrite IH. apply perm_swap.
Qed.

Lemma polygons_sort_permutes (ops : list (SplitOp Q)) : Permutation (sortPathOps ops) ops.
Proof.
  cbn. unfold sortOps. induction ops as [| op ops IH]; [reflexivity |].
  cbn [foldr]. rewrite insertOp_permutes, IH. reflexivity.
Qed.

Lemma euclid_symmetric (p q : Pt) : euclid p q = euclid q p.
Proof.
  unfold euclid. cbn zeta.
  assert (E : Qfloor (((fst p - fst q) * (fst p - fst q)
                       + (snd p - snd q) * (snd p - snd q)) * 1000000)
              = Qfloor (((fst q - fst p) * (fst q - fst p)
                         + (snd q - snd p) * (snd q - snd p)) * 1000000))
    by (apply Qfloor_comp; ring).
  rewrite E. reflexivity.
Qed.

(** ** Runs *)


Lemma splits_equalise_lengths_witness :
  let al := align square triangle getScoreFn in
  length (AutoAwesome.from al) = length (AutoAwesome.to al)
  /\ numObjs (AutoAwesome.from al) = length (getCommands square)
  /\ numObjs (AutoAwesome.to al) = length (getCommands triangle)
  /\ exists fromPathResult toPathResult cf ct,
       applySplitsFn 0 [square]
         (createGapStreaksFn (processAlignmentsFn (AutoAwesome.from al)))
       = Some fromPathResult
       /\ applySplitsFn 0 [triangle]
            (createGapStreaksFn (processAlignmentsFn (AutoAwesome.to al)))
          = Some toPathResult
       /\ commandsAt fromPathResult 0 = Some cf
       /\ commandsAt toPathResult 0 = Some ct
       /\ length cf = length (AutoAwesome.from al)
       /\ length ct = length cf.
Proof.
  intros al. split; [vm_compute; reflexivity |]. split; [vm_compute; reflexivity |].
  split; [vm_compute; reflexivity |].
  apply (@splits_equalise_lengths _ _ _ _ _ polygons polygons_split_length
           polygons_sort_permutes 0 [square] [triangle] square triangle al);
    first [reflexivity | cbn; lia | vm_compute; reflexivity].
Defined.

Lemma autoConvert_of_same_kinds_witness :
  let moved := [M 1 1; L 9 1; L 9 9; L 1 9; Zc 1 1] in
  autoConvert 0 [square] [moved] = Some ([square], [moved]).
Proof.
  intros moved.
  apply (@autoConvert_of_same_kinds _ _ _ _ _ polygons 0 [square] [moved] square moved);
    [reflexivity | reflexivity |].
  intros j a Ha.
  destruct j as [| [| [| [| [| j]]]]]; cbn in Ha; try discriminate;
    inversion Ha; subst; eexists; (split; [reflexivity | reflexivity]).
Defined.

Lemma selected_alignment_is_of_a_candidate_witness :
  exists (paths : list PPath) (infos : list (@AlignmentInfo PPath Cmd Q)),
    fromPaths 0 [segment] = Some paths
    /\ alignmentInfos 0 paths [dot] = Some infos
    /\ In [segment] paths
    /\ exists best fromSp toSp,
         bestAlignment infos = Some best
         /\ In (generatedFromPath best) paths
         /\ getSubPath (generatedFromPath best) 0 = Some fromSp
         /\ getSubPath [dot] 0 = Some toSp
         /\ alignment best = align (getCommands fromSp) (getCommands toSp) getScoreFn.
Proof.
  do 2 eexists. split; [vm_compute; reflexivity |]. split; [vm_compute; reflexivity |].
  apply (@selected_alignment_is_of_a_candidate _ _ _ _ _ polygons 0 [segment] [dot]);
    vm_compute; reflexivity.
Defined.

Lemma autoFix_without_subpaths_witness :
  autoFix ([] : PPath) [square] = Some ([], [square]).
Proof.
  apply (@autoFix_without_subpaths _ _ _ _ _ polygons [] [square]). left. reflexivity.
Defined.

Lemma getScoreFn_symmetric_witness :
  getScoreFn (L 8 0) (Zc 0 0) = getScoreFn (Zc 0 0) (L 8 0).
Proof.
  apply (@getScoreFn_symmetric _ _ _ _ _ polygons (L 8 0) (Zc 0 0)). exact euclid_symmetric.
Defined.

(** ** The polygon instance keeps the contract of the candidates and of the aligner *)

Lemma polygons_reverse_count subIdx (p : PPath) (sp : list Cmd) :
  getSubPath p subIdx = Some sp ->
  exists sp',
    getSubPath (reverseSubPath subIdx p) subIdx = Some sp'
    /\ length (getCommands sp') = length (getCommands sp).
Proof.
  unfold getSubPath. cbn. intros Hsp.
  exists (reverseCmds sp). rewrite list_lookup_alter_eq, Hsp. split; [reflexivity |].
  unfold reverseCmds. rewrite length_zip_with, length_rev, !length_map. lia.
Qed.

Lemma polygons_shift_count subIdx i (p : PPath) (sp : list Cmd) :
  getSubPath p subIdx = Some sp ->
  1 <= i -> i + 1 < length (getCommands sp) ->
  exists sp',
    getSubPath (shiftSubPathBack subIdx i p) subIdx = Some sp'
    /\ length (getCommands sp') = length (getCommands sp).
Proof.
  unfold getSubPath. cbn. intros Hsp Hi Hn.
  exists (shiftCmds i sp). rewrite list_lookup_alter_eq, Hsp. split; [reflexivity |].
  unfold shiftCmds.
  rewrite length_zip_with, length_app, length_firstn, length_rotate, removelast_firstn_len,
    length_firstn, !length_map.
  lia.
Qed.

Lemma numObjs_entry (a : option Cmd) (al : list (option Cmd)) :
  numObjs (a :: al) = match a with Some _ => 1 | None => 0 end + numObjs al.
Proof. destruct a; reflexivity. Qed.

(** The backtrace hands out one entry to both sides in every step, and a
    command to a side exactly when it moves up in that side's input. *)
Lemma backtrace_wellformed (sc : Cmd -> Cmd -> Q) (t : list (list Q)) (a b : list Cmd) fuel :
  forall i j accFrom accTo,
    i <= length a -> j <= length b -> i + j <= fuel ->
    length accFrom = length accTo ->
    length (fst (backtrace fuel sc t a b i j accFrom accTo))
    = length (snd (backtrace fuel sc t a b i j accFrom accTo))
    /\ numObjs (fst (backtrace fuel sc t a b i j accFrom accTo)) = numObjs accFrom + i
    /\ numObjs (snd (backtrace fuel sc t a b i j accFrom accTo)) = numObjs accTo + j.
Proof.
  induction fuel as [| f IH]; intros i j accFrom accTo Hi Hj Hf Hacc.
  - assert (i = 0) by lia. assert (j = 0) by lia. subst. cbn [backtrace fst snd]. lia.
  - cbn [backtrace]. destruct i as [| i'], j as [| j'].
    + cbn [fst snd]. lia.
    + destruct (lookup_lt_is_Some_2 b j') as [cb Hb]; [lia |]. rewrite Hb.
      destruct (IH 0 j' (None :: accFrom) (Some cb :: accTo)) as (H1 & H2 & H3);
        [lia | lia | lia | cbn [length]; lia |].
      rewrite !numObjs_entry in *. split; [exact H1 |]. split; lia.
    + destruct (lookup_lt_is_Some_2 a i') as [ca Ha]; [lia |]. rewrite Ha.
      destruct (IH i' 0 (Some ca :: accFrom) (None :: accTo)) as (H1 & H2 & H3);
        [lia | lia | lia | cbn [length]; lia |].
      rewrite !numObjs_entry in *. split; [exact H1 |]. split; lia.
    + destruct (lookup_lt_is_Some_2 a i') as [ca Ha]; [lia |].
      destruct (lookup_lt_is_Some_2 b j') as [cb Hb]; [lia |]. rewrite Ha, Hb.
      destruct (Qeq_bool _ _).
      { destruct (IH i' j' (Some ca :: accFrom) (Some cb :: accTo)) as (H1 & H2 & H3);
          [lia | lia | lia | cbn [length]; lia |].
        rewrite !numObjs_entry in *. split; [exact H1 |]. split; lia. }
      destruct (Qeq_bool _ _).
      { destruct (IH i' (S j') (Some ca :: accFrom) (None :: accTo)) as (H1 & H2 & H3);
          [lia | lia | lia | cbn [length]; lia |].
        rewrite !numObjs_entry in *. split; [exact H1 |]. split; lia. }
      destruct (IH (S i') j' (None :: accFrom) (Some cb :: accTo)) as (H1 & H2 & H3);
        [lia | lia | lia | cbn [length]; lia |].
      rewrite !numObjs_entry in *. split; [exact H1 |]. split; lia.
Qed.

Lemma polygons_align_wellformed (a b : list Cmd) (f : Cmd -> Cmd -> Q) :
  length (AutoAwesome.from (align a b f)) = length (AutoAwesome.to (align a b f))
  /\ numObjs (AutoAwesome.from (align a b f)) = length a
  /\ numObjs (AutoAwesome.to (align a b f)) = length b.
Proof.
  cbn [align polygons]. unfold needlemanWunsch.
  pose proof (backtrace_wellformed f (nwTable f a b) a b (length a + length b)
                (length a) (length b) [] [] (Nat.le_refl _) (Nat.le_refl _) (Nat.le_refl _)
                eq_refl) as Hb.
  destruct (backtrace _ _ _ _ _ _ _ _ _) as [x y]. exact Hb.
Qed.

(** ** The kinds after autoFixSubPath (C2) *)

Lemma autoFixSubPath_kinds_witness :
  let cf := [M 0 0; L 8 0; L 8 8; L 0 8; Zc 0 0] in
  let ct := [M 0 0; L 8 0; L 8 6; Zc 4 3; Zc 0 0] in
  let from' := [cf] in
  let to' := [[M 0 0; L 8 0; L 8 6; L 4 3; Zc 0 0]] in
  let ks := ["M"; "L"; "L"; "L"; "Z"] in
  2 <= length (getCommands square)
  /\ 2 <= length (getCommands triangle)
  /\ splitResults 0 [square] [triangle] = Some ([cf], [ct])
  /\ autoFixSubPath 0 [square] [triangle] = Some (from', to')
  /\ kindsAt from' 0 = Some ks
  /\ kindsAt to' 0 = Some ks
  /\ exists fromPathResult toPathResult cf0 ct0 from0 to0 kf kt,
       splitResults 0 [square] [triangle] = Some (fromPathResult, toPathResult)
       /\ commandsAt fromPathResult 0 = Some cf0
       /\ commandsAt toPathResult 0 = Some ct0
       /\ autoFixSubPath 0 [square] [triangle] = Some (from0, to0)
       /\ kindsAt from0 0 = Some kf
       /\ kindsAt to0 0 = Some kt
       /\ length kf = length kt
       /\ length kf = length cf0
       /\ length cf0 = length ct0
       /\ (forall j a b,
             cf0 !! j = Some a -> ct0 !! j = Some b ->
             kf !! j = Some (fst (kindsAfterConvert a b))
             /\ kt !! j = Some (snd (kindsAfterConvert a b))
             /\ (kf !! j = kt !! j <-> convertiblePair a b))
       /\ ((forall j a b, cf0 !! j = Some a -> ct0 !! j = Some b -> convertiblePair a b) ->
           kf = kt).
Proof.
  intros cf ct from' to' ks.
  split; [cbn; lia |]. split; [cbn; lia |].
  split; [vm_compute; reflexivity |]. split; [vm_compute; reflexivity |].
  split; [reflexivity |]. split; [reflexivity |].
  apply (@autoFixSubPath_kinds _ _ _ _ _ polygons
           polygons_reverse_count polygons_shift_count polygons_split_length
           polygons_convert_kinds polygons_sort_permutes polygons_align_wellformed
           0 [square] [triangle] square triangle);
    first [reflexivity | cbn; lia].
Defined.


End GapRuns.

(* ===================================================================== *)
(** * Properties of MorphSubPathHelper                                    *)
(* ===================================================================== *)

Section HelperProperties.

Import MorphSubPathHelper.
Local Open Scope list_scope.
Local Open Scope Z_scope.

Context {SubPath : Type}.
Variable getSubPath : nat -> option SubPath.
Variable isSplit : SubPath -> bool.

#[local] Abbreviation Info := (@Info SubPath).
#[local] Abbreviation infosOf :=
  (map (fun subIdx => mkInfo subIdx (getSubPath subIdx))).
#[local] Abbreviation splitOf := (fun info : Info => isSplit <$> subPath info).

Lemma findLastIndexFrom_spec {A} (p : A -> option bool) (r : list A) :
  forall index z,
    findLastIndexFrom p r index = Some z ->
    (z = -1 /\ Forall (fun y => p y = Some false) r)
    \/ (exists r1 x r2,
          r = (r1 ++ x :: r2)%list /\ z = index - Z.of_nat (length r1)
          /\ p x = Some true /\ Forall (fun y => p y = Some false) r1).
Proof.
  induction r as [| a r IH]; intros index z E; cbn [findLastIndexFrom] in E.
  - inversion E. left. split; [reflexivity | constructor].
  - destruct (p a) as [[|] |] eqn:Ea; [| | discriminate].
    + inversion E; subst. right. exists [], a, r. cbn.
      repeat split; [lia | exact Ea | constructor].
    + apply IH in E. destruct E as [(-> & Hall) | (r1 & x & r2 & -> & -> & Hx & Hall)].
      * left. split; [reflexivity |]. constructor; assumption.
      * right. exists (a :: r1), x, r2. cbn [app length].
        repeat split; [lia | exact Hx |]. constructor; assumption.
Qed.

Lemma findLastIndex_spec {A} (p : A -> option bool) (l : list A) z :
  findLastIndex p l = Some z ->
  (z = -1 /\ Forall (fun y => p y = Some false) l)
  \/ (exists before x after,
        l = (before ++ x :: after)%list /\ z = Z.of_nat (length before)
        /\ p x = Some true /\ Forall (fun y => p y = Some false) after).
Proof.
  unfold findLastIndex. intros E. apply findLastIndexFrom_spec in E.
  destruct E as [(-> & Hall) | (r1 & x & r2 & Hr & -> & Hx & Hall)].
  - left. split; [reflexivity |]. apply Forall_reverse. exact Hall.
  - right. exists (reverse r2), x, (reverse r1).
    assert (Hl : l = (reverse r2 ++ x :: reverse r1)%list).
    { rewrite <- (reverse_involutive l), Hr, reverse_app, reverse_cons, <- app_assoc.
      reflexivity. }
    split; [exact Hl |]. split.
    + rewrite Hl at 1. rewrite length_app, !length_reverse. cbn [length].
      rewrite length_reverse. lia.
    + split; [exact Hx |]. apply Forall_reverse. exact Hall.
Qed.

Lemma at_middle {A} (before after : list A) (x : A) :
  at_ (before ++ x :: after)%list (Z.of_nat (length before)) = Some x.
Proof.
  unfold at_. destruct (Z.ltb_spec (Z.of_nat (length before)) 0); [lia |].
  rewrite Nat2Z.id. apply list_lookup_middle. reflexivity.
Qed.

Lemma at_last {A} (l : list A) (x : A) :
  at_ (l ++ [x])%list (Z.of_nat (length (l ++ [x])%list) - 1) = Some x.
Proof.
  rewrite length_app. cbn [length].
  replace (Z.of_nat (length l + 1) - 1) with (Z.of_nat (length l)) by lia.
  apply at_middle.
Qed.

Lemma infosOf_app_inv (hits : list nat) (before after : list Info) (x : Info) :
  infosOf hits = (before ++ x :: after)%list ->
  exists hb ha,
    hits = (hb ++ subIdx x :: ha)%list /\ subPath x = getSubPath (subIdx x)
    /\ before = infosOf hb /\ after = infosOf ha.
Proof.
  revert before. induction hits as [| h hits IH]; intros before E.
  - destruct before; discriminate.
  - destruct before as [| b before]; cbn in E; inversion E; subst.
    + exists [], hits. repeat split.
    + destruct (IH before H1) as (hb & ha & -> & Hs & -> & ->).
      exists (h :: hb), ha. repeat split. exact Hs.
Qed.

Lemma Forall_infosOf (b : bool) (hits : list nat) :
  Forall (fun info => splitOf info = Some b) (infosOf hits) ->
  Forall (splitAt getSubPath isSplit b) hits.
Proof.
  induction hits as [| h hits IH]; intros Hall; [constructor |].
  inversion Hall as [| ? ? Hh Hall']; subst. constructor; [| apply IH; exact Hall'].
  cbn in Hh. unfold splitAt. destruct (getSubPath h) as [sp |]; [| discriminate].
  cbn in Hh. inversion Hh. eauto.
Qed.

(** X26: [findHitSubPath] returns the last hit whose subpath is split and,
    when no hit has a split subpath, the last hit.  Where it returns an
    entry, the entry pairs a hit with its subpath in the active path, every
    hit after it has a subpath that is not split, and either its own
    subpath is split or it is the last hit and no hit has a split
    subpath. *)
Theorem findHitSubPath_is_last_split_hit (hits : list nat) (info : Info) :
  findHitSubPath getSubPath isSplit hits = Some (Some info) ->
  exists before after,
    hits = (before ++ subIdx info :: after)%list
    /\ subPath info = getSubPath (subIdx info)
    /\ Forall (splitAt getSubPath isSplit false) after
    /\ (splitAt getSubPath isSplit true (subIdx info)
        \/ (after = [] /\ Forall (splitAt getSubPath isSplit false) hits)).
Proof.
  unfold findHitSubPath. cbn zeta.
  destruct (findLastIndex splitOf (infosOf hits)) as [z |] eqn:Ez; [| discriminate].
  cbn. intros E. inversion E as [Hat]; clear E.
  destruct (findLastIndex_spec _ _ _ Ez)
    as [(-> & Hall) | (before & x & after & Hl & -> & Hx & Hall)].
  - (* no split hit: the last entry *)
    change (-1 <? 0) with true in Hat. cbn iota in Hat.
    destruct (infosOf hits) as [| i0 l0] eqn:El using rev_ind.
    + discriminate.
    + rewrite at_last in Hat. inversion Hat; subst i0.
      destruct (infosOf_app_inv hits l0 [] info El) as (hb & ha & Hh & Hs & -> & Ha).
      destruct ha; [| discriminate].
      exists hb, []. split; [exact Hh |]. split; [exact Hs |]. split; [constructor |].
      right. split; [reflexivity |]. apply (Forall_infosOf false).
      rewrite El. exact Hall.
  - (* the last split hit *)
    destruct (Z.ltb_spec (Z.of_nat (length before)) 0); [lia |].
    rewrite Hl, at_middle in Hat. inversion Hat; subst x.
    destruct (infosOf_app_inv hits before after info Hl) as (hb & ha & Hh & Hs & -> & ->).
    exists hb, ha. split; [exact Hh |]. split; [exact Hs |].
    split; [apply (Forall_infosOf false); exact Hall |].
    left. cbn in Hx. rewrite Hs in Hx. unfold splitAt.
    destruct (getSubPath (subIdx info)) as [sp |]; [| discriminate].
    cbn in Hx. inversion Hx. eauto.
Qed.

(** X27: [findHitSubPath] returns [undefined] on the empty list of hits
    and only there: on a list that holds a hit it returns an entry or
    throws. *)
Theorem findHitSubPath_undefined_iff_no_hits (hits : list nat) :
  findHitSubPath getSubPath isSplit hits = Some None <-> hits = [].
Proof.
  split; [| intros ->; reflexivity].
  unfold findHitSubPath. cbn zeta.
  destruct (findLastIndex splitOf (infosOf hits)) as [z |] eqn:Ez; [| discriminate].
  cbn. intros E. inversion E as [Hat]; clear E.
  destruct (findLastIndex_spec _ _ _ Ez)
    as [(-> & Hall) | (before & x & after & Hl & -> & Hx & Hall)].
  - change (-1 <? 0) with true in Hat. cbn iota in Hat.
    destruct (infosOf hits) as [| i0 l0] eqn:El using rev_ind.
    + destruct hits; [reflexivity | discriminate].
    + rewrite at_last in Hat. discriminate.
  - destruct (Z.ltb_spec (Z.of_nat (length before)) 0); [lia |].
    rewrite Hl, at_middle in Hat. discriminate.
Qed.

(** X28: what a click pairs is what the pointer hovers: on a hit result
    flagged as a hit, [onMouseDown] pairs the subpath [i] exactly when
    [checkForHovers] sets the hover on the subpath [i], and the one throws
    exactly when the other does. *)
Theorem click_pairs_the_hovered_subpath (hitResult : HitResult) (shift : bool) :
  isHit hitResult = true ->
  (forall i, onMouseDown getSubPath isSplit hitResult shift = Some [PairSubPath i]
             <-> checkForHovers getSubPath isSplit hitResult = Some [SetHover i])
  /\ (onMouseDown getSubPath isSplit hitResult shift = None
      <-> checkForHovers getSubPath isSplit hitResult = None).
Proof.
  intros Hh. unfold onMouseDown, checkForHovers. rewrite Hh. cbn [negb].
  destruct (isSegmentHit hitResult || isShapeHit hitResult).
  - destruct (hitSubIdx getSubPath isSplit _) as [j |]; cbn.
    + split; [| split; discriminate].
      intros i. split; intros E; inversion E; reflexivity.
    + split; [| split; reflexivity].
      intros i. split; discriminate.
  - split; [| split; destruct (negb shift); discriminate].
    intros i. split; [destruct (negb shift) |]; discriminate.
Qed.

End HelperProperties.

Section HelperRuns.

Import MorphSubPathHelper.
Local Open Scope list_scope.

(** An active path with four subpaths, of which the second and the third
    are split. *)
#[local] Abbreviation subPathAt :=
  (fun i : nat => [false; true; true; false] !! i).
#[local] Abbreviation split := (fun b : bool => b).

Lemma findHitSubPath_is_last_split_hit_witness :
  let info := mkInfo 1 (Some true) in
  findHitSubPath subPathAt split [0; 2; 1; 3] = Some (Some info)
  /\ exists before after,
       [0; 2; 1; 3] = before ++ subIdx info :: after
       /\ subPath info = subPathAt (subIdx info)
       /\ Forall (splitAt subPathAt split false) after
       /\ (splitAt subPathAt split true (subIdx info)
           \/ (after = [] /\ Forall (splitAt subPathAt split false) [0; 2; 1; 3])).
Proof.
  intros info. split; [reflexivity |].
  apply (findHitSubPath_is_last_split_hit subPathAt split [0; 2; 1; 3] info). reflexivity.
Defined.

Lemma click_pairs_the_hovered_subpath_witness :
  let hitResult := mkHitResult true true false [0; 2; 3] [] in
  (forall i, onMouseDown subPathAt split hitResult false = Some [PairSubPath i]
             <-> checkForHovers subPathAt split hitResult = Some [SetHover i])
  /\ (onMouseDown subPathAt split hitResult false = None
      <-> checkForHovers subPathAt split hitResult = None).
Proof.
  intros hitResult.
  apply (click_pairs_the_hovered_subpath subPathAt split hitResult false). reflexivity.
Defined.

End HelperRuns.
